(** * pdf-space-filler: store, detector, form synthesizer and archive serializer

    A shallow embedding of the computational core of the repository:
    - [src/store/usePdfStore.ts]   (the document/field store),
    - [utils/detection]            (the underscore-run detector),
    - [App]                        (buildFillablePdf and the export handlers),
    - [utils/zip]                  (CRC-32 and the archive writer).

    JavaScript numbers that carry geometry are modelled as rationals [Q]
    (the real-number reading of the arithmetic, without NaN or infinities);
    the differences that the store compares with the thresholds of its
    duplicate test are rounded to the nearest double ([Number.sub]), as the
    outcome of that test at a threshold depends on it; array indices and counters are [nat]; 32-bit values are [Z]
    with their wrap-around written out; a [Uint8Array] is a [list byte]; a
    JavaScript string is a [string] whose characters stand for its code
    units.  The libraries the code calls (pdf.js pages and viewports,
    pdf-lib, [TextEncoder], [Math.sqrt], the clock and the id generator) are
    parameters of the functions that use them. *)

From Stdlib Require Import ZArith QArith Qabs Qminmax Qround Qpower Lia Lqa.
From Stdlib Require Import Strings.String Strings.Ascii Strings.Byte.
From stdpp Require Import base list strings gmap pretty.

Local Open Scope string_scope.
Local Open Scope list_scope.

Abbreviation bytes := (list byte).

(** Comparison operators of JavaScript numbers, on rationals. *)
Definition Qltb (a b : Q) : bool := negb (Qle_bool b a).   (* a < b *)
Definition Qgtb (a b : Q) : bool := Qltb b a.              (* a > b *)
Definition Qneb (a b : Q) : bool := negb (Qeq_bool a b).   (* a !== b *)

(* ===================================================================== *)
(** ** Double-precision rounding                                          *)
(* ===================================================================== *)

Module Number.
Local Open Scope Q_scope.

(** The integer nearest to [q], a tie going to the even one. *)
Definition roundHalfEven (q : Q) : Z :=
  let below := Qfloor q in
  match Qcompare (q - inject_Z below) (1 # 2) with
  | Lt => below
  | Gt => (below + 1)%Z
  | Eq => if Z.even below then below else (below + 1)%Z
  end.

(** The binade of [q], for [q] other than zero: the [b] with
    [2^b <= |q| < 2^(b+1)].  The difference of the logarithms of numerator
    and denominator is [b] or [b + 1]. *)
Definition binade (q : Q) : Z :=
  let guess := (Z.log2 (Z.abs (Qnum q)) - Z.log2 (Zpos (Qden q)))%Z in
  if Qle_bool (2 ^ guess) (Qabs q) then guess else (guess - 1)%Z.

(** The exponent of the last of the 53 bits of a double in the binade of
    [q]; it is -1074 throughout the subnormal range. *)
Definition exponent (q : Q) : Z := Z.max (binade q - 52) (-1074).

(** The double nearest to [q], a tie going to the even significand
    (round to nearest, ties to even).  Numbers beyond the largest double,
    which round to an infinity, are outside the model. *)
Definition toDouble (q : Q) : Q :=
  if Qeq_bool q 0 then 0
  else
    let unit := 2 ^ exponent q in
    inject_Z (roundHalfEven (q / unit)) * unit.

(** [a - b] on doubles: the exact difference, rounded. *)
Definition sub (a b : Q) : Q := toDouble (a - b).
End Number.

(* ===================================================================== *)
(** ** Data model ([usePdfStore.ts], lines 4-34)                          *)
(* ===================================================================== *)

Module Field.
Record t := mk {
  id : string;
  pageIndex : nat;
  x : Q;
  y : Q;
  width : Q;
  height : Q;
  multiline : bool;
  confidence : option Q;
  name : string;
  placeholder : option string;
}.

(** [Partial<Field>]: every key may be absent.  A present key of an optional
    property may itself carry [undefined]. *)
Record partial := mkPartial {
  p_id : option string;
  p_pageIndex : option nat;
  p_x : option Q;
  p_y : option Q;
  p_width : option Q;
  p_height : option Q;
  p_multiline : option bool;
  p_confidence : option (option Q);
  p_name : option string;
  p_placeholder : option (option string);
}.

(** [{ ...field, ...updates }] *)
Definition spread (field : t) (updates : partial) : t :=
  {| id := default (id field) (p_id updates);
     pageIndex := default (pageIndex field) (p_pageIndex updates);
     x := default (x field) (p_x updates);
     y := default (y field) (p_y updates);
     width := default (width field) (p_width updates);
     height := default (height field) (p_height updates);
     multiline := default (multiline field) (p_multiline updates);
     confidence := default (confidence field) (p_confidence updates);
     name := default (name field) (p_name updates);
     placeholder := default (placeholder field) (p_placeholder updates) |}.

(** The rectangle of a field, [(x, y, width, height)]. *)
Definition rect (field : t) : Q * Q * Q * Q :=
  (x field, y field, width field, height field).
End Field.

Module PageMeta.
Record t := mk {
  index : nat;
  width : Q;
  height : Q;
  originalWidth : Q;
  originalHeight : Q;
  scale : Q;
}.
End PageMeta.

Module PdfDocumentRecord.
Record t := mk {
  id : string;
  fileName : string;
  pdfDoc : nat;              (* handle of the pdf.js document proxy *)
  documentData : bytes;
  pages : list PageMeta.t;
  fields : list Field.t;
  selectedFieldId : option string;
}.
End PdfDocumentRecord.

(* ===================================================================== *)
(** ** The store ([usePdfStore.ts], lines 36-162)                         *)
(* ===================================================================== *)

Module Store.
Import PdfDocumentRecord.

Record PdfState := mkState {
  documents : list PdfDocumentRecord.t;
  activeDocumentId : option string;
}.

(** [create<PdfState>((set) => ({ documents: [], activeDocumentId: undefined, ... }))] *)
Definition initial : PdfState :=
  {| documents := []; activeDocumentId := None |}.

Definition updateDocument (documents : list PdfDocumentRecord.t) (id : string)
    (updater : PdfDocumentRecord.t -> PdfDocumentRecord.t) : list PdfDocumentRecord.t :=
  List.map (fun document =>
              if String.eqb (PdfDocumentRecord.id document) id
              then updater document else document)
           documents.

(** [{ ...document, fields: fs, selectedFieldId: sel }] *)
Definition withFields (document : PdfDocumentRecord.t) (fs : list Field.t)
    (sel : option string) : PdfDocumentRecord.t :=
  {| id := id document; fileName := fileName document; pdfDoc := pdfDoc document;
     documentData := documentData document; pages := pages document;
     fields := fs; selectedFieldId := sel |}.

(** [xs.length ? xs[xs.length - 1]?.id : undefined] *)
Definition lastId (xs : list Field.t) : option string :=
  Field.id <$> last xs.

(** The state object handed to [set] is merged into the previous state: a
    key that the update does not mention keeps its value. *)
Definition addDocument (entry : PdfDocumentRecord.t) (state : PdfState) : PdfState :=
  {| documents := documents state ++ [entry];
     activeDocumentId := Some (id entry) |}.

(** [target?.pdfDoc.destroy()] acts on the pdf.js proxy, outside the store. *)
Definition removeDocument (id : string) (state : PdfState) : PdfState :=
  let remaining :=
    List.filter (fun document => negb (String.eqb (PdfDocumentRecord.id document) id))
                (documents state) in
  let nextActive :=
    match activeDocumentId state with
    | Some a =>
        if String.eqb a id
        then PdfDocumentRecord.id <$> head remaining
        else activeDocumentId state
    | None => activeDocumentId state
    end in
  {| documents := remaining; activeDocumentId := nextActive |}.

Definition clearAll (state : PdfState) : PdfState :=
  {| documents := []; activeDocumentId := None |}.

Definition setActiveDocument (id : string) (state : PdfState) : PdfState :=
  {| documents := documents state;
     activeDocumentId :=
       if existsb (fun document => String.eqb (PdfDocumentRecord.id document) id)
                  (documents state)
       then Some id else activeDocumentId state |}.

Definition addField (documentId : string) (field : Field.t) (state : PdfState) : PdfState :=
  {| documents :=
       updateDocument (documents state) documentId (fun document =>
         withFields document (fields document ++ [field]) (Some (Field.id field)));
     activeDocumentId := activeDocumentId state |}.

Definition updateField (documentId fieldId : string) (updates : Field.partial)
    (state : PdfState) : PdfState :=
  {| documents :=
       updateDocument (documents state) documentId (fun document =>
         withFields document
           (List.map (fun field =>
                        if String.eqb (Field.id field) fieldId
                        then Field.spread field updates else field)
                     (fields document))
           (selectedFieldId document));
     activeDocumentId := activeDocumentId state |}.

Definition removeField (documentId fieldId : string) (state : PdfState) : PdfState :=
  {| documents :=
       updateDocument (documents state) documentId (fun document =>
         withFields document
           (List.filter (fun field => negb (String.eqb (Field.id field) fieldId))
                        (fields document))
           (match selectedFieldId document with
            | Some s => if String.eqb s fieldId then None else selectedFieldId document
            | None => None
            end));
     activeDocumentId := activeDocumentId state |}.

Definition setFields (documentId : string) (fs : list Field.t) (state : PdfState) : PdfState :=
  {| documents :=
       updateDocument (documents state) documentId (fun document =>
         withFields document fs (lastId fs));
     activeDocumentId := activeDocumentId state |}.

(** The predicate of [combined.some(...)] in [mergeFields]. *)
Definition isNear (candidate existing : Field.t) : bool :=
  Nat.eqb (Field.pageIndex existing) (Field.pageIndex candidate)
  && Qltb (Qabs (Number.sub (Field.x existing) (Field.x candidate))) 10
  && Qltb (Qabs (Number.sub (Field.y existing) (Field.y candidate))) 10
  && Qltb (Qabs (Number.sub (Field.width existing) (Field.width candidate))) 15.

(** One round of [candidates.forEach]: [combined.push(candidate)] unless a
    duplicate is already in [combined]. *)
Definition mergeStep (combined : list Field.t) (candidate : Field.t) : list Field.t :=
  if existsb (isNear candidate) combined then combined else combined ++ [candidate].

Definition mergeCombined (existing candidates : list Field.t) : list Field.t :=
  fold_left mergeStep candidates existing.

Definition mergeFields (documentId : string) (candidates : list Field.t)
    (state : PdfState) : PdfState :=
  {| documents :=
       updateDocument (documents state) documentId (fun document =>
         let combined := mergeCombined (fields document) candidates in
         withFields document combined (lastId combined));
     activeDocumentId := activeDocumentId state |}.

Definition selectField (documentId : string) (fieldId : option string)
    (state : PdfState) : PdfState :=
  {| documents :=
       updateDocument (documents state) documentId (fun document =>
         withFields document (fields document) fieldId);
     activeDocumentId := activeDocumentId state |}.

(** The mutation API as commands. *)
Inductive op :=
| AddDocument (entry : PdfDocumentRecord.t)
| RemoveDocument (id : string)
| ClearAll
| SetActiveDocument (id : string)
| AddField (documentId : string) (field : Field.t)
| UpdateField (documentId fieldId : string) (updates : Field.partial)
| RemoveField (documentId fieldId : string)
| SetFields (documentId : string) (fs : list Field.t)
| MergeFields (documentId : string) (candidates : list Field.t)
| SelectField (documentId : string) (fieldId : option string).

Definition apply (o : op) : PdfState -> PdfState :=
  match o with
  | AddDocument entry => addDocument entry
  | RemoveDocument id => removeDocument id
  | ClearAll => clearAll
  | SetActiveDocument id => setActiveDocument id
  | AddField d f => addField d f
  | UpdateField d i u => updateField d i u
  | RemoveField d i => removeField d i
  | SetFields d fs => setFields d fs
  | MergeFields d cs => mergeFields d cs
  | SelectField d i => selectField d i
  end.

(** States reachable from the initial store by any sequence of commands. *)
Inductive reachable : PdfState -> Prop :=
| reach_initial : reachable initial
| reach_step o s : reachable s -> reachable (apply o s).

(** The operations that address one document through [updateDocument]. *)
Definition targets (o : op) : option string :=
  match o with
  | AddField d _ | UpdateField d _ _ | RemoveField d _
  | SetFields d _ | MergeFields d _ | SelectField d _ => Some d
  | _ => None
  end.
End Store.

(* ===================================================================== *)
(** ** The text-run detector ([utils/detection])                          *)
(* ===================================================================== *)

Module Detection.
Local Open Scope Q_scope.

Definition MIN_UNDERSCORE_RUN : nat := 8.
Definition MIN_FIELD_WIDTH : Q := 20.
Definition MIN_FIELD_HEIGHT : Q := 14.
Definition FIELD_VERTICAL_OFFSET : Q := -2.

(** [a || b] on numbers: [b] when [a] is zero. *)
Definition orElse (a b : Q) : Q := if Qeq_bool a 0 then b else a.

Definition Qofnat (n : nat) : Q := inject_Z (Z.of_nat n).

Record GlyphSegment := mkSegment {
  seg_start : nat;
  seg_end : nat;
  seg_width : Q;
}.

Record GlyphMetrics := mkMetrics {
  totalUnits : Q;
  segments : list GlyphSegment;
}.

(** A glyph object as [buildGlyphMetrics] reads it: [unicode] when it is a
    string, [width] when it is a finite number. *)
Record Glyph := mkGlyph {
  unicode : option string;
  glyph_width : option Q;
}.

(** A text item of pdf.js.  [width] is [None] when it is not a finite
    number; [glyphs] is what [font.charsToGlyphs(item.str)] returns, with
    [None] when the font object, the method or an array result is missing
    (every early [return null] before the loop), and a [None] entry for a
    falsy glyph. *)
Record TextItem := mkItem {
  str : string;
  width : option Q;
  transform : Q * Q * Q * Q * Q * Q;
  dir : string;
  glyphs : option (list (option Glyph));
}.

(** [textContent.items] also holds marked-content items, without [str]. *)
Inductive ContentItem :=
| Text (item : TextItem)
| MarkedContent.

(** A page proxy: its text content and the rectangle conversion of its
    viewport at a given scale. *)
Record PDFPageProxy := mkPage {
  items : list ContentItem;
  convertToViewportRectangle : Q -> Q * Q * Q * Q -> Q * Q * Q * Q;
}.

(** The loop of [buildGlyphMetrics]: state [(segments, cursor, totalUnits)]. *)
Definition glyphStep (st : list GlyphSegment * nat * Q) (glyph : option Glyph)
    : list GlyphSegment * nat * Q :=
  let '(segments, cursor, totalUnits) := st in
  match glyph with
  | None => st
  | Some glyphObj =>
      let unicode := default "" (unicode glyphObj) in
      let span := if (0 <? String.length unicode)%nat then String.length unicode else 1%nat in
      let width := default 0 (glyph_width glyphObj) in
      (segments ++ [{| seg_start := cursor; seg_end := (cursor + span)%nat;
                       seg_width := width |}],
       (cursor + span)%nat, totalUnits + width)
  end.

Definition buildGlyphMetrics (item : TextItem) : option GlyphMetrics :=
  match glyphs item with
  | None => None
  | Some [] => None
  | Some gs =>
      let '(segments, _, totalUnits) := fold_left glyphStep gs ([], 0%nat, 0) in
      if Qeq_bool totalUnits 0 then None
      else Some {| totalUnits := totalUnits; segments := segments |}
  end.

(** The loop of [measureRunUsingGlyphs] over the remaining segments. *)
Fixpoint measureLoop (segs : list GlyphSegment) (runStart runEnd : nat)
    (prefixUnits runUnits : Q) : Q * Q :=
  match segs with
  | [] => (prefixUnits, runUnits)
  | segment :: rest =>
      if (seg_end segment <=? runStart)%nat then
        measureLoop rest runStart runEnd (prefixUnits + seg_width segment) runUnits
      else if (runEnd <=? seg_start segment)%nat then
        (prefixUnits, runUnits)                                   (* break *)
      else
        let segmentSpan := Qofnat (Nat.max (seg_end segment - seg_start segment) 1) in
        let prefixUnits' :=
          if (seg_start segment <? runStart)%nat then
            let beforePortion := Qofnat (runStart - seg_start segment) / segmentSpan in
            prefixUnits + seg_width segment * beforePortion
          else prefixUnits in
        let overlapStart := Nat.max (seg_start segment) runStart in
        let overlapEnd := Nat.min (seg_end segment) runEnd in
        let overlapLength := (overlapEnd - overlapStart)%nat in
        let runUnits' :=
          if (0 <? overlapLength)%nat
          then runUnits + (seg_width segment * Qofnat overlapLength) / segmentSpan
          else runUnits in
        measureLoop rest runStart runEnd prefixUnits' runUnits'
  end.

(** Returns [(prefix, run)]. *)
Definition measureRunUsingGlyphs (metrics : GlyphMetrics) (runStart runLength : nat)
    : Q * Q :=
  measureLoop (segments metrics) runStart (runStart + runLength) 0 0.

Definition clampSize (value min available : Q) : Q :=
  let safeAvailable := if Qgtb available 0 then available else min in
  let lowerBound := Qmin min safeAvailable in
  let expanded := Qmax value lowerBound in
  Qmin expanded safeAvailable.

(** *** [str.matchAll(/(_{3,})/g)]

    The matches of the pattern are the maximal runs of underscores of
    length 3 or more, left to right; a match is [(index, length)].
    [pos] is the offset of the next character, [run] the number of
    underscores just before it. *)
Definition closeRun (pos run : nat) : list (nat * nat) :=
  if (3 <=? run)%nat then [((pos - run)%nat, run)] else [].

Fixpoint scanRuns (chars : list ascii) (pos run : nat) : list (nat * nat) :=
  match chars with
  | [] => closeRun pos run
  | c :: rest =>
      if Ascii.eqb c "_"%char
      then scanRuns rest (S pos) (S run)
      else closeRun pos run ++ scanRuns rest (S pos) 0
  end.

Definition matchAll (s : string) : list (nat * nat) :=
  scanRuns (list_ascii_of_string s) 0 0.

(** [`page${pageMeta.index + 1}_field_${pageFieldCount}`] *)
Definition fieldName (pageMeta : PageMeta.t) (pageFieldCount : nat) : string :=
  "page" +:+ pretty (PageMeta.index pageMeta + 1)%nat
  +:+ "_field_" +:+ pretty pageFieldCount.

(** From the viewport rectangle of a run to the field rectangle
    [(x, y, width, height)]: lines 1168-1197 of the source. *)
Definition placeRun (pageMeta : PageMeta.t) (fontHeight : Q) (rect : Q * Q * Q * Q)
    : Q * Q * Q * Q :=
  let '(x1, y1, x2, y2) := rect in
  let x := Qmin x1 x2 in
  let rawWidth := Qabs (x2 - x1) in
  let rawHeight := orElse (Qabs (y2 - y1)) (fontHeight * PageMeta.scale pageMeta * (4 # 10)) in
  let minWidthTarget :=
    Qmax MIN_FIELD_WIDTH (if Qneb rawWidth 0 then rawWidth else MIN_FIELD_WIDTH) in
  let width := clampSize rawWidth MIN_FIELD_WIDTH (PageMeta.width pageMeta - x) in
  let width :=
    if Qltb width minWidthTarget
    then Qmin minWidthTarget (PageMeta.width pageMeta - x) else width in
  let heightCandidate := clampSize rawHeight MIN_FIELD_HEIGHT (PageMeta.height pageMeta) in
  let height := Qmin heightCandidate (MIN_FIELD_HEIGHT + 16) in
  let centerY := (y1 + y2) / 2 in
  let y := centerY - height in
  let y := if Qltb y 0 then 0 else y in
  let y :=
    if Qgtb (y + height) (PageMeta.height pageMeta)
    then Qmax (PageMeta.height pageMeta - height) 0 else y in
  let y :=
    if Qneb FIELD_VERTICAL_OFFSET 0 then
      let shiftedY := y + FIELD_VERTICAL_OFFSET in
      let maxY := Qmax (PageMeta.height pageMeta - height) 0 in
      Qmin (Qmax shiftedY 0) maxY
    else y in
  let x := Qmax x 0 in
  let width :=
    if Qgtb (x + width) (PageMeta.width pageMeta)
    then Qmax (PageMeta.width pageMeta - x) 1 else width in
  (x, y, width, height).

Section WithEnvironment.
(** [Math.sqrt] *)
Variable sqrt : Q -> Q.
(** [makeId]: the [k]-th id drawn. *)
Variable makeId : nat -> string.

(** What the body of [for (const item of ...)] computes before the
    inner loop. *)
Record ItemContext := mkContext {
  ctx_item : TextItem;
  itemWidth : Q;
  charWidth : Q;
  glyphMetrics : option GlyphMetrics;
  baseX : Q;
  baseY : Q;
  fontHeight : Q;
}.

Definition itemContext (item : TextItem) : ItemContext :=
  let glyphCount := if (String.length (str item) =? 0)%nat then 1%nat
                    else String.length (str item) in
  let itemWidth := default 0 (width item) in
  let charWidth := if (0 <? glyphCount)%nat then itemWidth / Qofnat glyphCount else 0 in
  let '(_, _, t2, t3, t4, t5) := transform item in
  {| ctx_item := item; itemWidth := itemWidth; charWidth := charWidth;
     glyphMetrics := buildGlyphMetrics item;
     baseX := t4; baseY := t5;
     fontHeight := orElse (sqrt (t2 ^ 2 + t3 ^ 2)) 10 |}.

(** The content-space rectangle of a run, or [None] when the run is
    skipped ([lineWidth] not positive). *)
Definition sourceRect (ctx : ItemContext) (startOffset runLength : nat)
    : option (Q * Q * Q * Q) :=
  let measuredWidth := charWidth ctx * Qofnat runLength in
  let measuredStartOffset := charWidth ctx * Qofnat startOffset in
  let '(measuredStartOffset, measuredWidth) :=
    match glyphMetrics ctx with
    | Some metrics =>
        let '(prefix, run) := measureRunUsingGlyphs metrics startOffset runLength in
        let scale := if Qneb (totalUnits metrics) 0
                     then itemWidth ctx / totalUnits metrics else 0 in
        if Qgtb scale 0 && Qgtb run 0
        then (prefix * scale, run * scale)
        else (measuredStartOffset, measuredWidth)
    | None => (measuredStartOffset, measuredWidth)
    end in
  let sourceX :=
    if String.eqb (dir (ctx_item ctx)) "rtl"
    then baseX ctx - (measuredStartOffset + measuredWidth)
    else baseX ctx + measuredStartOffset in
  let fallbackWidth :=
    if Qgtb (charWidth ctx) 0 then charWidth ctx * Qofnat runLength else itemWidth ctx in
  let lineWidth := if Qgtb measuredWidth 0 then measuredWidth else fallbackWidth in
  if negb (Qgtb lineWidth 0) then None
  else Some (sourceX, baseY ctx - fontHeight ctx * (6 # 10),
             sourceX + lineWidth, baseY ctx + fontHeight ctx * (2 # 10)).

(** One round of [for (const match of matches)]; the state is
    [(detected, pageFieldCount)], [drawn] ids were drawn before this
    page.  A match of [matchAll] always has its [index]. *)
Definition processMatch (page : PDFPageProxy) (pageMeta : PageMeta.t) (drawn : nat)
    (ctx : ItemContext) (st : list Field.t * nat) (m : nat * nat)
    : list Field.t * nat :=
  let '(detected, pageFieldCount) := st in
  let '(startOffset, runLength) := m in
  if (runLength <? MIN_UNDERSCORE_RUN)%nat then st
  else
    match sourceRect ctx startOffset runLength with
    | None => st
    | Some source =>
        let rect := convertToViewportRectangle page (PageMeta.scale pageMeta) source in
        let '(x, y, width, height) := placeRun pageMeta (fontHeight ctx) rect in
        let pageFieldCount := (pageFieldCount + 1)%nat in
        (detected ++
           [{| Field.id := makeId (drawn + length detected)%nat;
               Field.pageIndex := PageMeta.index pageMeta;
               Field.x := x; Field.y := y; Field.width := width; Field.height := height;
               Field.multiline := false;
               Field.confidence := Some (6 # 10);
               Field.name := fieldName pageMeta pageFieldCount;
               Field.placeholder := None |}],
         pageFieldCount)
    end.

(** One round of [for (const item of textContent.items)].  An item whose
    string has no underscore, or no match, goes through the inner loop
    without a round. *)
Definition processItem (page : PDFPageProxy) (pageMeta : PageMeta.t) (drawn : nat)
    (st : list Field.t * nat) (item : ContentItem) : list Field.t * nat :=
  match item with
  | MarkedContent => st
  | Text item =>
      fold_left (processMatch page pageMeta drawn (itemContext item))
                (matchAll (str item)) st
  end.

Definition detectFieldsForPage (drawn : nat) (page : PDFPageProxy) (pageMeta : PageMeta.t)
    : list Field.t :=
  fst (fold_left (processItem page pageMeta drawn) (items page) ([], 0%nat)).

(** [pdfDoc.getPage(n)], 1-based; out of range the promise is rejected. *)
Definition getPage (pdfDoc : list PDFPageProxy) (n : nat) : option PDFPageProxy :=
  match n with
  | O => None
  | S k => pdfDoc !! k
  end.

(** [None] when a [getPage] fails: the exception leaves [detectFields]. *)
Fixpoint detectLoop (pdfDoc : list PDFPageProxy) (pages : list PageMeta.t)
    (aggregated : list Field.t) : option (list Field.t) :=
  match pages with
  | [] => Some aggregated
  | meta :: rest =>
      match getPage pdfDoc (PageMeta.index meta + 1) with
      | None => None
      | Some page =>
          let pageFields := detectFieldsForPage (length aggregated) page meta in
          detectLoop pdfDoc rest (aggregated ++ pageFields)
      end
  end.

Definition detectFields (pdfDoc : list PDFPageProxy) (pages : list PageMeta.t)
    : option (list Field.t) :=
  detectLoop pdfDoc pages [].
End WithEnvironment.

(** A square root that is exact on the squares of rationals. *)
Definition sqrtFloor (q : Q) : Q :=
  Z.sqrt (Qnum q * Zpos (Qden q)) # Qden q.

(** The viewport of an unrotated page of height [pageHeight] (content
    units) whose box starts at the origin: scale, and flip the y axis. *)
Definition plainViewport (pageHeight : Q) (scale : Q) (rect : Q * Q * Q * Q)
    : Q * Q * Q * Q :=
  let '(a, b, c, d) := rect in
  (scale * a, scale * (pageHeight - b), scale * c, scale * (pageHeight - d)).
End Detection.

(* ===================================================================== *)
(** ** The archive serializer ([utils/zip])                               *)
(* ===================================================================== *)

Module Zip.
Local Open Scope Z_scope.

(** *** 32-bit integer operators of JavaScript

    [^], [&], [|] and [<<] yield a signed 32-bit integer; [>>>] reads its
    left operand as an unsigned 32-bit integer. *)
Definition toInt32 (v : Z) : Z := (v + 2 ^ 31) mod 2 ^ 32 - 2 ^ 31.
Definition toUint32 (v : Z) : Z := v mod 2 ^ 32.
Definition xor32 (a b : Z) : Z := toInt32 (Z.lxor a b).
Definition and32 (a b : Z) : Z := toInt32 (Z.land a b).
Definition or32 (a b : Z) : Z := toInt32 (Z.lor a b).
Definition shl32 (a n : Z) : Z := toInt32 (Z.shiftl a n).
Definition ushr32 (a n : Z) : Z := Z.shiftr (toUint32 a) n.

(** *** CRC-32 *)

(** The inner loop of the table initialiser, [j] from 0 to 7. *)
Definition crcTableStep (value : Z) : Z :=
  if negb (and32 value 1 =? 0)
  then xor32 0xedb88320 (ushr32 value 1)
  else ushr32 value 1.

(** [table[i] = value >>> 0] after eight steps from [value = i]. *)
Definition crcTableEntry (i : Z) : Z :=
  ushr32 (Nat.iter 8 crcTableStep i) 0.

Definition CRC32_TABLE : list Z :=
  List.map (fun i => crcTableEntry (Z.of_nat i)) (seq 0 256).

Definition byteZ (b : byte) : Z := Z.of_N (Byte.to_N b).

(** One round of the loop of [computeCrc32]. *)
Definition crcUpdate (crc : Z) (b : byte) : Z :=
  let lookupIndex := and32 (xor32 crc (byteZ b)) 0xff in
  xor32 (ushr32 crc 8) (nth (Z.to_nat lookupIndex) CRC32_TABLE 0).

Definition computeCrc32 (data : bytes) : Z :=
  let crc := fold_left crcUpdate data 0xffffffff in
  ushr32 (xor32 crc 0xffffffff) 0.

(** *** MS-DOS time and date *)

(** What the getters of a [Date] return ([getMonth] is 0-based). *)
Record Date := mkDate {
  getFullYear : Z;
  getMonth : Z;
  getDate : Z;
  getHours : Z;
  getMinutes : Z;
  getSeconds : Z;
}.

Definition toDosDate (date : Date) : Z * Z :=
  let year := getFullYear date in
  let month := getMonth date in
  let day := getDate date in
  let hours := getHours date in
  let minutes := getMinutes date in
  let seconds := getSeconds date in
  let dosTime :=
    or32 (or32 (shl32 (and32 hours 0x1f) 11)
               (shl32 (and32 minutes 0x3f) 5))
         (and32 (seconds / 2) 0x1f) in
  let dosDate :=
    or32 (or32 (shl32 (and32 (Z.max 1980 (Z.min year 2107) - 1980) 0x7f) 9)
               (shl32 (and32 (month + 1) 0xf) 5))
         (and32 day 0x1f) in
  (dosTime, dosDate).

(** *** The writer: an [ArrayBuffer] and a moving [pointer]

    A write that would pass the end of the buffer raises a [RangeError],
    here [None]. *)
Definition wstate : Type := bytes * nat.
Definition writer : Type := wstate -> option wstate.

Definition andThen (w1 w2 : writer) : writer :=
  fun s => match w1 s with Some s' => w2 s' | None => None end.

Definition skip : writer := fun s => Some s.

(** A block of statements, run in order. *)
Definition block (ws : list writer) : writer := fold_right andThen skip ws.

(** [xs.forEach(body)] *)
Definition forEach {A} (body : A -> writer) (xs : list A) : writer :=
  block (List.map body xs).

(** Store [out] at the pointer; the pointer stays. *)
Definition store (out : bytes) : writer :=
  fun '(buffer, pointer) =>
    if decide (pointer + length out <= length buffer)%nat
    then Some (take pointer buffer ++ out ++ drop (pointer + length out) buffer, pointer)
    else None.

(** [pointer += n] *)
Definition advance (n : nat) : writer :=
  fun '(buffer, pointer) => Some (buffer, (pointer + n)%nat).

Definition byteOfZ (v : Z) : byte :=
  default "000"%byte (Byte.of_N (Z.to_N (v mod 256))).

(** The little-endian bytes [DataView.setUintN(_, v, true)] stores. *)
Definition le16 (v : Z) : bytes :=
  [byteOfZ v; byteOfZ (Z.shiftr v 8)].
Definition le32 (v : Z) : bytes :=
  [byteOfZ v; byteOfZ (Z.shiftr v 8); byteOfZ (Z.shiftr v 16); byteOfZ (Z.shiftr v 24)].

Definition writeUint32 (value : Z) : writer :=
  block [store (le32 (ushr32 value 0)); advance 4].
Definition writeUint16 (value : Z) : writer :=
  block [store (le16 (and32 value 0xffff)); advance 2].
(** [bytes.set(arr, pointer); pointer += arr.length] *)
Definition writeBytes (arr : bytes) : writer :=
  block [store arr; advance (length arr)].

(** *** Entries *)

Record ZipEntry := mkEntry {
  name : string;
  data : bytes;
  date : option Date;
}.

Record EntryMeta := mkMeta {
  m_name : string;
  nameBytes : bytes;
  m_data : bytes;
  crc32 : Z;
  dosTime : Z;
  dosDate : Z;
  localHeaderLength : nat;
  centralHeaderLength : nat;
  localHeaderOffset : nat;
}.

Section WithEnvironment.
(** [new TextEncoder().encode]: UTF-8. *)
Variable encode : string -> bytes.
(** [clock k] is what the [k]-th evaluation of [new Date()] returns. *)
Variable clock : nat -> Date.

(** [files.map(...)]; [ticks] counts the [new Date()] evaluated so far,
    one for each entry without a [date]. *)
Fixpoint buildMetadata (ticks : nat) (files : list ZipEntry) : list EntryMeta :=
  match files with
  | [] => []
  | file :: rest =>
      let nameBytes := encode (name file) in
      let crc32 := computeCrc32 (data file) in
      (* [file.date ?? new Date()] *)
      let stamp := match date file with Some d => d | None => clock ticks end in
      let ticks' := match date file with Some _ => ticks | None => S ticks end in
      let dos := toDosDate stamp in
      {| m_name := name file; nameBytes := nameBytes; m_data := data file;
         crc32 := crc32; dosTime := fst dos; dosDate := snd dos;
         localHeaderLength := 30 + length nameBytes;
         centralHeaderLength := 46 + length nameBytes;
         localHeaderOffset := 0 |}
      :: buildMetadata ticks' rest
  end.

Definition setOffset (entry : EntryMeta) (offset : nat) : EntryMeta :=
  {| m_name := m_name entry; nameBytes := nameBytes entry; m_data := m_data entry;
     crc32 := crc32 entry; dosTime := dosTime entry; dosDate := dosDate entry;
     localHeaderLength := localHeaderLength entry;
     centralHeaderLength := centralHeaderLength entry;
     localHeaderOffset := offset |}.

(** The first [metadata.forEach]: every entry gets its offset, and the
    running offset is returned with the list. *)
Fixpoint assignOffsets (offset : nat) (metadata : list EntryMeta)
    : list EntryMeta * nat :=
  match metadata with
  | [] => ([], offset)
  | entry :: rest =>
      let '(rest', final) :=
        assignOffsets (offset + (localHeaderLength entry + length (m_data entry))) rest in
      (setOffset entry offset :: rest', final)
  end.

Definition writeLocal (entry : EntryMeta) : writer :=
  block [
    writeUint32 0x04034b50;
    writeUint16 20;
    writeUint16 0;
    writeUint16 0;
    writeUint16 (dosTime entry);
    writeUint16 (dosDate entry);
    writeUint32 (crc32 entry);
    writeUint32 (Z.of_nat (length (m_data entry)));
    writeUint32 (Z.of_nat (length (m_data entry)));
    writeUint16 (Z.of_nat (length (nameBytes entry)));
    writeUint16 0;
    writeBytes (nameBytes entry);
    writeBytes (m_data entry)
  ].

Definition writeCentral (entry : EntryMeta) : writer :=
  block [
    writeUint32 0x02014b50;
    writeUint16 20;
    writeUint16 20;
    writeUint16 0;
    writeUint16 0;
    writeUint16 (dosTime entry);
    writeUint16 (dosDate entry);
    writeUint32 (crc32 entry);
    writeUint32 (Z.of_nat (length (m_data entry)));
    writeUint32 (Z.of_nat (length (m_data entry)));
    writeUint16 (Z.of_nat (length (nameBytes entry)));
    writeUint16 0;
    writeUint16 0;
    writeUint16 0;
    writeUint16 0;
    writeUint32 0;
    writeUint32 (Z.of_nat (localHeaderOffset entry));
    writeBytes (nameBytes entry)
  ].

Definition writeEnd (count centralDirectorySize centralDirectoryOffset : nat) : writer :=
  block [
    writeUint32 0x06054b50;
    writeUint16 0;
    writeUint16 0;
    writeUint16 (Z.of_nat count);
    writeUint16 (Z.of_nat count);
    writeUint32 (Z.of_nat centralDirectorySize);
    writeUint32 (Z.of_nat centralDirectoryOffset);
    writeUint16 0
  ].

(** The contents of the returned [Blob], or [None] for a [RangeError]. *)
Definition createZipFromFiles (files : list ZipEntry) : option bytes :=
  let '(metadata, offset) := assignOffsets 0 (buildMetadata 0 files) in
  let centralDirectorySize :=
    fold_left (fun sum entry => (sum + centralHeaderLength entry)%nat) metadata 0%nat in
  let zipSize := (offset + centralDirectorySize + 22)%nat in
  let buffer := repeat "000"%byte zipSize in
  match forEach writeLocal metadata (buffer, 0%nat) with
  | None => None
  | Some (buffer1, pointer1) =>
      let centralDirectoryOffset := pointer1 in
      match block [forEach writeCentral metadata;
                   writeEnd (length metadata) centralDirectorySize centralDirectoryOffset]
              (buffer1, pointer1) with
      | None => None
      | Some (buffer2, _) => Some buffer2
      end
  end.
End WithEnvironment.

(** On ASCII names UTF-8 is one byte per character. *)
Definition asciiEncode (s : string) : bytes := list_byte_of_string s.
End Zip.

(* ===================================================================== *)
(** ** The form synthesizer and the export handlers ([App])               *)
(* ===================================================================== *)

Module App.
Local Open Scope Q_scope.

Definition MIN_FIELD_WIDTH : Q := 80.
Definition MIN_FIELD_HEIGHT : Q := 22.

(** What [buildFillablePdf] asks of pdf-lib for one field: the page of
    [getPage], the name of [form.createTextField], the text of [setText],
    the rectangle of [addToPage] and whether [enableMultiline] is called. *)
Record Widget := mkWidget {
  w_name : string;
  w_pageIndex : nat;
  w_x : Q;
  w_y : Q;
  w_width : Q;
  w_height : Q;
  w_text : string;
  w_multiline : bool;
}.

(** pdf-lib, as far as [buildFillablePdf] uses it; a call answers [None]
    when it throws.
    - [load]: [PDFDocument.load(data)], [getForm()] and [embedFont];
    - [addTextField] for one field, in this order:
      [getPage(w_pageIndex)], [form.createTextField(w_name)],
      [setText(w_text)], [addToPage(page, { x, y, width, height, ... })],
      [setFontSize], [updateAppearances(font)] and, for a multiline field,
      [enableMultiline()];
    - [save]: [form.updateFieldAppearances(font)] and [save()]. *)
Record PdfLib := mkPdfLib {
  PDFDocument : Type;
  load : bytes -> option PDFDocument;
  addTextField : PDFDocument -> Widget -> option PDFDocument;
  save : PDFDocument -> option bytes;
}.

(** The body of [document.fields.forEach] for a field on [pageMeta], up to
    the calls of pdf-lib: the [nameUsage] map it leaves and the widget it
    asks for. *)
Definition request (pageMeta : PageMeta.t) (nameUsage : gmap string nat)
    (field : Field.t) : gmap string nat * Widget :=
  let scale := PageMeta.scale pageMeta in
  let x := Field.x field / scale in
  let yFromTop := Field.y field / scale in
  let width := Field.width field / scale in
  let height := Field.height field / scale in
  let y := PageMeta.originalHeight pageMeta - yFromTop - height in
  let baseName := if String.eqb (Field.name field) "" then "field"
                  else Field.name field in
  let usageCount := default 0%nat (nameUsage !! baseName) in
  let nameUsage := <[baseName := (usageCount + 1)%nat]> nameUsage in
  let uniqueName :=
    if (usageCount =? 0)%nat then baseName
    else baseName +:+ "_" +:+ pretty (usageCount + 1)%nat in
  (nameUsage,
   {| w_name := uniqueName; w_pageIndex := Field.pageIndex field;
      w_x := x; w_y := y; w_width := width; w_height := height;
      w_text := default "" (Field.placeholder field);
      w_multiline := Field.multiline field |}).

(** *** Export *)

(** What a handler leaves behind: the message given to [setError] (the
    last one) and the file handed to the browser. *)
Record Outcome := mkOutcome {
  error : option string;
  download : option (string * bytes);
}.

(** [fileName.replace(/\.pdf$/i, '')] *)
Definition isLetter (lower upper c : ascii) : bool :=
  Ascii.eqb c lower || Ascii.eqb c upper.

Definition stripPdf (fileName : string) : string :=
  match rev (list_ascii_of_string fileName) with
  | f :: d :: p :: dot :: front =>
      if Ascii.eqb dot "."%char && isLetter "p" "P" p && isLetter "d" "D" d
         && isLetter "f" "F" f
      then string_of_list_ascii (rev front)
      else fileName
  | _ => fileName
  end.

Definition exportName (fileName : string) : string :=
  stripPdf fileName +:+ "-fillable.pdf".

Section WithEnvironment.
Variable pdfLib : PdfLib.
Variable encode : string -> bytes.
Variable clock : nat -> Zip.Date.

(** [document.fields.forEach((field) => { ... })] on the loaded document:
    [None] when a call of pdf-lib throws, which ends the loop and leaves
    [buildFillablePdf]. *)
Fixpoint forEachField (pages : list PageMeta.t) (fields : list Field.t)
    (nameUsage : gmap string nat) (pdfDocInstance : PDFDocument pdfLib)
    : option (PDFDocument pdfLib) :=
  match fields with
  | [] => Some pdfDocInstance
  | field :: rest =>
      match pages !! Field.pageIndex field with
      | None => forEachField pages rest nameUsage pdfDocInstance     (* return *)
      | Some pageMeta =>
          let '(nameUsage, widget) := request pageMeta nameUsage field in
          match addTextField pdfLib pdfDocInstance widget with
          | None => None
          | Some pdfDocInstance => forEachField pages rest nameUsage pdfDocInstance
          end
      end
  end.

(** [None] when the promise is rejected. *)
Definition buildFillablePdf (document : PdfDocumentRecord.t) : option bytes :=
  match load pdfLib (PdfDocumentRecord.documentData document) with
  | None => None
  | Some pdfDocInstance =>
      match forEachField (PdfDocumentRecord.pages document)
              (PdfDocumentRecord.fields document) ∅ pdfDocInstance with
      | None => None
      | Some pdfDocInstance => save pdfLib pdfDocInstance
      end
  end.

Definition handleExportCurrent (activeDocument : option PdfDocumentRecord.t) : Outcome :=
  match activeDocument with
  | None =>
      {| error := Some "Nothing to export yet. Add fields first."; download := None |}
  | Some document =>
      if (length (PdfDocumentRecord.fields document) =? 0)%nat then
        {| error := Some "Nothing to export yet. Add fields first."; download := None |}
      else
        match buildFillablePdf document with
        | Some bytes =>
            {| error := None;
               download := Some (exportName (PdfDocumentRecord.fileName document), bytes) |}
        | None =>
            {| error := Some "Export failed. Try again or refresh the page.";
               download := None |}
        end
  end.

(** The loop of [handleExportAll]; [None] when a [buildFillablePdf]
    throws. *)
Fixpoint collectFiles (snapshot : list PdfDocumentRecord.t) (files : list Zip.ZipEntry)
    : option (list Zip.ZipEntry) :=
  match snapshot with
  | [] => Some files
  | document :: rest =>
      if (length (PdfDocumentRecord.fields document) =? 0)%nat
      then collectFiles rest files                              (* continue *)
      else
        match buildFillablePdf document with
        | None => None
        | Some data =>
            let name := exportName (PdfDocumentRecord.fileName document) in
            collectFiles rest
              (files ++ [{| Zip.name := name; Zip.data := data; Zip.date := None |}])
        end
  end.

Definition handleExportAll (snapshot : list PdfDocumentRecord.t) : Outcome :=
  if (length snapshot =? 0)%nat then
    {| error := Some "No documents to export."; download := None |}
  else
    match collectFiles snapshot [] with
    | None => {| error := Some "Failed to export all documents."; download := None |}
    | Some files =>
        if (length files =? 0)%nat then
          {| error := Some "No fields found to export. Add fields before exporting.";
             download := None |}
        else
          match Zip.createZipFromFiles encode clock files with
          | Some zipBlob =>
              {| error := None; download := Some ("fillable-pdfs.zip", zipBlob) |}
          | None =>
              {| error := Some "Failed to export all documents."; download := None |}
          end
    end.
End WithEnvironment.

(** A pdf-lib that accepts every request and keeps them, in order. *)
Definition recorder : PdfLib :=
  {| PDFDocument := list Widget;
     load := fun _ => Some [];
     addTextField := fun placed widget => Some (placed ++ [widget]);
     save := fun _ => Some [] |}.

(** The requests of the loop of [buildFillablePdf] for a document, in
    order, when pdf-lib accepts them all.  Whatever pdf-lib does, the loop
    makes these requests one after the other, and the first that throws is
    the last it makes (lemma [buildFillablePdf_requests]). *)
Definition widgets (document : PdfDocumentRecord.t) : list Widget :=
  default []
    (forEachField recorder (PdfDocumentRecord.pages document)
       (PdfDocumentRecord.fields document) ∅ []).
End App.

(* ===================================================================== *)
(** ** Predicates and sample data used by the statements on the exports   *)
(* ===================================================================== *)

Module AppSpec.
Import App.
Local Open Scope Q_scope.

(** Display space to PDF content space, in the spec's words:
    [(pdfX, pdfY, pdfWidth, pdfHeight)]. *)
Definition toContentSpace (pageMeta : PageMeta.t) (field : Field.t) : Q * Q * Q * Q :=
  let scale := PageMeta.scale pageMeta in
  let pdfX := Field.x field / scale in
  let pdfWidth := Field.width field / scale in
  let pdfHeight := Field.height field / scale in
  let pdfY := PageMeta.originalHeight pageMeta - (Field.y field / scale) - pdfHeight in
  (pdfX, pdfY, pdfWidth, pdfHeight).


Definition widgetRect (w : Widget) : Q * Q * Q * Q :=
  (w_x w, w_y w, w_width w, w_height w).


(** One round of the loop on the list of the requests made so far: the
    request of the field is added, and none for a field whose page index
    has no page record. *)
Definition placeField (pages : list PageMeta.t)
    (st : gmap string nat * list Widget) (field : Field.t)
    : gmap string nat * list Widget :=
  let '(nameUsage, placed) := st in
  match pages !! Field.pageIndex field with
  | None => st
  | Some pageMeta =>
      let '(nameUsage, widget) := request pageMeta nameUsage field in
      (nameUsage, placed ++ [widget])
  end.

(** The widget a field is turned into, whatever its name. *)
Definition placedAs (pages : list PageMeta.t) (field : Field.t) (w : Widget) : Prop :=
  exists pageMeta,
    pages !! Field.pageIndex field = Some pageMeta
    /\ w_pageIndex w = Field.pageIndex field
    /\ widgetRect w = toContentSpace pageMeta field
    /\ w_text w = default "" (Field.placeholder field)
    /\ w_multiline w = Field.multiline field.


(** The requests [ws] made of pdf-lib in order on a loaded document, until
    one throws. *)
Fixpoint perform (pdfLib : PdfLib) (ws : list Widget)
    (pdfDocInstance : PDFDocument pdfLib) : option (PDFDocument pdfLib) :=
  match ws with
  | [] => Some pdfDocInstance
  | w :: rest =>
      match addTextField pdfLib pdfDocInstance w with
      | None => None
      | Some pdfDocInstance => perform pdfLib rest pdfDocInstance
      end
  end.

(** The bytes pdf-lib returns for [data] with the requests [ws]: load,
    every request in order, save; nothing when one of the calls throws. *)
Definition synthesized (pdfLib : PdfLib) (data : bytes) (ws : list Widget)
    : option bytes :=
  match load pdfLib data with
  | None => None
  | Some pdfDocInstance =>
      match perform pdfLib ws pdfDocInstance with
      | None => None
      | Some pdfDocInstance => save pdfLib pdfDocInstance
      end
  end.

Definition hasPage (pages : list PageMeta.t) (field : Field.t) : bool :=
  match pages !! Field.pageIndex field with Some _ => true | None => false end.

(** [field.name || 'field'] *)
Definition baseName (field : Field.t) : string :=
  if String.eqb (Field.name field) "" then "field" else Field.name field.

(** The collision policy in the spec's words: the first occurrence of a
    base name keeps it, the k-th occurrence (k >= 2) is [base_k]. *)
Fixpoint occurrenceNames (seen bases : list string) : list string :=
  match bases with
  | [] => []
  | b :: rest =>
      let k := S (count_occ String.string_dec seen b) in
      (if (k =? 1)%nat then b else b +:+ "_" +:+ pretty k)
      :: occurrenceNames (seen ++ [b]) rest
  end.

(** The map counts the occurrences seen so far. *)
Definition counts (nameUsage : gmap string nat) (seen : list string) : Prop :=
  forall b, default 0%nat (nameUsage !! b) = count_occ String.string_dec seen b.

Definition hasFields (document : PdfDocumentRecord.t) : bool :=
  negb (length (PdfDocumentRecord.fields document) =? 0)%nat.

(** The archive entry of a document: its derived name, the synthesized
    bytes, no date. *)
Definition exportedAs (pdfLib : PdfLib)
    (document : PdfDocumentRecord.t) (entry : Zip.ZipEntry) : Prop :=
  Zip.name entry = exportName (PdfDocumentRecord.fileName document)
  /\ buildFillablePdf pdfLib document = Some (Zip.data entry)
  /\ Zip.date entry = None.

(** ".pdf" in any mix of upper and lower case. *)
Definition pdfExtension (ext : string) : Prop :=
  exists p d f,
    ext = String "."%char (String p (String d (String f EmptyString)))
    /\ (p = "p"%char \/ p = "P"%char)
    /\ (d = "d"%char \/ d = "D"%char)
    /\ (f = "f"%char \/ f = "F"%char).
End AppSpec.

Module AppExamples.
Definition letter : PageMeta.t :=
  {| PageMeta.index := 0; PageMeta.width := 765; PageMeta.height := 990;
     PageMeta.originalWidth := 612; PageMeta.originalHeight := 792;
     PageMeta.scale := 125 # 100 |}.

Definition named (i n : string) : Field.t :=
  {| Field.id := i; Field.pageIndex := 0; Field.x := 100; Field.y := 100;
     Field.width := 150; Field.height := 24; Field.multiline := false;
     Field.confidence := None; Field.name := n; Field.placeholder := None |}.

Definition docWith (fileName : string) (fields : list Field.t) : PdfDocumentRecord.t :=
  {| PdfDocumentRecord.id := "doc"; PdfDocumentRecord.fileName := fileName;
     PdfDocumentRecord.pdfDoc := 0; PdfDocumentRecord.documentData := [];
     PdfDocumentRecord.pages := [letter]; PdfDocumentRecord.fields := fields;
     PdfDocumentRecord.selectedFieldId := None |}.

(** Two fields named "a" and one the user named "a_2". *)
Definition clash : PdfDocumentRecord.t :=
  docWith "form.pdf" [named "1" "a"; named "2" "a"; named "3" "a_2"].

Definition blankDoc : PdfDocumentRecord.t := docWith "Empty.PDF" [].
Definition filledDoc : PdfDocumentRecord.t := docWith "Form.PDF" [named "1" "a"].

(** Three fields with names of their own. *)
Definition plain : PdfDocumentRecord.t :=
  docWith "form.pdf" [named "1" "a"; named "2" "b"; named "3" "c"].

(** A stand-in for pdf-lib that accepts every request and returns the
    source bytes. *)
Definition echo : App.PdfLib :=
  {| App.PDFDocument := bytes;
     App.load := fun source => Some source;
     App.addTextField := fun pdfDocInstance _ => Some pdfDocInstance;
     App.save := fun pdfDocInstance => Some pdfDocInstance |}.

(** A stand-in for pdf-lib that keeps the text fields of the form and, as
    [createTextField] does, throws for a name the form already has; the
    bytes it saves hold one mark for each text field. *)
Definition strict : App.PdfLib :=
  {| App.PDFDocument := list App.Widget;
     App.load := fun _ => Some [];
     App.addTextField := fun form w =>
       if existsb (String.eqb (App.w_name w)) (List.map App.w_name form)
       then None else Some (form ++ [w]);
     App.save := fun form => Some (List.map (fun _ => "T"%byte) form) |}.
End AppExamples.

(* ===================================================================== *)
(** ** Predicates and sample data used by the statements on the detector  *)
(* ===================================================================== *)

Module DetectionSpec.
Import Detection.
Local Open Scope Q_scope.

(** What holds of every detected field on a page of positive size. *)
Definition withinPage (pageMeta : PageMeta.t) (f : Field.t) : Prop :=
  0 <= Field.x f
  /\ 0 <= Field.y f
  /\ Field.y f + Field.height f <= PageMeta.height pageMeta
  /\ Qmin MIN_FIELD_HEIGHT (PageMeta.height pageMeta) <= Field.height f
  /\ Field.height f <= MIN_FIELD_HEIGHT + 16
  /\ Field.confidence f = Some (6 # 10).

(** The left edge of a run's rectangle in display space. *)
Definition leftEdge (rect : Q * Q * Q * Q) : Q :=
  let '(x1, _, x2, _) := rect in Qmin x1 x2.

(** What holds of the width when the run starts left of the right edge of
    the page, and when it leaves room for the minimum width. *)
Definition widthFits (pageMeta : PageMeta.t) (left : Q) (f : Field.t) : Prop :=
  (1 <= PageMeta.width pageMeta -> left < PageMeta.width pageMeta ->
   Field.x f + Field.width f <= PageMeta.width pageMeta)
  /\ (MIN_FIELD_WIDTH <= PageMeta.width pageMeta ->
      left <= PageMeta.width pageMeta - MIN_FIELD_WIDTH ->
      MIN_FIELD_WIDTH <= Field.width f).

(** The field comes from a run of at least [MIN_UNDERSCORE_RUN] underscores
    of a text item of the page: the run is measured, the page's viewport
    maps its rectangle to display space, and [placeRun] gives the field's
    rectangle. *)
Definition fromRun (sqrt : Q -> Q) (page : PDFPageProxy) (pageMeta : PageMeta.t)
    (f : Field.t) : Prop :=
  exists item start len source,
    In (Text item) (items page)
    /\ In (start, len) (matchAll (str item))
    /\ (MIN_UNDERSCORE_RUN <= len)%nat
    /\ sourceRect (itemContext sqrt item) start len = Some source
    /\ Field.rect f
       = placeRun pageMeta (fontHeight (itemContext sqrt item))
           (convertToViewportRectangle page (PageMeta.scale pageMeta) source)
    /\ widthFits pageMeta
         (leftEdge (convertToViewportRectangle page (PageMeta.scale pageMeta) source)) f.

Definition detectedOn (sqrt : Q -> Q) (page : PDFPageProxy) (pageMeta : PageMeta.t)
    (f : Field.t) : Prop :=
  withinPage pageMeta f /\ fromRun sqrt page pageMeta f.

(** What [processMatch] appends: a field with this rectangle, for a run of
    at least [MIN_UNDERSCORE_RUN] underscores that is measured. *)
Definition appended (sqrt : Q -> Q) (page : PDFPageProxy) (pageMeta : PageMeta.t) (P : Field.t -> Prop)
    : Prop :=
  forall item start len source x y w h i n,
    In (Text item) (items page) ->
    In (start, len) (matchAll (str item)) ->
    (MIN_UNDERSCORE_RUN <= len)%nat ->
    sourceRect (itemContext sqrt item) start len = Some source ->
    placeRun pageMeta (fontHeight (itemContext sqrt item))
      (convertToViewportRectangle page (PageMeta.scale pageMeta) source) = (x, y, w, h) ->
    P {| Field.id := i; Field.pageIndex := PageMeta.index pageMeta;
         Field.x := x; Field.y := y; Field.width := w; Field.height := h;
         Field.multiline := false; Field.confidence := Some (6 # 10);
         Field.name := n; Field.placeholder := None |}.

(** The runs of a page that are long enough to become fields. *)
Definition isLong (m : nat * nat) : bool := (MIN_UNDERSCORE_RUN <=? snd m)%nat.

Definition longRunsOf (item : ContentItem) : list (nat * nat) :=
  match item with
  | Text item => List.filter isLong (matchAll (str item))
  | MarkedContent => []
  end.

Definition longRuns (page : PDFPageProxy) : list (nat * nat) :=
  flat_map longRunsOf (items page).

(** Every text item of the page has a positive width. *)
Definition positiveItems (page : PDFPageProxy) : Prop :=
  forall item, In (Text item) (items page) -> exists w, width item = Some w /\ 0 < w.

(** [n] underscores from offset [s], with no underscore just before or
    just after. *)
Definition maximalRun (chars : list ascii) (s n : nat) : Prop :=
  (forall i, (s <= i < s + n)%nat -> chars !! i = Some "_"%char)
  /\ (forall j, S j = s -> chars !! j <> Some "_"%char)
  /\ chars !! (s + n)%nat <> Some "_"%char.

(** The pending underscores: the last [run] characters before [pos]. *)
Definition pending (pre : list ascii) (run : nat) : Prop :=
  (run <= length pre)%nat
  /\ (forall i, (length pre - run <= i < length pre)%nat -> pre !! i = Some "_"%char)
  /\ (forall j, S j = (length pre - run)%nat -> pre !! j <> Some "_"%char).

(** The loop state of a page: the counter is the number of fields, and
    the field at position [i] carries the name of number [i + 1]. *)
Definition wellNamed (pageMeta : PageMeta.t) (st : list Field.t * nat) : Prop :=
  snd st = length (fst st)
  /\ forall i f, fst st !! i = Some f -> Field.name f = fieldName pageMeta (S i).

Definition positivePage (pageMeta : PageMeta.t) : Prop :=
  0 < PageMeta.width pageMeta /\ 0 < PageMeta.height pageMeta.

(** The Field invariants of the data model with the editor's minimum
    sizes, 80 and 22. *)
Definition editorInvariants (pageMeta : PageMeta.t) (f : Field.t) : Prop :=
  0 <= Field.x f /\ 0 <= Field.y f
  /\ Field.x f + Field.width f <= PageMeta.width pageMeta
  /\ Field.y f + Field.height f <= PageMeta.height pageMeta
  /\ 80 <= Field.width f /\ 22 <= Field.height f
  /\ Field.confidence f = Some (6 # 10).
End DetectionSpec.

Module DetectionExamples.
Import Detection.
Local Open Scope Q_scope.

(** A4 at scale 1. *)
Definition a4 : PageMeta.t :=
  {| PageMeta.index := 0%nat; PageMeta.width := 595; PageMeta.height := 842;
     PageMeta.originalWidth := 595; PageMeta.originalHeight := 842;
     PageMeta.scale := 1 |}.

(** Ten underscores, 3 units each, set in 12-unit type at (100, 500). *)
Definition blank : TextItem :=
  {| str := "__________"; width := Some 30;
     transform := (12, 0, 0, 12, 100, 500); dir := "ltr"; glyphs := None |}.

Definition blankPage : PDFPageProxy :=
  {| items := [Text blank]; convertToViewportRectangle := plainViewport 842 |}.

(** The same ten underscores set at x = 600, 5 units right of the right
    edge of an A4 page. *)
Definition inMargin : TextItem :=
  {| str := "__________"; width := Some 30;
     transform := (12, 0, 0, 12, 600, 500); dir := "ltr"; glyphs := None |}.

Definition marginPage : PDFPageProxy :=
  {| items := [Text inMargin]; convertToViewportRectangle := plainViewport 842 |}.

(** One item with runs of 10 and 4 underscores. *)
Definition nameAndDate (w : option Q) : TextItem :=
  {| str := "Name: __________ Date: ____"; width := w;
     transform := (12, 0, 0, 12, 72, 700); dir := "ltr"; glyphs := None |}.

Definition formPage (w : option Q) : PDFPageProxy :=
  {| items := [Text (nameAndDate w)]; convertToViewportRectangle := plainViewport 842 |}.

Definition ids (k : nat) : string := "id" +:+ pretty k.
End DetectionExamples.

(* ===================================================================== *)
(** ** Predicates and sample data used by the statements about the store  *)
(* ===================================================================== *)

(** Every updater of the store is a [withFields] of the document it gets. *)
Definition keepsRecord (updater : PdfDocumentRecord.t -> PdfDocumentRecord.t) : Prop :=
  forall document, PdfDocumentRecord.id (updater document) = PdfDocumentRecord.id document.

Module StoreExamples.
Definition manual : Field.t :=
  {| Field.id := "m1"; Field.pageIndex := 0; Field.x := 100; Field.y := 100;
     Field.width := 150; Field.height := 24; Field.multiline := false;
     Field.confidence := None; Field.name := "page1_manual_1";
     Field.placeholder := None |}.

Definition detected : Field.t :=
  {| Field.id := "d1"; Field.pageIndex := 0; Field.x := 105; Field.y := 103;
     Field.width := 150; Field.height := 24; Field.multiline := false;
     Field.confidence := Some (6 # 10); Field.name := "page1_field_1";
     Field.placeholder := None |}.

Definition emptyDoc (i : string) : PdfDocumentRecord.t :=
  {| PdfDocumentRecord.id := i; PdfDocumentRecord.fileName := "a.pdf";
     PdfDocumentRecord.pdfDoc := 0; PdfDocumentRecord.documentData := [];
     PdfDocumentRecord.pages := []; PdfDocumentRecord.fields := [];
     PdfDocumentRecord.selectedFieldId := None |}.

(** Two documents; the first holds the manual field. *)
Definition twoDocs : Store.PdfState :=
  Store.addField "A" manual
    (Store.addDocument (emptyDoc "B") (Store.addDocument (emptyDoc "A") Store.initial)).
End StoreExamples.

(** [selectedFieldId] is absent or names a field of the same document. *)
Definition selectionValid (document : PdfDocumentRecord.t) : Prop :=
  match PdfDocumentRecord.selectedFieldId document with
  | None => True
  | Some i => exists f, In f (PdfDocumentRecord.fields document) /\ Field.id f = i
  end.

Definition storeSelectionValid (s : Store.PdfState) : Prop :=
  forall document, In document (Store.documents s) -> selectionValid document.

(** The calls under which the store keeps [selectedFieldId] valid: an added
    document is valid itself, an update patch carries no [id] key, and
    [selectField] is given no id or the id of a field of every targeted
    document. *)
Definition admissible (s : Store.PdfState) (o : Store.op) : Prop :=
  match o with
  | Store.AddDocument entry => selectionValid entry
  | Store.UpdateField _ _ updates => Field.p_id updates = None
  | Store.SelectField d (Some i) =>
      forall document, In document (Store.documents s) ->
        PdfDocumentRecord.id document = d ->
        exists f, In f (PdfDocumentRecord.fields document) /\ Field.id f = i
  | _ => True
  end.

Inductive reachableAdmissible : Store.PdfState -> Prop :=
| ra_initial : reachableAdmissible Store.initial
| ra_step o s : reachableAdmissible s -> admissible s o ->
                reachableAdmissible (Store.apply o s).

Module SelectionExamples.
(** addDocument, then selectField with an id no field has. *)
Definition dangling : Store.PdfState :=
  Store.apply (Store.SelectField "A" (Some "ghost"))
    (Store.apply (Store.AddDocument (StoreExamples.emptyDoc "A")) Store.initial).
End SelectionExamples.




Module MergeExamples.
(** Two fields on page 0 whose left edges are the doubles 1 + 2^-52 and 11,
    an exact distance of 10 - 2^-52 apart. *)
Definition placed (i : string) (x : Q) : Field.t :=
  {| Field.id := i; Field.pageIndex := 0; Field.x := x; Field.y := 100;
     Field.width := 150; Field.height := 24; Field.multiline := false;
     Field.confidence := None; Field.name := i; Field.placeholder := None |}.

End MergeExamples.

(* ===================================================================== *)
(** ** Layout of the archive, as the format describes it                  *)
(* ===================================================================== *)

(** CRC-32 bit by bit: the reflected polynomial 0xEDB88320, initial value
    and final XOR 0xFFFFFFFF, on unsigned integers. *)
Module CrcSpec.
Local Open Scope Z_scope.

Definition crcBit (crc : Z) : Z :=
  if Z.testbit crc 0 then Z.lxor (Z.shiftr crc 1) 0xEDB88320 else Z.shiftr crc 1.

Definition crcByte (crc : Z) (b : byte) : Z :=
  Nat.iter 8 crcBit (Z.lxor crc (Zip.byteZ b)).

Definition crc32Spec (data : bytes) : Z :=
  Z.lxor (fold_left crcByte data 0xFFFFFFFF) 0xFFFFFFFF.
End CrcSpec.

Module ZipLayout.
Import Zip.

(** The unsigned integer a little-endian byte sequence stands for. *)
Definition fromLe (bs : bytes) : Z :=
  fold_right (fun b acc => (byteZ b + 256 * acc)%Z) 0%Z bs.

(** [len] bytes of [blob] from offset [off]. *)
Definition slice (off len : nat) (blob : bytes) : bytes :=
  take len (drop off blob).

(** A writer that succeeds wherever there is room, stores [out] at the
    pointer and moves the pointer past it. *)
Definition emits (w : writer) (out : bytes) : Prop :=
  forall buffer pointer,
    pointer + length out <= length buffer ->
    w (buffer, pointer)
    = Some (take pointer buffer ++ out ++ drop (pointer + length out) buffer,
            pointer + length out).

(** The 30-byte local file header with the name and the data. *)
Definition localRecord (entry : EntryMeta) : bytes :=
  le32 0x04034b50 ++ le16 20 ++ le16 0 ++ le16 0
  ++ le16 (and32 (dosTime entry) 0xffff) ++ le16 (and32 (dosDate entry) 0xffff)
  ++ le32 (ushr32 (crc32 entry) 0)
  ++ le32 (ushr32 (Z.of_nat (length (m_data entry))) 0)
  ++ le32 (ushr32 (Z.of_nat (length (m_data entry))) 0)
  ++ le16 (and32 (Z.of_nat (length (nameBytes entry))) 0xffff) ++ le16 0
  ++ nameBytes entry ++ m_data entry.

(** The 46-byte central-directory record with the name. *)
Definition centralRecord (entry : EntryMeta) : bytes :=
  le32 0x02014b50 ++ le16 20 ++ le16 20 ++ le16 0 ++ le16 0
  ++ le16 (and32 (dosTime entry) 0xffff) ++ le16 (and32 (dosDate entry) 0xffff)
  ++ le32 (ushr32 (crc32 entry) 0)
  ++ le32 (ushr32 (Z.of_nat (length (m_data entry))) 0)
  ++ le32 (ushr32 (Z.of_nat (length (m_data entry))) 0)
  ++ le16 (and32 (Z.of_nat (length (nameBytes entry))) 0xffff)
  ++ le16 0 ++ le16 0 ++ le16 0 ++ le16 0 ++ le32 0
  ++ le32 (ushr32 (Z.of_nat (localHeaderOffset entry)) 0)
  ++ nameBytes entry.

(** The 22-byte end-of-central-directory record. *)
Definition endRecord (count size offset : nat) : bytes :=
  le32 0x06054b50 ++ le16 0 ++ le16 0
  ++ le16 (and32 (Z.of_nat count) 0xffff) ++ le16 (and32 (Z.of_nat count) 0xffff)
  ++ le32 (ushr32 (Z.of_nat size) 0) ++ le32 (ushr32 (Z.of_nat offset) 0)
  ++ le16 0.

Definition archive (metadata : list EntryMeta) : bytes :=
  let locals := concat (List.map localRecord metadata) in
  let centrals := concat (List.map centralRecord metadata) in
  locals ++ centrals ++ endRecord (length metadata) (length centrals) (length locals).

(** The metadata after both passes, in closed form: [ticks] clock readings
    used so far, [offset] bytes of local records before this entry. *)
Fixpoint resolved (encode : string -> bytes) (clock : nat -> Date)
    (ticks offset : nat) (files : list ZipEntry) : list EntryMeta :=
  match files with
  | [] => []
  | file :: rest =>
      let stamp := default (clock ticks) (date file) in
      let ticks' := match date file with Some _ => ticks | None => S ticks end in
      {| m_name := name file; nameBytes := encode (name file); m_data := data file;
         crc32 := computeCrc32 (data file);
         dosTime := fst (toDosDate stamp); dosDate := snd (toDosDate stamp);
         localHeaderLength := 30 + length (encode (name file));
         centralHeaderLength := 46 + length (encode (name file));
         localHeaderOffset := offset |}
      :: resolved encode clock ticks'
           (offset + (30 + length (encode (name file)) + length (data file))) rest
  end.

(** Sizes in terms of the input entries. *)
Definition localSize (encode : string -> bytes) (file : ZipEntry) : nat :=
  30 + length (encode (name file)) + length (data file).
Definition centralSize (encode : string -> bytes) (file : ZipEntry) : nat :=
  46 + length (encode (name file)).
Definition sumOf {A} (f : A -> nat) (xs : list A) : nat :=
  fold_right (fun x acc => f x + acc) 0 xs.

(** Where the local header and the central record of entry [i] start. *)
Definition localStart (encode : string -> bytes) (files : list ZipEntry) (i : nat) : nat :=
  sumOf (localSize encode) (take i files).
Definition centralStart (encode : string -> bytes) (files : list ZipEntry) (i : nat) : nat :=
  sumOf (localSize encode) files + sumOf (centralSize encode) (take i files).

(** How many entries take their timestamp from the clock. *)
Definition undated (files : list ZipEntry) : nat :=
  length (List.filter (fun file => match date file with Some _ => false | None => true end)
                      files).
End ZipLayout.

Module ZipExamples.
Import Zip.

Definition noon : Date :=
  {| getFullYear := 2024; getMonth := 0; getDate := 15;
     getHours := 12; getMinutes := 30; getSeconds := 10 |}.
Definition midnight : Date :=
  {| getFullYear := 1999; getMonth := 11; getDate := 31;
     getHours := 0; getMinutes := 0; getSeconds := 0 |}.

Definition atNoon : nat -> Date := fun _ => noon.
Definition atMidnight : nat -> Date := fun _ => midnight.

Definition aPdf : ZipEntry :=
  {| name := "a.pdf"; data := ["001"; "002"; "003"]%byte; date := Some noon |}.

(** The entry of the size scenario: no [date], so the clock is read. *)
Definition aPdfUndated : ZipEntry :=
  {| name := "a.pdf"; data := ["001"; "002"; "003"]%byte; date := None |}.

Definition emptyEntry : ZipEntry :=
  {| name := ""; data := []; date := Some noon |}.

(** 65536 entries: one more than a 16-bit count can hold. *)
Definition tooMany : list ZipEntry := repeat emptyEntry (Z.to_nat 65536).

(** The bytes of the ASCII string "123456789". *)
Definition checkInput : bytes := list_byte_of_string "123456789".
End ZipExamples.

(* ===================================================================== *)
(** ** The field editor ([App]: FieldOverlay, handleAddFieldAt, FieldList) *)
(* ===================================================================== *)

Module Editor.
Import PdfDocumentRecord.
Local Open Scope Q_scope.

(** [Math.min(Math.max(value, min), max)] *)
Definition clamp (value min max : Q) : Q := Qmin (Qmax value min) max.

(** [target.dataset.handle]: one of the four corner handles; the body of
    the overlay has none. *)
Inductive Handle := nw | ne | sw | se.

Definition letters (handle : Handle) : string :=
  match handle with nw => "nw" | ne => "ne" | sw => "sw" | se => "se" end.

(** [handle.includes(c)] *)
Definition includes (handle : Handle) (c : ascii) : bool :=
  existsb (Ascii.eqb c) (list_ascii_of_string (letters handle)).

(** The [origin] that [startInteraction] records: the pointer and the
    rectangle of the field when the pointer goes down. *)
Record Origin := mkOrigin {
  pointerX : Q;
  pointerY : Q;
  o_x : Q;
  o_y : Q;
  o_width : Q;
  o_height : Q;
}.

Definition startInteraction (clientX clientY : Q) (field : Field.t) : Origin :=
  {| pointerX := clientX; pointerY := clientY;
     o_x := Field.x field; o_y := Field.y field;
     o_width := Field.width field; o_height := Field.height field |}.

(** [{ ...next, y: newY, height: h }] and [{ ...next, x: newX, width: w }] *)
Definition withVertical (next : Origin) (newY h : Q) : Origin :=
  {| pointerX := pointerX next; pointerY := pointerY next;
     o_x := o_x next; o_y := newY; o_width := o_width next; o_height := h |}.
Definition withHorizontal (next : Origin) (newX w : Q) : Origin :=
  {| pointerX := pointerX next; pointerY := pointerY next;
     o_x := newX; o_y := o_y next; o_width := w; o_height := o_height next |}.

(** The patches handed to [onUpdate]: [{ x, y }] and
    [{ x, y, width, height }]. *)
Definition position (x y : Q) : Field.partial :=
  {| Field.p_id := None; Field.p_pageIndex := None;
     Field.p_x := Some x; Field.p_y := Some y;
     Field.p_width := None; Field.p_height := None;
     Field.p_multiline := None; Field.p_confidence := None;
     Field.p_name := None; Field.p_placeholder := None |}.
Definition box (x y width height : Q) : Field.partial :=
  {| Field.p_id := None; Field.p_pageIndex := None;
     Field.p_x := Some x; Field.p_y := Some y;
     Field.p_width := Some width; Field.p_height := Some height;
     Field.p_multiline := None; Field.p_confidence := None;
     Field.p_name := None; Field.p_placeholder := None |}.

(** The patch [onPointerMove] hands to [onUpdate] for a pointer at
    [(clientX, clientY)]. *)
Definition onPointerMove (origin : Origin) (handle : option Handle)
    (pageMeta : PageMeta.t) (clientX clientY : Q) : Field.partial :=
  let dx := clientX - pointerX origin in
  let dy := clientY - pointerY origin in
  match handle with
  | None =>
      let nextX := clamp (o_x origin + dx) 0 (PageMeta.width pageMeta - o_width origin) in
      let nextY := clamp (o_y origin + dy) 0 (PageMeta.height pageMeta - o_height origin) in
      position nextX nextY
  | Some handle =>
      let next := origin in
      let next :=
        if includes handle "n" then
          let newY := clamp (o_y origin + dy) 0
                        (o_y origin + o_height origin - App.MIN_FIELD_HEIGHT) in
          let heightDelta := o_y origin - newY in
          withVertical next newY
            (clamp (o_height origin + heightDelta) App.MIN_FIELD_HEIGHT
               (PageMeta.height pageMeta))
        else next in
      let next :=
        if includes handle "s" then
          let maxHeight := PageMeta.height pageMeta - o_y origin in
          let newHeight := clamp (o_height origin + dy) App.MIN_FIELD_HEIGHT maxHeight in
          withVertical next (o_y next) newHeight
        else next in
      let next :=
        if includes handle "w" then
          let newX := clamp (o_x origin + dx) 0
                        (o_x origin + o_width origin - App.MIN_FIELD_WIDTH) in
          let widthDelta := o_x origin - newX in
          withHorizontal next newX
            (clamp (o_width origin + widthDelta) App.MIN_FIELD_WIDTH
               (PageMeta.width pageMeta))
        else next in
      let next :=
        if includes handle "e" then
          let maxWidth := PageMeta.width pageMeta - o_x origin in
          let newWidth := clamp (o_width origin + dx) App.MIN_FIELD_WIDTH maxWidth in
          withHorizontal next (o_x next) newWidth
        else next in
      let boundedX := clamp (o_x next) 0 (PageMeta.width pageMeta - o_width next) in
      let boundedY := clamp (o_y next) 0 (PageMeta.height pageMeta - o_height next) in
      box boundedX boundedY
        (Qmin (o_width next) (PageMeta.width pageMeta - boundedX))
        (Qmin (o_height next) (PageMeta.height pageMeta - boundedY))
  end.

(** One gesture on the overlay of [field]: the pointer goes down
    ([onSelect]), then every move of the pointer reaches the store through
    [onUpdate], which is [updateField] on the active document. *)
Definition gesture (documentId : string) (field : Field.t) (handle : option Handle)
    (pageMeta : PageMeta.t) (down : Q * Q) (moves : list (Q * Q))
    (state : Store.PdfState) : Store.PdfState :=
  let origin := startInteraction (fst down) (snd down) field in
  fold_left
    (fun s move =>
       Store.updateField documentId (Field.id field)
         (onPointerMove origin handle pageMeta (fst move) (snd move)) s)
    moves
    (Store.selectField documentId (Some (Field.id field)) state).

(** [documents.find((document) => document.id === activeDocumentId)] *)
Definition activeDocument (state : Store.PdfState) : option PdfDocumentRecord.t :=
  match Store.activeDocumentId state with
  | None => None
  | Some a => List.find (fun document => String.eqb (id document) a) (Store.documents state)
  end.

(** [`page${pageIndex + 1}_manual_${perPageCount}`] *)
Definition manualName (pageIndex perPageCount : nat) : string :=
  "page" +:+ pretty (pageIndex + 1)%nat +:+ "_manual_" +:+ pretty perPageCount.

(** [fieldId] is what [generateFieldId()] returns. *)
Definition handleAddFieldAt (fieldId : string) (pageIndex : nat) (rawX rawY : Q)
    (state : Store.PdfState) : Store.PdfState :=
  match activeDocument state with
  | None => state
  | Some activeDocument =>
      match List.find (fun meta => Nat.eqb (PageMeta.index meta) pageIndex)
                      (pages activeDocument) with
      | None => state
      | Some pageMeta =>
          let width := 150 in
          let height := 24 in
          let x := clamp rawX 0 (PageMeta.width pageMeta - width) in
          let y := clamp rawY 0 (PageMeta.height pageMeta - height) in
          let perPageCount :=
            (length (List.filter (fun field => Nat.eqb (Field.pageIndex field) pageIndex)
                                 (fields activeDocument)) + 1)%nat in
          Store.addField (id activeDocument)
            {| Field.id := fieldId; Field.pageIndex := pageIndex;
               Field.x := x; Field.y := y; Field.width := width; Field.height := height;
               Field.multiline := false; Field.confidence := None;
               Field.name := manualName pageIndex perPageCount;
               Field.placeholder := None |}
            state
      end
  end.

(** *** The name input of [FieldList] *)

(** White space and line terminators among the code units below 256. *)
Definition isSpace (c : ascii) : bool :=
  let n := nat_of_ascii c in
  ((9 <=? n) && (n <=? 13) || (n =? 32) || (n =? 160))%nat.

Fixpoint trimStart (chars : list ascii) : list ascii :=
  match chars with
  | c :: rest => if isSpace c then trimStart rest else chars
  | [] => []
  end.

(** [value.trim()] *)
Definition trim (value : string) : string :=
  string_of_list_ascii
    (rev (trimStart (rev (trimStart (list_ascii_of_string value))))).

(** [s.slice(-n)] *)
Definition sliceLast (n : nat) (s : string) : string :=
  string_of_list_ascii
    (drop (String.length s - n) (list_ascii_of_string s)).

(** The name [onBlur] commits for the text [value] of the input. *)
Definition committedName (field : Field.t) (value : string) : string :=
  let value := trim value in
  let fallback :=
    "page" +:+ pretty (Field.pageIndex field + 1)%nat +:+ "_field_"
    +:+ sliceLast 4 (Field.id field) in
  if (0 <? String.length value)%nat then value else fallback.
End Editor.

Module EditorSpec.
Local Open Scope Q_scope.

(** The rectangle lies on the page. *)
Definition onPage (pageMeta : PageMeta.t) (f : Field.t) : Prop :=
  0 <= Field.x f /\ 0 <= Field.y f
  /\ Field.x f + Field.width f <= PageMeta.width pageMeta
  /\ Field.y f + Field.height f <= PageMeta.height pageMeta.

(** The rectangle lies on the page and has the editor's minimum size. *)
Definition wellSized (pageMeta : PageMeta.t) (f : Field.t) : Prop :=
  onPage pageMeta f
  /\ App.MIN_FIELD_WIDTH <= Field.width f /\ App.MIN_FIELD_HEIGHT <= Field.height f.

(** The right and the bottom edge. *)
Definition right (f : Field.t) : Q := Field.x f + Field.width f.
End EditorSpec.

Module EditorExamples.
(** One document with one A4 page and no field, active. *)
Definition sheet : PdfDocumentRecord.t :=
  {| PdfDocumentRecord.id := "A"; PdfDocumentRecord.fileName := "form.pdf";
     PdfDocumentRecord.pdfDoc := 0; PdfDocumentRecord.documentData := [];
     PdfDocumentRecord.pages := [DetectionExamples.a4];
     PdfDocumentRecord.fields := [];
     PdfDocumentRecord.selectedFieldId := None |}.

Definition opened : Store.PdfState := Store.addDocument sheet Store.initial.
End EditorExamples.

(* ===================================================================== *)
(** ** More predicates on the store                                       *)
(* ===================================================================== *)

(** The active id and the list of document ids go together: no id is
    active in an empty store, and an active id is the id of a stored
    document. *)
Definition activeTracked (s : Store.PdfState) : Prop :=
  match Store.activeDocumentId s with
  | None => Store.documents s = []
  | Some a => In a (List.map PdfDocumentRecord.id (Store.documents s))
  end.

(* ===================================================================== *)
(** ** Predicates on glyph metrics                                        *)
(* ===================================================================== *)

Module GlyphSpec.
Import Detection.
Local Open Scope Q_scope.

(** The segments follow one another from offset [cursor], each at least
    one code unit long. *)
Fixpoint tiled (cursor : nat) (segs : list GlyphSegment) : Prop :=
  match segs with
  | [] => True
  | seg :: rest =>
      seg_start seg = cursor /\ (seg_start seg < seg_end seg)%nat
      /\ tiled (seg_end seg) rest
  end.

(** The offset where the segments end. *)
Definition endOf (cursor : nat) (segs : list GlyphSegment) : nat :=
  fold_left (fun _ seg => seg_end seg) segs cursor.

Definition sumWidths (segs : list GlyphSegment) : Q :=
  fold_right (fun seg acc => seg_width seg + acc) 0 segs.

(** The share of a segment's width that lies before offset [n]: the width
    is spread evenly over the code units of the segment. *)
Definition covered (seg : GlyphSegment) (n : nat) : Q :=
  seg_width seg
  * Qofnat (Nat.min (seg_end seg) n - Nat.min (seg_start seg) n)
  / Qofnat (seg_end seg - seg_start seg).

(** The advance of the text before offset [n], in glyph units. *)
Definition advance (segs : list GlyphSegment) (n : nat) : Q :=
  fold_right (fun seg acc => covered seg n + acc) 0 segs.

(** Every glyph width is a non-negative number. *)
Definition nonNegative (item : TextItem) : Prop :=
  forall gs g w, glyphs item = Some gs -> In (Some g) gs ->
                 glyph_width g = Some w -> 0 <= w.
End GlyphSpec.

Module GlyphExamples.
Import Detection.
Local Open Scope Q_scope.

Definition glyph (u : string) (w : Q) : option Glyph :=
  Some {| unicode := Some u; glyph_width := Some w |}.

(** "ab__________" set with two letters of 500 units and ten underscores
    of 250 units; the item is 35 wide. *)
Definition labelled : TextItem :=
  {| str := "ab__________"; width := Some 35;
     transform := (12, 0, 0, 12, 100, 500); dir := "ltr";
     glyphs := Some (glyph "a" 500 :: glyph "b" 500 :: repeat (glyph "_" 250) 10) |}.
End GlyphExamples.

Module DetectionShape.
(** The field at position [i] carries the id drawn at number
    [drawn + i]. *)
Definition idsFrom (makeId : nat -> string) (drawn : nat) (fs : list Field.t) : Prop :=
  forall i f, fs !! i = Some f -> Field.id f = makeId (drawn + i)%nat.

(** What every detected field of a page carries besides its rectangle,
    its id and its name. *)
Definition stamped (pageMeta : PageMeta.t) (f : Field.t) : Prop :=
  Field.pageIndex f = PageMeta.index pageMeta
  /\ Field.multiline f = false
  /\ Field.placeholder f = None
  /\ Field.confidence f = Some (6 # 10)%Q.
End DetectionShape.

(* ===================================================================== *)
(** ** Auto-detection over the store ([App]: handleAutoDetect)            *)
(* ===================================================================== *)

Module AutoDetect.
Import PdfDocumentRecord.

Definition failed : string :=
  "Auto-detect failed on one or more documents. You can still add fields manually.".

Section WithEnvironment.
Variable sqrt : Q -> Q.
(** [makeId n k]: the [k]-th id drawn while document number [n] of the
    snapshot is processed. *)
Variable makeId : nat -> nat -> string.
(** The pages behind a pdf.js document proxy. *)
Variable pdfjs : nat -> list Detection.PDFPageProxy.

(** One round of [for (const document of snapshot)]; the state is the
    store and the error message.  A rejected [detectFields] is caught. *)
Definition detectDocument (round : nat) (st : Store.PdfState * option string)
    (document : PdfDocumentRecord.t) : Store.PdfState * option string :=
  let '(state, error) := st in
  match Detection.detectFields sqrt (makeId round) (pdfjs (pdfDoc document))
                               (pages document) with
  | Some detected => (Store.mergeFields (id document) detected state, error)
  | None => (state, Some failed)
  end.

Fixpoint detectAll (round : nat) (snapshot : list PdfDocumentRecord.t)
    (st : Store.PdfState * option string) : Store.PdfState * option string :=
  match snapshot with
  | [] => st
  | document :: rest => detectAll (S round) rest (detectDocument round st document)
  end.

(** The store and the error message after the handler, from those before
    it. *)
Definition handleAutoDetect (state : Store.PdfState) (error : option string)
    : Store.PdfState * option string :=
  let snapshot := Store.documents state in
  if (length snapshot =? 0)%nat then (state, error)
  else detectAll 0 snapshot (state, None).
End WithEnvironment.
End AutoDetect.

Module AutoDetectSpec.
Import PdfDocumentRecord.

(** Two fields on the same page with the same rectangle. *)
Definition sameBox (f g : Field.t) : Prop :=
  Field.pageIndex f = Field.pageIndex g /\ Field.rect f = Field.rect g.

(** Every page of the document's metadata is a page of its proxy. *)
Definition readable (pdfjs : nat -> list Detection.PDFPageProxy)
    (document : PdfDocumentRecord.t) : Prop :=
  Forall (fun meta => PageMeta.index meta < length (pdfjs (pdfDoc document)))
         (pages document).

(** The document after its detected fields were merged in. *)
Definition merged (document : PdfDocumentRecord.t) (detected : list Field.t)
    : PdfDocumentRecord.t :=
  let combined := Store.mergeCombined (fields document) detected in
  Store.withFields document combined (Store.lastId combined).

(** The document is as it was, with fields added after those it had. *)
Definition extended (before after : PdfDocumentRecord.t) : Prop :=
  id after = id before /\ fileName after = fileName before
  /\ pdfDoc after = pdfDoc before /\ documentData after = documentData before
  /\ pages after = pages before
  /\ exists added, fields after = fields before ++ added.

(** The calls of [mergeFields] the handler makes: one for each document
    of the snapshot whose detection succeeds. *)
Fixpoint merges (sqrt : Q -> Q) (makeId : nat -> nat -> string)
    (pdfjs : nat -> list Detection.PDFPageProxy) (round : nat)
    (snapshot : list PdfDocumentRecord.t) : list (string * list Field.t) :=
  match snapshot with
  | [] => []
  | document :: rest =>
      match Detection.detectFields sqrt (makeId round) (pdfjs (pdfDoc document))
                                   (pages document) with
      | Some detected => [(id document, detected)]
      | None => []
      end ++ merges sqrt makeId pdfjs (S round) rest
  end.

(** What one call [mergeFields(m.1, m.2)] does to a document. *)
Definition mergedBy (document : PdfDocumentRecord.t) (m : string * list Field.t)
    : PdfDocumentRecord.t :=
  if String.eqb (id document) (fst m) then merged document (snd m) else document.


Definition run (ms : list (string * list Field.t)) (state : Store.PdfState)
    : Store.PdfState :=
  fold_left (fun st m => Store.mergeFields (fst m) (snd m) st) ms state.

End AutoDetectSpec.

Module AutoDetectExamples.
(** The proxy 0 is the one-page form of [DetectionExamples]; no other
    proxy has a page. *)
Definition pdfjs (handle : nat) : list Detection.PDFPageProxy :=
  match handle with
  | O => [DetectionExamples.blankPage]
  | _ => []
  end.

Definition ids (n k : nat) : string := "id" +:+ pretty n +:+ "-" +:+ pretty k.
Definition others (n k : nat) : string := "other" +:+ pretty n +:+ "-" +:+ pretty k.

(** A second document whose metadata names a page its proxy lacks. *)
Definition broken : PdfDocumentRecord.t :=
  {| PdfDocumentRecord.id := "B"; PdfDocumentRecord.fileName := "broken.pdf";
     PdfDocumentRecord.pdfDoc := 1; PdfDocumentRecord.documentData := [];
     PdfDocumentRecord.pages := [DetectionExamples.a4];
     PdfDocumentRecord.fields := [];
     PdfDocumentRecord.selectedFieldId := None |}.

Definition loaded : Store.PdfState :=
  Store.addDocument broken (Store.addDocument EditorExamples.sheet Store.initial).
End AutoDetectExamples.

(* ===================================================================== *)
(** ** Reading the archive back                                           *)
(* ===================================================================== *)

Module DosSpec.
Local Open Scope Z_scope.

(** The fields of an MS-DOS time, [(hours, minutes, seconds)]: 5 bits of
    hours, 6 of minutes, 5 of seconds halved. *)
Definition timeOf (t : Z) : Z * Z * Z :=
  (Z.shiftr t 11, Z.land (Z.shiftr t 5) 63, 2 * Z.land t 31).

(** The fields of an MS-DOS date, [(year, month, day)]: 7 bits of years
    since 1980, 4 of the month (from 1), 5 of the day. *)
Definition dateOf (d : Z) : Z * Z * Z :=
  (1980 + Z.shiftr d 9, Z.land (Z.shiftr d 5) 15, Z.land d 31).

(** What the getters of a [Date] object return. *)
Definition wellFormed (date : Zip.Date) : Prop :=
  0 <= Zip.getMonth date < 12 /\ 0 <= Zip.getDate date < 32
  /\ 0 <= Zip.getHours date < 24 /\ 0 <= Zip.getMinutes date < 60
  /\ 0 <= Zip.getSeconds date < 60.
End DosSpec.

Module WidgetExamples.
(** Two fields named "a" and one named "b". *)
Definition twice : PdfDocumentRecord.t :=
  AppExamples.docWith "form.pdf"
    [AppExamples.named "1" "a"; AppExamples.named "2" "a"; AppExamples.named "3" "b"].
End WidgetExamples.

(* ===================================================================== *)
(** ** Loading files ([App]: ingestFiles, processDroppedFiles)            *)
(* ===================================================================== *)

Module Ingest.
(** A [File] of the browser: its name, its MIME type and its bytes. *)
Record File := mkFile {
  file_name : string;
  file_type : string;
  file_bytes : bytes;
}.

Section WithEnvironment.
(** [name.toLowerCase().endsWith('.pdf')] *)
Variable endsWithPdf : string -> bool.
(** pdf.js: [getDocument] and, for every page, the size of its viewport at
    a given scale; [None] when the promise is rejected or a page cannot be
    read.  The first component is the handle of the document proxy. *)
Variable getDocument : bytes -> option (nat * list (Q -> Q * Q)).
(** [generateDocumentId]: the [k]-th id drawn. *)
Variable generateDocumentId : nat -> string.

(** The entry of [metas] for one page. *)
Definition pageMeta (pageIndex : nat) (viewport : Q -> Q * Q) : PageMeta.t :=
  let scale := (125 # 100)%Q in
  {| PageMeta.index := pageIndex;
     PageMeta.width := fst (viewport scale);
     PageMeta.height := snd (viewport scale);
     PageMeta.originalWidth := fst (viewport 1%Q);
     PageMeta.originalHeight := snd (viewport 1%Q);
     PageMeta.scale := scale |}.

(** One round of [for (const file of files)]; the state is the store, the
    error message and the number of ids drawn. *)
Definition ingestFile (st : Store.PdfState * option string * nat) (file : File)
    : Store.PdfState * option string * nat :=
  let '(state, error, drawn) := st in
  if negb (endsWithPdf (file_name file)) then
    (state, Some "Please upload PDF documents (.pdf).", drawn)          (* continue *)
  else
    match getDocument (file_bytes file) with
    | Some (doc, viewports) =>
        (Store.addDocument
           {| PdfDocumentRecord.id := generateDocumentId drawn;
              PdfDocumentRecord.fileName := file_name file;
              PdfDocumentRecord.pdfDoc := doc;
              PdfDocumentRecord.documentData := file_bytes file;
              PdfDocumentRecord.pages := imap pageMeta viewports;
              PdfDocumentRecord.fields := [];
              PdfDocumentRecord.selectedFieldId := None |}
           state,
         error, S drawn)
    | None =>
        (state,
         Some ("Failed to read " +:+ file_name file
               +:+ ". Make sure the file is not corrupted."),
         drawn)
    end.

Definition ingestFiles (files : list File) (st : Store.PdfState * option string * nat)
    : Store.PdfState * option string * nat :=
  let '(state, error, drawn) := st in
  if (length files =? 0)%nat then st
  else fold_left ingestFile files (state, None, drawn).

(** [files] is [None] for [null] or [undefined]. *)
Definition processDroppedFiles (files : option (list File))
    (st : Store.PdfState * option string * nat)
    : Store.PdfState * option string * nat :=
  let '(state, error, drawn) := st in
  match files with
  | None | Some [] => (state, Some "No file detected. Try dropping PDF files.", drawn)
  | Some files =>
      let pdfFiles :=
        List.filter (fun file => String.eqb (file_type file) "application/pdf"
                                 || endsWithPdf (file_name file)) files in
      if (length pdfFiles =? 0)%nat
      then (state, Some "No PDFs found. Please drop PDF files.", drawn)
      else ingestFiles pdfFiles st
  end.
End WithEnvironment.
End Ingest.

Module IngestSpec.
Import PdfDocumentRecord.

(** The page at position [i] of the metadata carries the index [i]. *)
Definition indexed (pages : list PageMeta.t) : Prop :=
  forall i meta, pages !! i = Some meta -> PageMeta.index meta = i.

(** A document as [ingestFiles] adds it. *)
Definition blank (document : PdfDocumentRecord.t) : Prop :=
  fields document = [] /\ selectedFieldId document = None
  /\ indexed (pages document)
  /\ Forall (fun meta => PageMeta.scale meta = (125 # 100)%Q) (pages document).

(** Every field of the document is on one of its pages, so that
    [buildFillablePdf] gives it a widget. *)
Definition exportable (document : PdfDocumentRecord.t) : Prop :=
  indexed (pages document)
  /\ Forall (fun f => AppSpec.hasPage (pages document) f = true) (fields document).

(** The files that end up in the store. *)
Definition loads (endsWithPdf : string -> bool)
    (getDocument : bytes -> option (nat * list (Q -> Q * Q))) (file : Ingest.File) : bool :=
  endsWithPdf (Ingest.file_name file)
  && match getDocument (Ingest.file_bytes file) with Some _ => true | None => false end.
End IngestSpec.

Module IngestExamples.
(** A loader that reads every file as one A4 page. *)
Definition onePage (data : bytes) : option (nat * list (Q -> Q * Q)) :=
  Some (0%nat, [fun scale => (595 * scale, 842 * scale)%Q]).

(** The test on the name, for ASCII names in lower case. *)
Definition lowerPdf (name : string) : bool :=
  match rev (list_ascii_of_string name) with
  | "f"%char :: "d"%char :: "p"%char :: "."%char :: _ => true
  | _ => false
  end.

Definition docIds (k : nat) : string := "doc" +:+ pretty k.

Definition scan : Ingest.File :=
  {| Ingest.file_name := "scan"; Ingest.file_type := "application/pdf";
     Ingest.file_bytes := [] |}.
Definition form : Ingest.File :=
  {| Ingest.file_name := "form.pdf"; Ingest.file_type := "";
     Ingest.file_bytes := [] |}.
End IngestExamples.

(* ===================================================================== *)
(** * Number comparisons                                                  *)
(* ===================================================================== *)

Section NumberTests.
Local Open Scope Q_scope.

Lemma Qltb_lt (a b : Q) : Qltb a b = true <-> a < b.
Proof.
  unfold Qltb. rewrite negb_true_iff. split.
  - intros H. apply Qnot_le_lt. intros Hle. apply Qle_bool_iff in Hle. congruence.
  - intros H. destruct (Qle_bool b a) eqn:E; [|reflexivity].
    apply Qle_bool_iff in E. exfalso. exact (Qlt_not_le _ _ H E).
Qed.

Lemma Qltb_ge (a b : Q) : Qltb a b = false <-> b <= a.
Proof.
  unfold Qltb. rewrite negb_false_iff. apply Qle_bool_iff.
Qed.

Lemma Qneb_neq (a b : Q) : Qneb a b = true <-> ~ a == b.
Proof.
  unfold Qneb. rewrite negb_true_iff. split.
  - intros H He. apply Qeq_bool_iff in He. congruence.
  - intros H. destruct (Qeq_bool a b) eqn:E; [|reflexivity].
    apply Qeq_bool_iff in E. contradiction.
Qed.

Lemma Qneb_eq (a b : Q) : Qneb a b = false <-> a == b.
Proof. unfold Qneb. rewrite negb_false_iff. apply Qeq_bool_iff. Qed.

Lemma Qltb_reflect (a b : Q) : (Qltb a b = true /\ a < b) \/ (Qltb a b = false /\ b <= a).
Proof.
  destruct (Qltb a b) eqn:E; [left|right]; (split; [reflexivity|]).
  - apply Qltb_lt, E.
  - apply Qltb_ge, E.
Qed.

Lemma Qmin_cases (a b : Q) : (a <= b /\ Qmin a b == a) \/ (b <= a /\ Qmin a b == b).
Proof.
  destruct (Q.min_spec a b) as [[H E]|[H E]]; [left|right]; (split; [lra|exact E]).
Qed.

Lemma Qmax_cases (a b : Q) : (a <= b /\ Qmax a b == b) \/ (b <= a /\ Qmax a b == a).
Proof.
  destruct (Q.max_spec a b) as [[H E]|[H E]]; [left|right]; (split; [lra|exact E]).
Qed.
End NumberTests.

(** Case analysis on every number test, then on every [Qmin] and [Qmax] of
    the goal and of the facts so obtained. *)
Ltac known_value t :=
  match goal with _ : (t == _)%Q |- _ => idtac end.

Ltac test_cases :=
  repeat match goal with
    | |- context [Qltb ?a ?b] =>
        let Hb := fresh "Hb" in
        destruct (Qltb_reflect a b) as [[Hb ?]|[Hb ?]];
        rewrite Hb in *; clear Hb; cbv iota in *
    end.

Ltac minmax_cases :=
  repeat match goal with
    | |- context [Qmin ?a ?b] =>
        tryif known_value (Qmin a b) then fail
        else destruct (Qmin_cases a b) as [[? ?]|[? ?]]
    | |- context [Qmax ?a ?b] =>
        tryif known_value (Qmax a b) then fail
        else destruct (Qmax_cases a b) as [[? ?]|[? ?]]
    | _ : context [Qmin ?a ?b] |- _ =>
        tryif known_value (Qmin a b) then fail
        else destruct (Qmin_cases a b) as [[? ?]|[? ?]]
    | _ : context [Qmax ?a ?b] |- _ =>
        tryif known_value (Qmax a b) then fail
        else destruct (Qmax_cases a b) as [[? ?]|[? ?]]
    end.

Ltac number_cases := test_cases; minmax_cases.

(* ===================================================================== *)
(** * Rounding to doubles                                                 *)
(* ===================================================================== *)

Section Rounding.
Import Number.
Local Open Scope Q_scope.








(** Sample roundings: 0.1; the ties 2^53 + 1 and 2^53 + 3, which go to the
    even significand; and 10 - 2^-52, which goes up to 10. *)
Example toDouble_samples :
  toDouble (1 # 10) == 3602879701896397 # 36028797018963968
  /\ toDouble 9007199254740993 == 9007199254740992
  /\ toDouble 9007199254740995 == 9007199254740996
  /\ toDouble (10 - (1 # 4503599627370496)) == 10.
Proof. repeat split; vm_compute; reflexivity. Qed.
End Rounding.

(* ===================================================================== *)
(** * Properties of the store                                             *)
(* ===================================================================== *)

Section StoreFrame.
Import Store.

Lemma updateDocument_length docs d u :
  length (updateDocument docs d u) = length docs.
Proof. unfold updateDocument. apply List.length_map. Qed.

Lemma updateDocument_ids docs d u :
  keepsRecord u ->
  List.map PdfDocumentRecord.id (updateDocument docs d u)
  = List.map PdfDocumentRecord.id docs.
Proof.
  intros Hu. induction docs as [|doc docs IH]; simpl; [reflexivity|].
  rewrite IH. destruct (String.eqb _ d); [rewrite Hu|]; reflexivity.
Qed.

Lemma updateDocument_other docs d u i doc :
  nth_error docs i = Some doc ->
  PdfDocumentRecord.id doc <> d ->
  nth_error (updateDocument docs d u) i = Some doc.
Proof.
  revert i. induction docs as [|doc0 docs IH]; intros [|i] Hi Hne; simpl in *;
    try discriminate.
  - injection Hi as ->. apply String.eqb_neq in Hne. rewrite Hne. reflexivity.
  - apply IH; assumption.
Qed.

Lemma updateDocument_absent docs d u :
  (forall doc, In doc docs -> PdfDocumentRecord.id doc <> d) ->
  updateDocument docs d u = docs.
Proof.
  induction docs as [|doc docs IH]; intros Hno; simpl; [reflexivity|].
  rewrite IH by (intros; apply Hno; right; assumption).
  assert (Hne : PdfDocumentRecord.id doc <> d) by (apply Hno; left; reflexivity).
  apply String.eqb_neq in Hne. rewrite Hne. reflexivity.
Qed.

(** Shape of a document-targeting command: one [updateDocument] with an
    updater that keeps the record's identity, the active id untouched. *)
Lemma targets_shape o d s :
  targets o = Some d ->
  exists u, keepsRecord u
    /\ documents (apply o s) = updateDocument (documents s) d u
    /\ activeDocumentId (apply o s) = activeDocumentId s.
Proof.
  destruct o; simpl; intros [= <-]; eexists; (split; [|split; reflexivity]);
    intros document; reflexivity.
Qed.

Lemma state_eq (s s' : PdfState) :
  documents s' = documents s -> activeDocumentId s' = activeDocumentId s -> s' = s.
Proof. destruct s, s'; simpl; intros -> ->; reflexivity. Qed.
End StoreFrame.

(** C10.  A document-targeting mutation (addField, updateField, removeField,
    setFields, mergeFields, selectField) keeps the length of the documents
    list and the order of the document ids, leaves every document whose id
    differs from the targeted one unchanged at its position, and is a no-op
    on the whole state when no document has the targeted id. *)
Theorem store_targeted_frame (o : Store.op) (d : string) (s : Store.PdfState) :
  Store.targets o = Some d ->
  length (Store.documents (Store.apply o s)) = length (Store.documents s)
  /\ List.map PdfDocumentRecord.id (Store.documents (Store.apply o s))
     = List.map PdfDocumentRecord.id (Store.documents s)
  /\ (forall i doc, nth_error (Store.documents s) i = Some doc ->
                    PdfDocumentRecord.id doc <> d ->
                    nth_error (Store.documents (Store.apply o s)) i = Some doc)
  /\ ((forall doc, In doc (Store.documents s) -> PdfDocumentRecord.id doc <> d) ->
      Store.apply o s = s).
Proof.
  intros Ht. destruct (targets_shape o d s Ht) as (u & Hu & Hdocs & Hact).
  rewrite Hdocs. repeat split.
  - apply updateDocument_length.
  - apply updateDocument_ids, Hu.
  - intros i doc Hi Hne. apply updateDocument_other; assumption.
  - intros Hno. apply state_eq; [|exact Hact].
    rewrite Hdocs. apply updateDocument_absent, Hno.
Qed.


Lemma store_targeted_frame_witness :
  Store.targets (Store.RemoveField "A" "m1") = Some "A"
  /\ (length (Store.documents (Store.apply (Store.RemoveField "A" "m1") StoreExamples.twoDocs))
      = length (Store.documents StoreExamples.twoDocs)
      /\ nth_error (Store.documents (Store.apply (Store.RemoveField "A" "m1") StoreExamples.twoDocs)) 1
         = Some (StoreExamples.emptyDoc "B")).
Proof.
  split; [reflexivity|].
  destruct (store_targeted_frame (Store.RemoveField "A" "m1") "A" StoreExamples.twoDocs eq_refl)
    as (Hlen & _ & Hother & _).
  split; [exact Hlen|].
  apply Hother; [reflexivity|discriminate].
Defined.

Section StoreSelection.
Import Store.

Lemma lastId_valid (fs : list Field.t) i :
  lastId fs = Some i -> exists f, In f fs /\ Field.id f = i.
Proof.
  unfold lastId. destruct (last fs) as [f|] eqn:Hl; simpl; [|discriminate].
  intros [= <-]. exists f. split; [|reflexivity].
  apply last_Some in Hl as [l0 ->].
  apply in_or_app. right. left. reflexivity.
Qed.

(** An updater whose result is valid on every valid document keeps the
    whole list valid. *)
Lemma updateDocument_valid docs d u :
  (forall document, In document docs -> PdfDocumentRecord.id document = d ->
                    selectionValid document -> selectionValid (u document)) ->
  (forall document, In document docs -> selectionValid document) ->
  forall document, In document (updateDocument docs d u) -> selectionValid document.
Proof.
  intros Hu Hdocs document Hin. unfold updateDocument in Hin.
  apply in_map_iff in Hin as (doc0 & Heq & Hin0).
  destruct (String.eqb_spec (PdfDocumentRecord.id doc0) d) as [Hd|Hd]; subst document.
  - apply Hu; auto.
  - auto.
Qed.

Lemma removeField_keeps_selected document fieldId :
  selectionValid document ->
  selectionValid
    (withFields document
       (List.filter (fun field => negb (String.eqb (Field.id field) fieldId))
                    (PdfDocumentRecord.fields document))
       (match PdfDocumentRecord.selectedFieldId document with
        | Some s0 => if String.eqb s0 fieldId then None
                     else PdfDocumentRecord.selectedFieldId document
        | None => None
        end)).
Proof.
  unfold selectionValid; simpl.
  destruct (PdfDocumentRecord.selectedFieldId document) as [sel|]; [|trivial].
  destruct (String.eqb_spec sel fieldId) as [He|Hne]; [trivial|].
  intros (f & Hin & Hid). exists f. split; [|exact Hid].
  apply filter_In. split; [exact Hin|].
  rewrite Hid. apply negb_true_iff, String.eqb_neq, Hne.
Qed.

Lemma updateField_keeps_selected document fieldId updates :
  Field.p_id updates = None ->
  selectionValid document ->
  selectionValid
    (withFields document
       (List.map (fun field => if String.eqb (Field.id field) fieldId
                               then Field.spread field updates else field)
                 (PdfDocumentRecord.fields document))
       (PdfDocumentRecord.selectedFieldId document)).
Proof.
  intros Hp. unfold selectionValid; simpl.
  destruct (PdfDocumentRecord.selectedFieldId document) as [sel|]; [|trivial].
  intros (f & Hin & Hid).
  exists (if String.eqb (Field.id f) fieldId then Field.spread f updates else f).
  split.
  - apply in_map_iff. exists f. split; [reflexivity|exact Hin].
  - destruct (String.eqb (Field.id f) fieldId); [|exact Hid].
    unfold Field.spread; simpl. rewrite Hp. exact Hid.
Qed.

Lemma apply_keeps_valid o s :
  admissible s o -> storeSelectionValid s -> storeSelectionValid (apply o s).
Proof.
  unfold storeSelectionValid. intros Hadm Hs.
  destruct o; simpl in *.
  - (* addDocument *)
    intros document Hin. apply in_app_or in Hin as [Hin|[<-|[]]]; auto.
  - (* removeDocument *)
    intros document Hin. apply filter_In in Hin as [Hin _]. auto.
  - (* clearAll *)
    intros document [].
  - (* setActiveDocument *)
    exact Hs.
  - (* addField *)
    apply updateDocument_valid; [|exact Hs].
    intros document _ _ _. unfold selectionValid; simpl.
    exists field. split; [apply in_or_app; right; left|]; reflexivity.
  - (* updateField *)
    apply updateDocument_valid; [|exact Hs].
    intros document _ _. apply updateField_keeps_selected, Hadm.
  - (* removeField *)
    apply updateDocument_valid; [|exact Hs].
    intros document _ _. apply removeField_keeps_selected.
  - (* setFields *)
    apply updateDocument_valid; [|exact Hs].
    intros document _ _ _. unfold selectionValid; simpl.
    destruct (lastId fs) as [i|] eqn:Hl; [|trivial]. apply lastId_valid, Hl.
  - (* mergeFields *)
    apply updateDocument_valid; [|exact Hs].
    intros document _ _ _. unfold selectionValid; simpl.
    destruct (lastId _) as [i|] eqn:Hl; [|trivial]. apply lastId_valid, Hl.
  - (* selectField *)
    apply updateDocument_valid; [|exact Hs].
    intros document Hin Hid _. unfold selectionValid; simpl.
    destruct fieldId as [i|]; [|trivial]. apply Hadm; assumption.
Qed.
End StoreSelection.

(** C8, as amended.  From the initial empty store, under calls where
    [addDocument] receives a record whose selection is valid, [updateField]
    patches carry no [id] key and [selectField] receives no id or the id of a
    field of the targeted document, every reachable state has, in every
    document, a [selectedFieldId] that is absent or is the id of one of that
    document's fields. *)
Theorem store_selection_invariant (s : Store.PdfState) :
  reachableAdmissible s -> storeSelectionValid s.
Proof.
  induction 1 as [|o s Hr IH Hadm].
  - intros document [].
  - apply apply_keeps_valid; assumption.
Qed.

Lemma store_selection_invariant_witness :
  reachableAdmissible StoreExamples.twoDocs /\ storeSelectionValid StoreExamples.twoDocs.
Proof.
  assert (H : reachableAdmissible StoreExamples.twoDocs).
  { apply (ra_step (Store.AddField "A" StoreExamples.manual)); [|exact I].
    apply (ra_step (Store.AddDocument (StoreExamples.emptyDoc "B"))); [|exact I].
    apply (ra_step (Store.AddDocument (StoreExamples.emptyDoc "A"))); [|exact I].
    apply ra_initial. }
  split; [exact H|]. apply (store_selection_invariant _ H).
Defined.

(** C8, as stated, fails: [selectField] stores whatever id it is given.
    After addDocument of an empty document "A" and selectField("A", "ghost")
    the store is reachable and its document selects an id no field has. *)
Lemma store_selection_counterexample :
  Store.reachable SelectionExamples.dangling
  /\ ~ storeSelectionValid SelectionExamples.dangling.
Proof.
  split.
  - do 2 apply Store.reach_step. apply Store.reach_initial.
  - intros H. specialize (H _ (or_introl eq_refl)).
    destruct H as (f & [] & _).
Qed.

Section StoreMerge.
Import Store.








Lemma mergeCombined_accepts existing candidates :
  exists accepted,
    mergeCombined existing candidates = existing ++ accepted
    /\ sublist accepted candidates.
Proof.
  revert existing. induction candidates as [|c cs IH]; intros existing.
  - exists []. split; [symmetry; apply app_nil_r|constructor].
  - unfold mergeCombined; simpl. fold (mergeCombined (mergeStep existing c) cs).
    destruct (IH (mergeStep existing c)) as (acc & Heq & Hsub). rewrite Heq.
    unfold mergeStep. destruct (existsb (isNear c) existing).
    + exists acc. split; [reflexivity|]. apply sublist_cons, Hsub.
    + exists (c :: acc). split; [rewrite <- app_assoc; reflexivity|].
      apply sublist_skip, Hsub.
Qed.






End StoreMerge.




(* ===================================================================== *)
(** * Properties of the detector                                          *)
(* ===================================================================== *)

Section PlaceRun.
Import Detection.
Local Open Scope Q_scope.

Lemma clampSize_room value min available :
  0 < available ->
  Qmin min available <= clampSize value min available
  /\ clampSize value min available <= available.
Proof.
  intros Ha. unfold clampSize, Qgtb.
  destruct (Qltb_reflect 0 available) as [[Hb Hq]|[Hb Hq]]; rewrite Hb; [|lra].
  number_cases; split; lra.
Qed.

Lemma clampSize_no_room value min available :
  available <= 0 -> clampSize value min available == min.
Proof.
  intros Ha. unfold clampSize, Qgtb.
  destruct (Qltb_reflect 0 available) as [[Hb Hq]|[Hb Hq]]; rewrite Hb; [lra|].
  number_cases; lra.
Qed.

(** An equation between 4-tuples, component by component. *)
Lemma tuple4_eq (a b c d a' b' c' d' : Q) :
  (a, b, c, d) = (a', b', c', d') -> a = a' /\ b = b' /\ c = c' /\ d = d'.
Proof. intros H. inversion H. auto. Qed.

Ltac open_placeRun :=
  let H := fresh "H" in
  unfold placeRun; intros H; apply tuple4_eq in H;
  destruct H as (<- & <- & <- & <-).

Lemma placeRun_height pageMeta fh rect x y w h :
  0 < PageMeta.height pageMeta ->
  placeRun pageMeta fh rect = (x, y, w, h) ->
  Qmin MIN_FIELD_HEIGHT (PageMeta.height pageMeta) <= h
  /\ h <= MIN_FIELD_HEIGHT + 16
  /\ h <= PageMeta.height pageMeta.
Proof.
  intros HH. destruct rect as [[[x1 y1] x2] y2]. open_placeRun.
  match goal with |- context [clampSize ?v ?m ?a] =>
    destruct (clampSize_room v m a HH) as [Hlo Hhi]; revert Hlo Hhi;
    generalize (clampSize v m a); intros c Hlo Hhi end.
  unfold MIN_FIELD_HEIGHT in *. minmax_cases; repeat split; lra.
Qed.

Lemma placeRun_y pageMeta fh rect x y w h :
  0 < PageMeta.height pageMeta ->
  placeRun pageMeta fh rect = (x, y, w, h) ->
  0 <= y /\ y + h <= PageMeta.height pageMeta.
Proof.
  intros HH Hp. destruct (placeRun_height _ _ _ _ _ _ _ HH Hp) as (_ & _ & Hh).
  revert Hp Hh. destruct rect as [[[x1 y1] x2] y2]. open_placeRun.
  match goal with |- context [Qmin (clampSize ?v ?m ?a) ?b] =>
    generalize (Qmin (clampSize v m a) b); intros h0 Hh end.
  change (Qneb FIELD_VERTICAL_OFFSET 0) with true. cbv iota.
  match goal with |- context [Qmin (Qmax ?s 0) ?b] =>
    generalize s; intros shifted end.
  minmax_cases; split; lra.
Qed.

Lemma placeRun_x pageMeta fh rect x y w h :
  placeRun pageMeta fh rect = (x, y, w, h) ->
  0 <= x /\ x == Qmax (DetectionSpec.leftEdge rect) 0.
Proof.
  destruct rect as [[[x1 y1] x2] y2]. unfold DetectionSpec.leftEdge.
  open_placeRun. split; [|reflexivity]. apply Q.le_max_r.
Qed.

Lemma placeRun_width pageMeta fh rect x y w h :
  placeRun pageMeta fh rect = (x, y, w, h) ->
  (1 <= PageMeta.width pageMeta ->
   DetectionSpec.leftEdge rect < PageMeta.width pageMeta ->
   x + w <= PageMeta.width pageMeta)
  /\ (MIN_FIELD_WIDTH <= PageMeta.width pageMeta ->
      DetectionSpec.leftEdge rect <= PageMeta.width pageMeta - MIN_FIELD_WIDTH ->
      MIN_FIELD_WIDTH <= w).
Proof.
  destruct rect as [[[x1 y1] x2] y2]. unfold DetectionSpec.leftEdge.
  open_placeRun.
  set (W := PageMeta.width pageMeta). set (left := Qmin x1 x2).
  assert (Hroom : 0 < W - left ->
                  clampSize (Qabs (x2 - x1)) MIN_FIELD_WIDTH (W - left) <= W - left)
    by (intros Ha; apply clampSize_room, Ha).
  revert Hroom.
  generalize (clampSize (Qabs (x2 - x1)) MIN_FIELD_WIDTH (W - left)). intros w0 Hroom.
  generalize (if Qneb (Qabs (x2 - x1)) 0 then Qabs (x2 - x1) else MIN_FIELD_WIDTH).
  intros r. unfold MIN_FIELD_WIDTH, Qgtb in *. clearbody W left.
  split; intros HW Hleft; [specialize (Hroom ltac:(lra))|clear Hroom];
    number_cases; try lra;
    repeat match goal with
      | H : context [Qltb ?a ?b] |- _ =>
          let Hb := fresh "Hb" in
          destruct (Qltb_reflect a b) as [[Hb ?]|[Hb ?]];
          rewrite Hb in *; clear Hb; cbv iota in *
      end; lra.
Qed.

(** A run that starts at or right of the right edge of the page: nothing is
    available, [clampSize] answers with the minimum, and the field stays
    where the run is, with the width 1 or a width that is not positive. *)
Lemma placeRun_off_page pageMeta fh rect x y w h :
  0 < PageMeta.width pageMeta ->
  PageMeta.width pageMeta <= DetectionSpec.leftEdge rect ->
  placeRun pageMeta fh rect = (x, y, w, h) ->
  PageMeta.width pageMeta <= x /\ w <= 1.
Proof.
  destruct rect as [[[x1 y1] x2] y2]. unfold DetectionSpec.leftEdge.
  intros HW Hleft. open_placeRun. revert Hleft.
  set (W := PageMeta.width pageMeta) in *. set (left := Qmin x1 x2).
  intros Hleft.
  assert (Hc : clampSize (Qabs (x2 - x1)) MIN_FIELD_WIDTH (W - left) == MIN_FIELD_WIDTH)
    by (apply clampSize_no_room; lra).
  revert Hc.
  generalize (clampSize (Qabs (x2 - x1)) MIN_FIELD_WIDTH (W - left)). intros w0 Hc.
  generalize (if Qneb (Qabs (x2 - x1)) 0 then Qabs (x2 - x1) else MIN_FIELD_WIDTH).
  intros r. unfold MIN_FIELD_WIDTH, Qgtb in *. clearbody W left.
  number_cases; split; lra.
Qed.
End PlaceRun.

Section DetectorBounds.
Import Detection DetectionSpec.
Local Open Scope Q_scope.
Variable sqrt : Q -> Q.
Variable makeId : nat -> string.

Lemma processMatch_fields P page pageMeta drawn item st m :
  appended sqrt page pageMeta P ->
  In (Text item) (items page) -> In m (matchAll (str item)) ->
  Forall P (fst st) ->
  Forall P (fst (processMatch makeId page pageMeta drawn (itemContext sqrt item) st m)).
Proof.
  intros HP Hitem Hm Hst. destruct st as [detected count], m as [startOffset runLength].
  unfold processMatch.
  destruct (Nat.ltb_spec runLength MIN_UNDERSCORE_RUN) as [|Hlong]; [exact Hst|].
  destruct (sourceRect (itemContext sqrt item) startOffset runLength) as [source|] eqn:Hsrc;
    [|exact Hst].
  destruct (placeRun pageMeta (fontHeight (itemContext sqrt item)) _)
    as [[[x y] w] h] eqn:Hp.
  simpl in *. apply Forall_app. split; [exact Hst|].
  constructor; [|constructor].
  eapply HP; eassumption.
Qed.

Lemma processItem_fields P page pageMeta drawn st item :
  appended sqrt page pageMeta P ->
  In item (items page) ->
  Forall P (fst st) ->
  Forall P (fst (processItem sqrt makeId page pageMeta drawn st item)).
Proof.
  intros HP Hin. destruct item as [item|]; [|trivial]. unfold processItem.
  assert (Hincl : incl (matchAll (str item)) (matchAll (str item))) by apply incl_refl.
  revert Hincl. generalize (matchAll (str item)) at 1 3. intros ms. revert st.
  induction ms as [|m ms IH]; intros st Hincl Hst; [exact Hst|].
  simpl. apply IH.
  - intros m' Hm'. apply Hincl. right. exact Hm'.
  - apply processMatch_fields; try assumption. apply Hincl. left. reflexivity.
Qed.

(** The induction over the two loops, once for every property of the
    fields. *)
Lemma detectFieldsForPage_all P drawn page pageMeta :
  appended sqrt page pageMeta P ->
  Forall P (detectFieldsForPage sqrt makeId drawn page pageMeta).
Proof.
  intros HP. unfold detectFieldsForPage.
  assert (H0 : Forall P (fst (([] : list Field.t), 0%nat))) by constructor.
  assert (Hincl : incl (items page) (items page)) by apply incl_refl.
  revert H0 Hincl. generalize (([] : list Field.t), 0%nat).
  generalize (items page) at 1 3. intros its.
  induction its as [|item rest IH]; intros st Hst Hincl; [exact Hst|].
  simpl. apply IH.
  - apply processItem_fields; try assumption. apply Hincl. left. reflexivity.
  - intros i Hi. apply Hincl. right. exact Hi.
Qed.

Lemma detectFieldsForPage_fromRun drawn page pageMeta :
  Forall (fromRun sqrt page pageMeta) (detectFieldsForPage sqrt makeId drawn page pageMeta).
Proof.
  apply detectFieldsForPage_all.
  intros item start len source x y w h i n Hitem Hm Hlong Hsrc Hp.
  exists item, start, len, source.
  split; [exact Hitem|]. split; [exact Hm|]. split; [exact Hlong|].
  split; [exact Hsrc|]. split; [symmetry; exact Hp|].
  unfold widthFits; simpl. exact (placeRun_width _ _ _ _ _ _ _ Hp).
Qed.

Lemma detectFieldsForPage_withinPage drawn page pageMeta :
  positivePage pageMeta ->
  Forall (withinPage pageMeta) (detectFieldsForPage sqrt makeId drawn page pageMeta).
Proof.
  intros [HW HH]. apply detectFieldsForPage_all.
  intros item start len source x y w h i n _ _ _ _ Hp.
  destruct (placeRun_height _ _ _ _ _ _ _ HH Hp) as (Hh1 & Hh2 & _).
  destruct (placeRun_y _ _ _ _ _ _ _ HH Hp) as (Hy1 & Hy2).
  destruct (placeRun_x _ _ _ _ _ _ _ Hp) as (Hx & _).
  unfold withinPage; simpl. repeat split; assumption.
Qed.

Lemma detectFieldsForPage_fields drawn page pageMeta :
  positivePage pageMeta ->
  Forall (detectedOn sqrt page pageMeta)
         (detectFieldsForPage sqrt makeId drawn page pageMeta).
Proof.
  intros Hpos. apply Forall_and. split.
  - apply detectFieldsForPage_withinPage, Hpos.
  - apply detectFieldsForPage_fromRun.
Qed.

Lemma detectLoop_fields pdfDoc pages aggregated fields :
  Forall positivePage pages ->
  detectLoop sqrt makeId pdfDoc pages aggregated = Some fields ->
  exists detected,
    fields = aggregated ++ detected
    /\ Forall (fun f => exists pageMeta page,
                  In pageMeta pages
                  /\ getPage pdfDoc (PageMeta.index pageMeta + 1) = Some page
                  /\ detectedOn sqrt page pageMeta f) detected.
Proof.
  revert aggregated. induction pages as [|meta rest IH]; intros aggregated Hpos; simpl.
  - intros [= <-]. exists []. split; [symmetry; apply app_nil_r|constructor].
  - destruct (getPage pdfDoc (PageMeta.index meta + 1)) as [page|] eqn:Hg; [|discriminate].
    intros Hloop. inversion Hpos as [|? ? Hm Hrest]; subst.
    destruct (IH _ Hrest Hloop) as (detected & -> & Hdet).
    exists (detectFieldsForPage sqrt makeId (length aggregated) page meta ++ detected).
    split; [rewrite app_assoc; reflexivity|].
    apply Forall_app. split.
    + eapply Forall_impl; [apply detectFieldsForPage_fields, Hm|].
      intros f Hf. exists meta, page. split; [left; reflexivity|]. split; assumption.
    + eapply Forall_impl; [exact Hdet|].
      intros f (pm & pg & Hin & Hgp & Hf). exists pm, pg.
      split; [right; exact Hin|]. split; assumption.
Qed.

Lemma detectLoop_total pdfDoc pages aggregated :
  Forall (fun pageMeta => (PageMeta.index pageMeta < length pdfDoc)%nat) pages ->
  exists fields, detectLoop sqrt makeId pdfDoc pages aggregated = Some fields.
Proof.
  revert aggregated. induction pages as [|meta rest IH]; intros aggregated Hin; simpl.
  - eexists. reflexivity.
  - inversion Hin as [|? ? Hm Hrest]; subst.
    replace (PageMeta.index meta + 1)%nat with (S (PageMeta.index meta)) by lia.
    simpl. destruct (lookup_lt_is_Some_2 pdfDoc _ Hm) as [page ->].
    apply IH, Hrest.
Qed.
End DetectorBounds.

Section UnderscoreRuns.
Import Detection DetectionSpec.

Lemma closeRun_In pos run s n :
  In (s, n) (closeRun pos run) <-> (3 <= run /\ s = pos - run /\ n = run)%nat.
Proof.
  unfold closeRun. destruct (Nat.leb_spec 3 run); simpl.
  - split.
    + intros [[= <- <-]|[]]. auto.
    + intros (_ & -> & ->). left. reflexivity.
  - split; [intros []|lia].
Qed.

(** A maximal run that starts in the pending underscores is all of them,
    once they have ended. *)
Lemma pending_run pre rest run s n :
  pending pre run ->
  (pre ++ rest) !! length pre <> Some "_"%char ->
  maximalRun (pre ++ rest) s n -> (1 <= n)%nat ->
  (length pre - run <= s)%nat -> (s <= length pre)%nat ->
  s = (length pre - run)%nat /\ n = run.
Proof.
  intros (Hrun & Hus & Hbefore) Hend (Hall & Hprev & Hnext) Hn Hlo Hhi.
  assert (Hin : forall i, (length pre - run <= i < length pre)%nat ->
                          (pre ++ rest) !! i = Some "_"%char).
  { intros i Hi. rewrite lookup_app_l by lia. apply Hus, Hi. }
  assert (Hs : (s < length pre)%nat).
  { destruct (Nat.eq_dec s (length pre)) as [->|]; [|lia].
    exfalso. apply Hend, Hall. lia. }
  assert (Hstart : s = (length pre - run)%nat).
  { destruct (Nat.eq_dec s (length pre - run)) as [|Hne]; [assumption|].
    exfalso. destruct s as [|j]; [lia|].
    apply (Hprev j eq_refl), Hin. lia. }
  split; [exact Hstart|].
  assert (Hle : (s + n <= length pre)%nat).
  { destruct (Nat.le_gt_cases (s + n) (length pre)) as [|Hgt]; [assumption|].
    exfalso. apply Hend, Hall. lia. }
  destruct (Nat.eq_dec (s + n) (length pre)) as [|Hne]; [lia|].
  exfalso. apply Hnext, Hin. lia.
Qed.

Lemma pending_maximal pre rest run :
  pending pre run ->
  (pre ++ rest) !! length pre <> Some "_"%char ->
  maximalRun (pre ++ rest) (length pre - run) run.
Proof.
  intros (Hrun & Hus & Hbefore) Hend. split; [|split].
  - intros i Hi. rewrite lookup_app_l by lia. apply Hus. lia.
  - intros j Hj. rewrite lookup_app_l by lia. apply Hbefore, Hj.
  - replace (length pre - run + run)%nat with (length pre) by lia. exact Hend.
Qed.

Lemma scanRuns_spec chars : forall pre run,
  pending pre run ->
  forall s n,
    In (s, n) (scanRuns chars (length pre) run)
    <-> (3 <= n)%nat /\ maximalRun (pre ++ chars) s n /\ (length pre - run <= s)%nat.
Proof.
  induction chars as [|c rest IH]; intros pre run Hpend s n.
  - cbn [scanRuns]. rewrite closeRun_In.
    assert (Hend : (pre ++ []) !! length pre <> Some "_"%char).
    { rewrite lookup_ge_None_2 by (rewrite length_app; simpl; lia). discriminate. }
    split.
    + intros (H3 & -> & ->). split; [exact H3|]. split; [|lia].
      apply pending_maximal; assumption.
    + intros (H3 & Hmax & Hlo).
      assert (Hhi : (s <= length pre)%nat).
      { destruct Hmax as (Hall & _ & _).
        assert (Hl : is_Some ((pre ++ []) !! s)) by (rewrite Hall by lia; eauto).
        apply lookup_lt_is_Some_1 in Hl. rewrite length_app in Hl. simpl in Hl. lia. }
      destruct (pending_run pre [] run s n Hpend Hend Hmax ltac:(lia) Hlo Hhi)
        as [-> ->].
      auto.
  - cbn [scanRuns].
    replace (pre ++ c :: rest) with ((pre ++ [c]) ++ rest)
      by (rewrite <- app_assoc; reflexivity).
    assert (Hlen : length (pre ++ [c]) = S (length pre))
      by (rewrite length_app; simpl; lia).
    destruct (Ascii.eqb_spec c "_"%char) as [->|Hc].
    + (* the run goes on *)
      rewrite <- Hlen.
      rewrite (IH (pre ++ ["_"%char]) (S run)).
      * rewrite Hlen. replace (S (length pre) - S run)%nat with (length pre - run)%nat by lia.
        reflexivity.
      * destruct Hpend as (Hrun & Hus & Hbefore). unfold pending. rewrite Hlen.
        replace (S (length pre) - S run)%nat with (length pre - run)%nat by lia.
        split; [lia|]. split.
        -- intros i Hi. destruct (Nat.eq_dec i (length pre)) as [->|].
           ++ rewrite lookup_app_r, Nat.sub_diag by lia. reflexivity.
           ++ rewrite lookup_app_l by lia. apply Hus. lia.
        -- intros j Hj. rewrite lookup_app_l by lia. apply Hbefore, Hj.
    + (* the run ends at [c] *)
      assert (Hend : ((pre ++ [c]) ++ rest) !! length pre <> Some "_"%char).
      { rewrite <- app_assoc. rewrite lookup_app_r, Nat.sub_diag by lia.
        simpl. congruence. }
      assert (Hnone : pending (pre ++ [c]) 0).
      { unfold pending. rewrite Hlen. split; [lia|]. split; [intros i Hi; lia|].
        intros j Hj. assert (j = length pre) as -> by lia.
        rewrite lookup_app_r, Nat.sub_diag by lia. simpl. congruence. }
      rewrite in_app_iff, closeRun_In. rewrite <- Hlen, (IH _ 0 Hnone), Hlen.
      rewrite <- (app_assoc pre [c] rest) in *. simpl in *.
      split.
      * intros [(H3 & -> & ->)|(H3 & Hmax & Hlo)].
        -- split; [exact H3|]. split; [|lia]. apply pending_maximal; assumption.
        -- split; [exact H3|]. split; [exact Hmax|lia].
      * intros (H3 & Hmax & Hlo).
        destruct (Nat.le_gt_cases s (length pre)) as [Hle|Hgt].
        -- left.
           destruct (pending_run pre (c :: rest) run s n Hpend Hend Hmax ltac:(lia) Hlo Hle)
             as [-> ->].
           auto.
        -- right. split; [exact H3|]. split; [exact Hmax|lia].
Qed.

(** The matches of [/(_{3,})/g] are the maximal runs of three or more
    underscores. *)
Lemma matchAll_spec s start n :
  In (start, n) (matchAll s)
  <-> (3 <= n)%nat /\ maximalRun (list_ascii_of_string s) start n.
Proof.
  unfold matchAll.
  assert (Hp : pending [] 0).
  { split; [simpl; lia|]. split; simpl; intros; lia. }
  rewrite (scanRuns_spec (list_ascii_of_string s) [] 0 Hp). simpl.
  split.
  - intros (H3 & Hm & _). split; assumption.
  - intros (H3 & Hm). split; [exact H3|]. split; [exact Hm|lia].
Qed.
End UnderscoreRuns.

Section DetectorRuns.
Import Detection DetectionSpec.
Local Open Scope Q_scope.
Variable sqrt : Q -> Q.
Variable makeId : nat -> string.

Lemma processMatch_short page pageMeta drawn ctx st m :
  (snd m < MIN_UNDERSCORE_RUN)%nat ->
  processMatch makeId page pageMeta drawn ctx st m = st.
Proof.
  destruct st as [detected count], m as [startOffset runLength]. simpl. intros Hshort.
  unfold processMatch. apply Nat.ltb_lt in Hshort. rewrite Hshort. reflexivity.
Qed.

Lemma Qofnat_pos n : (0 < n)%nat -> 0 < Qofnat n.
Proof. intros Hn. unfold Qofnat, Qlt. simpl. lia. Qed.

Lemma Qgtb_pos a : 0 < a -> Qgtb a 0 = true.
Proof. intros Ha. apply Qltb_lt, Ha. Qed.

(** A run of positive length in an item of positive width is measured
    with a positive width, so it is not skipped. *)
Lemma sourceRect_positive ctx startOffset runLength :
  0 < charWidth ctx -> (0 < runLength)%nat ->
  is_Some (sourceRect ctx startOffset runLength).
Proof.
  intros Hc Hn. apply Qofnat_pos in Hn.
  assert (Hfallback : 0 < charWidth ctx * Qofnat runLength)
    by (apply Qmult_lt_0_compat; assumption).
  unfold sourceRect.
  destruct (glyphMetrics ctx) as [metrics|].
  - destruct (measureRunUsingGlyphs metrics startOffset runLength) as [prefix run].
    set (scale := if Qneb (totalUnits metrics) 0 then _ else _).
    destruct (Qgtb scale 0 && Qgtb run 0) eqn:Htaken.
    + apply andb_true_iff in Htaken as [Hs Hr].
      apply Qltb_lt in Hs, Hr.
      assert (Hm : 0 < run * scale) by (apply Qmult_lt_0_compat; assumption).
      rewrite !(Qgtb_pos _ Hm). simpl. eauto.
    + rewrite !(Qgtb_pos _ Hfallback). simpl. eauto.
  - rewrite !(Qgtb_pos _ Hfallback). simpl. eauto.
Qed.

Lemma itemContext_charWidth item w :
  width item = Some w -> 0 < w -> 0 < charWidth (itemContext sqrt item).
Proof.
  intros Hw Hpos. unfold itemContext. rewrite Hw.
  destruct (transform item) as [[[[[t0 t1] t2] t3] t4] t5]. cbn [charWidth default].
  set (glyphCount := if (String.length (str item) =? 0)%nat then 1%nat
                     else String.length (str item)).
  assert (Hg : (0 < glyphCount)%nat).
  { unfold glyphCount. destruct (Nat.eqb_spec (String.length (str item)) 0); lia. }
  apply Nat.ltb_lt in Hg as Hb. rewrite Hb. unfold id.
  apply Qlt_shift_div_l; [apply Qofnat_pos, Hg|]. lra.
Qed.

Lemma processMatch_named page pageMeta drawn ctx st m :
  wellNamed pageMeta st ->
  wellNamed pageMeta (processMatch makeId page pageMeta drawn ctx st m).
Proof.
  intros Hst. destruct st as [detected count], m as [startOffset runLength].
  unfold processMatch. destruct (runLength <? MIN_UNDERSCORE_RUN)%nat; [exact Hst|].
  destruct (sourceRect ctx startOffset runLength) as [source|]; [|exact Hst].
  destruct (placeRun pageMeta (fontHeight ctx) _) as [[[x y] w] h].
  destruct Hst as [Hcount Hnames]. simpl in *. subst count. split; simpl.
  - rewrite length_app. simpl. reflexivity.
  - intros i f Hi. destruct (Nat.lt_ge_cases i (length detected)) as [Hlt|Hge].
    + rewrite lookup_app_l in Hi by exact Hlt. apply Hnames, Hi.
    + rewrite lookup_app_r in Hi by exact Hge.
      destruct (i - length detected)%nat as [|k] eqn:Hk; simpl in Hi; [|discriminate].
      injection Hi as <-. simpl. f_equal. lia.
Qed.

Lemma processItem_named page pageMeta drawn st item :
  wellNamed pageMeta st ->
  wellNamed pageMeta (processItem sqrt makeId page pageMeta drawn st item).
Proof.
  destruct item as [item|]; [|trivial]. unfold processItem.
  generalize (matchAll (str item)). intros ms. revert st.
  induction ms as [|m ms IH]; intros st Hst; [exact Hst|].
  simpl. apply IH, processMatch_named, Hst.
Qed.

Lemma detectFieldsForPage_named drawn page pageMeta i f :
  detectFieldsForPage sqrt makeId drawn page pageMeta !! i = Some f ->
  Field.name f = fieldName pageMeta (S i).
Proof.
  unfold detectFieldsForPage.
  assert (H0 : wellNamed pageMeta (([] : list Field.t), 0%nat)).
  { split; [reflexivity|]. intros j g Hj. discriminate. }
  revert H0. generalize (([] : list Field.t), 0%nat).
  induction (items page) as [|item rest IH]; intros st Hst.
  - simpl. apply Hst.
  - simpl. apply IH, processItem_named, Hst.
Qed.

Lemma processMatch_count page pageMeta drawn ctx st m :
  (length (fst (processMatch makeId page pageMeta drawn ctx st m))
   <= length (fst st) + length (List.filter isLong [m]))%nat
  /\ (0 < charWidth ctx ->
      length (fst (processMatch makeId page pageMeta drawn ctx st m))
      = (length (fst st) + length (List.filter isLong [m]))%nat).
Proof.
  destruct st as [detected count], m as [startOffset runLength].
  unfold processMatch, isLong. cbn [List.filter snd].
  destruct (Nat.ltb_spec runLength MIN_UNDERSCORE_RUN) as [Hshort|Hlong].
  - apply Nat.leb_gt in Hshort as Hb. rewrite Hb. simpl. split; [lia|intros _; lia].
  - apply Nat.leb_le in Hlong as Hb. rewrite Hb.
    destruct (sourceRect ctx startOffset runLength) as [source|] eqn:Hsrc.
    + destruct (placeRun pageMeta (fontHeight ctx) _) as [[[x y] w] h].
      simpl. rewrite length_app. simpl. split; [lia|intros _; lia].
    + simpl. split; [lia|]. intros Hc.
      destruct (sourceRect_positive ctx startOffset runLength Hc) as [source' Hs'].
      * unfold MIN_UNDERSCORE_RUN in Hlong. lia.
      * congruence.
Qed.

Lemma processMatches_count page pageMeta drawn ctx ms : forall st,
  (length (fst (fold_left (processMatch makeId page pageMeta drawn ctx) ms st))
   <= length (fst st) + length (List.filter isLong ms))%nat
  /\ (0 < charWidth ctx ->
      length (fst (fold_left (processMatch makeId page pageMeta drawn ctx) ms st))
      = (length (fst st) + length (List.filter isLong ms))%nat).
Proof.
  induction ms as [|m ms IH]; intros st.
  - simpl. split; [lia|intros _; lia].
  - cbn [fold_left]. destruct (IH (processMatch makeId page pageMeta drawn ctx st m))
      as [Hle Heq].
    destruct (processMatch_count page pageMeta drawn ctx st m) as [Hle1 Heq1].
    change (m :: ms) with ([m] ++ ms). rewrite List.filter_app, length_app.
    split; [lia|]. intros Hc. rewrite (Heq Hc), (Heq1 Hc). lia.
Qed.

Lemma processItems_count page pageMeta drawn its : forall st,
  (length (fst (fold_left (processItem sqrt makeId page pageMeta drawn) its st))
   <= length (fst st) + length (flat_map longRunsOf its))%nat
  /\ ((forall item, In (Text item) its -> exists w, width item = Some w /\ 0 < w) ->
      length (fst (fold_left (processItem sqrt makeId page pageMeta drawn) its st))
      = (length (fst st) + length (flat_map longRunsOf its))%nat).
Proof.
  induction its as [|item rest IH]; intros st.
  - simpl. split; [lia|intros _; lia].
  - cbn [fold_left flat_map]. rewrite length_app.
    destruct (IH (processItem sqrt makeId page pageMeta drawn st item)) as [Hle Heq].
    destruct item as [item|]; cbn [processItem longRunsOf] in *.
    + destruct (processMatches_count page pageMeta drawn (itemContext sqrt item)
                  (matchAll (str item)) st) as [Hle1 Heq1].
      split; [lia|]. intros Hpos.
      destruct (Hpos item (or_introl eq_refl)) as (w & Hw & Hw0).
      rewrite Heq by (intros i Hi; apply Hpos; right; exact Hi).
      rewrite Heq1 by (eapply itemContext_charWidth; eassumption). lia.
    + split; [simpl; lia|]. intros Hpos.
      rewrite Heq by (intros i Hi; apply Hpos; right; exact Hi). simpl. lia.
Qed.

(** As many fields as long runs when every item has a positive width,
    never more. *)
Lemma detectFieldsForPage_count drawn page pageMeta :
  (length (detectFieldsForPage sqrt makeId drawn page pageMeta) <= length (longRuns page))%nat
  /\ (positiveItems page ->
      length (detectFieldsForPage sqrt makeId drawn page pageMeta) = length (longRuns page)).
Proof.
  unfold detectFieldsForPage, longRuns, positiveItems.
  destruct (processItems_count page pageMeta drawn (items page) ([], 0%nat)) as [Hle Heq].
  simpl in *. split; [exact Hle|exact Heq].
Qed.

(** One item with a run of 10 and a run of 4: one field. *)
Lemma detect_ten_and_four drawn page pageMeta item w s1 s2 :
  items page = [Text item] ->
  width item = Some w -> 0 < w ->
  matchAll (str item) = [(s1, 10%nat); (s2, 4%nat)] ->
  exists f, detectFieldsForPage sqrt makeId drawn page pageMeta = [f].
Proof.
  intros Hitems Hw Hpos Hruns.
  unfold detectFieldsForPage. rewrite Hitems. cbn [fold_left processItem].
  rewrite Hruns. cbn [fold_left].
  rewrite (processMatch_short _ _ _ _ _ (s2, 4%nat))
    by (unfold MIN_UNDERSCORE_RUN; simpl; lia).
  unfold processMatch. change (10 <? MIN_UNDERSCORE_RUN)%nat with false. cbv iota.
  destruct (sourceRect_positive (itemContext sqrt item) s1 10) as [source ->].
  - eapply itemContext_charWidth; eassumption.
  - lia.
  - destruct (placeRun pageMeta _ _) as [[[x y] w0] h]. simpl. eauto.
Qed.
End DetectorRuns.

(** What holds of every field the detector produces on a page of positive
    width and height: 0 <= x, 0 <= y, y + height <= page.height,
    min(14, page.height) <= height <= 30 and confidence 0.6; the field is
    placed by [placeRun] on the display-space rectangle of a run of 8 or
    more underscores, and with [left] the left edge of that rectangle,
    x + width <= page.width when page.width >= 1 and left < page.width, and
    width >= 20 when page.width >= 20 and left <= page.width - 20.
    detectFields returns when every page index is a page of the document. *)
Lemma detected_fields_on_page (sqrt : Q -> Q) (makeId : nat -> string) :
  (forall drawn page pageMeta,
     DetectionSpec.positivePage pageMeta ->
     forall f, In f (Detection.detectFieldsForPage sqrt makeId drawn page pageMeta) ->
               DetectionSpec.detectedOn sqrt page pageMeta f)
  /\ (forall pdfDoc pages fields,
        Forall DetectionSpec.positivePage pages ->
        Detection.detectFields sqrt makeId pdfDoc pages = Some fields ->
        forall f, In f fields ->
          exists pageMeta page,
            In pageMeta pages
            /\ Detection.getPage pdfDoc (PageMeta.index pageMeta + 1) = Some page
            /\ DetectionSpec.detectedOn sqrt page pageMeta f)
  /\ (forall pdfDoc pages,
        Forall (fun pageMeta => PageMeta.index pageMeta < length pdfDoc) pages ->
        exists fields, Detection.detectFields sqrt makeId pdfDoc pages = Some fields).
Proof.
  split; [|split].
  - intros drawn page pageMeta Hpos f Hin.
    pose proof (detectFieldsForPage_fields sqrt makeId drawn page pageMeta Hpos) as Hall.
    rewrite List.Forall_forall in Hall. apply Hall, Hin.
  - intros pdfDoc pages fields Hpos Hdet f Hin.
    destruct (detectLoop_fields sqrt makeId pdfDoc pages [] fields Hpos Hdet)
      as (detected & -> & Hall).
    rewrite List.Forall_forall in Hall. apply Hall, Hin.
  - intros pdfDoc pages Hidx. apply detectLoop_total, Hidx.
Qed.

(** The detector has its own minimum sizes, 20 and 14: a run of ten
    underscores, 30 units wide in 12-unit type inside an A4 page, yields a
    field 30 wide and 14 high. *)
Example detector_minimum_sizes :
  exists f,
    Detection.detectFieldsForPage Detection.sqrtFloor DetectionExamples.ids 0
      DetectionExamples.blankPage DetectionExamples.a4 = [f]
    /\ (Field.x f == 100)%Q /\ (Field.width f == 30)%Q /\ (Field.height f == 14)%Q.
Proof.
  eexists. split; [vm_compute; reflexivity|].
  split; [reflexivity|]. split; reflexivity.
Qed.

(** C1.  The detector does not keep every field inside its page, although
    it clamps the rectangle.  Ten underscores, 30 units wide, set 5 units
    right of the right edge of an A4 page (595 by 842), give one field with
    x = 600 and width -5: nothing is available right of x, so [clampSize]
    answers 20, the minimum target of 30 replaces it by min(30, 595 - 600),
    and the last guard does not fire, x + width being 595.  The field is
    outside the page and narrower than 80, and than the detector's own
    minimum of 20.  So it is for every run whose display rectangle starts at
    or right of the right edge of a page of positive size: the field has
    page.width <= x and width <= 1. *)
Theorem detector_field_off_page :
  DetectionSpec.positivePage DetectionExamples.a4
  /\ (exists f,
        Detection.detectFieldsForPage Detection.sqrtFloor DetectionExamples.ids 0
          DetectionExamples.marginPage DetectionExamples.a4 = [f]
        /\ (Field.x f == 600)%Q /\ (Field.width f == -5)%Q
        /\ (Field.height f == 14)%Q
        /\ Field.confidence f = Some (6 # 10)%Q
        /\ (PageMeta.width DetectionExamples.a4 < Field.x f)%Q
        /\ ~ (Detection.MIN_FIELD_WIDTH <= Field.width f)%Q
        /\ ~ DetectionSpec.editorInvariants DetectionExamples.a4 f)
  /\ (forall pageMeta fontHeight rect x y w h,
        DetectionSpec.positivePage pageMeta ->
        (PageMeta.width pageMeta <= DetectionSpec.leftEdge rect)%Q ->
        Detection.placeRun pageMeta fontHeight rect = (x, y, w, h) ->
        (PageMeta.width pageMeta <= x /\ w <= 1)%Q).
Proof.
  split; [split; reflexivity|]. split.
  - eexists. split; [vm_compute; reflexivity|].
    split; [reflexivity|]. split; [reflexivity|]. split; [reflexivity|].
    split; [reflexivity|]. split; [reflexivity|]. split.
    + intros Hw. vm_compute in Hw. apply Hw. reflexivity.
    + intros (_ & _ & _ & _ & Hw & _). vm_compute in Hw. apply Hw. reflexivity.
  - intros pageMeta fontHeight rect x y w h [HW _] Hleft Hp.
    exact (placeRun_off_page _ _ _ _ _ _ _ HW Hleft Hp).
Qed.

(** C7, as amended.  The matches the detector takes from an item's string
    are exactly its maximal runs of 3 or more underscores; a run shorter
    than 8 characters adds no field, every field comes from a run of 8 or
    more, and a page never yields more fields than it has such runs; on a
    page of index 0 whose text layout is one item of positive width with two
    runs, of lengths 10 and 4, detection yields exactly one field, named
    page1_field_1; and the field at position K (1-based) of a page's result
    is named page{N}_field_{K}, with N the page index plus one. *)
Theorem underscore_runs_detection (sqrt : Q -> Q) (makeId : nat -> string) :
  (forall s start n,
     In (start, n) (Detection.matchAll s)
     <-> 3 <= n /\ DetectionSpec.maximalRun (list_ascii_of_string s) start n)
  /\ (forall page pageMeta drawn ctx st m,
        snd m < 8 ->
        Detection.processMatch makeId page pageMeta drawn ctx st m = st)
  /\ (forall drawn page pageMeta f,
        In f (Detection.detectFieldsForPage sqrt makeId drawn page pageMeta) ->
        exists item start n,
          In (Detection.Text item) (Detection.items page)
          /\ 8 <= n
          /\ DetectionSpec.maximalRun (list_ascii_of_string (Detection.str item)) start n)
  /\ (forall drawn page pageMeta,
        length (Detection.detectFieldsForPage sqrt makeId drawn page pageMeta)
        <= length (DetectionSpec.longRuns page))
  /\ (forall drawn page pageMeta item w s1 s2,
        Detection.items page = [Detection.Text item] ->
        PageMeta.index pageMeta = 0 ->
        Detection.width item = Some w -> (0 < w)%Q ->
        Detection.matchAll (Detection.str item) = [(s1, 10); (s2, 4)] ->
        exists f,
          Detection.detectFieldsForPage sqrt makeId drawn page pageMeta = [f]
          /\ Field.name f = "page1_field_1")
  /\ (forall drawn page pageMeta i f,
        Detection.detectFieldsForPage sqrt makeId drawn page pageMeta !! i = Some f ->
        Field.name f
        = "page" +:+ pretty (PageMeta.index pageMeta + 1)
          +:+ "_field_" +:+ pretty (i + 1)).
Proof.
  split; [|split; [|split; [|split; [|split]]]].
  - apply matchAll_spec.
  - intros page pageMeta drawn ctx st m Hshort. apply processMatch_short, Hshort.
  - intros drawn page pageMeta f Hin.
    pose proof (detectFieldsForPage_fromRun sqrt makeId drawn page pageMeta) as Hall.
    rewrite List.Forall_forall in Hall.
    destruct (Hall f Hin) as (item & start & n & source & Hitem & Hm & Hlong & _).
    exists item, start, n. split; [exact Hitem|]. split; [exact Hlong|].
    apply matchAll_spec in Hm. apply Hm.
  - intros drawn page pageMeta.
    apply (detectFieldsForPage_count sqrt makeId drawn page pageMeta).
  - intros drawn page pageMeta item w s1 s2 Hitems Hidx Hw Hpos Hruns.
    destruct (detect_ten_and_four sqrt makeId drawn page pageMeta item w s1 s2
                Hitems Hw Hpos Hruns) as [f Hf].
    exists f. split; [exact Hf|].
    rewrite (detectFieldsForPage_named sqrt makeId drawn page pageMeta 0 f)
      by (rewrite Hf; reflexivity).
    unfold Detection.fieldName. rewrite Hidx. vm_compute. reflexivity.
  - intros drawn page pageMeta i f Hi.
    rewrite (detectFieldsForPage_named sqrt makeId drawn page pageMeta i f Hi).
    unfold Detection.fieldName. rewrite !Nat.add_1_r. reflexivity.
Qed.

Lemma underscore_runs_detection_witness :
  (0 < 135)%Q
  /\ Detection.matchAll (Detection.str (DetectionExamples.nameAndDate (Some 135%Q)))
     = [(6, 10); (23, 4)]
  /\ exists f,
       Detection.detectFieldsForPage Detection.sqrtFloor DetectionExamples.ids 0
         (DetectionExamples.formPage (Some 135%Q)) DetectionExamples.a4 = [f]
       /\ Field.name f = "page1_field_1".
Proof.
  assert (Hpos : (0 < 135)%Q) by reflexivity.
  assert (Hruns : Detection.matchAll (Detection.str (DetectionExamples.nameAndDate (Some 135%Q)))
                  = [(6, 10); (23, 4)]) by reflexivity.
  split; [exact Hpos|]. split; [exact Hruns|].
  exact (proj1 (proj2 (proj2 (proj2 (proj2
           (underscore_runs_detection Detection.sqrtFloor DetectionExamples.ids)))))
           0 (DetectionExamples.formPage (Some 135%Q)) DetectionExamples.a4
           (DetectionExamples.nameAndDate (Some 135%Q)) 135%Q 6 23
           eq_refl eq_refl eq_refl Hpos Hruns).
Defined.

(** C7, as stated, fails for an item of zero width: its runs of 10 and 4
    underscores are found, the run of 10 is measured with width 0 and
    skipped, and no field is produced. *)
Lemma underscore_runs_counterexample :
  Detection.matchAll (Detection.str (DetectionExamples.nameAndDate (Some 0%Q)))
  = [(6, 10); (23, 4)]
  /\ Detection.detectFieldsForPage Detection.sqrtFloor DetectionExamples.ids 0
       (DetectionExamples.formPage (Some 0%Q)) DetectionExamples.a4 = [].
Proof. split; vm_compute; reflexivity. Qed.

(* ===================================================================== *)
(** * Properties of the archive serializer                                *)
(* ===================================================================== *)

Section ZipWriter.
Import Zip ZipLayout.

Lemma emits_skip : emits skip [].
Proof.
  intros buffer pointer _. unfold skip. simpl.
  rewrite Nat.add_0_r, take_drop. reflexivity.
Qed.

Lemma emits_andThen w1 w2 o1 o2 :
  emits w1 o1 -> emits w2 o2 -> emits (andThen w1 w2) (o1 ++ o2).
Proof.
  intros H1 H2 buffer pointer Hroom. rewrite length_app in Hroom.
  unfold andThen. rewrite H1 by lia.
  rewrite H2 by (rewrite !length_app, length_take, length_drop; lia).
  assert (Hlen : pointer + length o1 = length (take pointer buffer ++ o1))
    by (rewrite length_app, length_take; lia).
  f_equal. f_equal; [|rewrite length_app; lia].
  rewrite (app_assoc (take pointer buffer) o1).
  rewrite take_app_length' by exact Hlen.
  rewrite drop_app_add' by exact Hlen.
  rewrite drop_drop, length_app, <- !app_assoc.
  rewrite Nat.add_assoc. reflexivity.
Qed.

Lemma emits_block ws outs :
  Forall2 emits ws outs -> emits (block ws) (concat outs).
Proof.
  induction 1 as [|w out ws outs Hw _ IH]; simpl.
  - apply emits_skip.
  - apply emits_andThen; assumption.
Qed.

Lemma emits_forEach {A} (body : A -> writer) (image : A -> bytes) xs :
  (forall x, emits (body x) (image x)) ->
  emits (forEach body xs) (concat (List.map image xs)).
Proof.
  intros Hbody. apply emits_block.
  induction xs; simpl; constructor; auto.
Qed.

Lemma emits_writeBytes arr : emits (writeBytes arr) arr.
Proof.
  intros buffer pointer Hroom. unfold writeBytes, block, andThen, store; simpl.
  rewrite decide_True by lia. simpl. reflexivity.
Qed.

Lemma emits_writeUint32 v : emits (writeUint32 v) (le32 (ushr32 v 0)).
Proof. apply (emits_writeBytes (le32 (ushr32 v 0))). Qed.

Lemma emits_writeUint16 v : emits (writeUint16 v) (le16 (and32 v 0xffff)).
Proof. apply (emits_writeBytes (le16 (and32 v 0xffff))). Qed.

Ltac emit_pieces :=
  apply emits_block;
  repeat (constructor;
          [lazymatch goal with
           | |- emits (writeUint32 _) _ => apply emits_writeUint32
           | |- emits (writeUint16 _) _ => apply emits_writeUint16
           | |- emits (writeBytes _) _ => apply emits_writeBytes
           end|]);
  constructor.

Lemma emits_writeLocal entry : emits (writeLocal entry) (localRecord entry).
Proof.
  replace (localRecord entry) with
    (concat [le32 (ushr32 0x04034b50 0); le16 (and32 20 0xffff); le16 (and32 0 0xffff);
             le16 (and32 0 0xffff); le16 (and32 (dosTime entry) 0xffff);
             le16 (and32 (dosDate entry) 0xffff); le32 (ushr32 (crc32 entry) 0);
             le32 (ushr32 (Z.of_nat (length (m_data entry))) 0);
             le32 (ushr32 (Z.of_nat (length (m_data entry))) 0);
             le16 (and32 (Z.of_nat (length (nameBytes entry))) 0xffff);
             le16 (and32 0 0xffff); nameBytes entry; m_data entry])
    by (unfold localRecord; cbn [concat]; rewrite app_nil_r; reflexivity).
  unfold writeLocal. emit_pieces.
Qed.

Lemma emits_writeCentral entry : emits (writeCentral entry) (centralRecord entry).
Proof.
  replace (centralRecord entry) with
    (concat [le32 (ushr32 0x02014b50 0); le16 (and32 20 0xffff); le16 (and32 20 0xffff);
             le16 (and32 0 0xffff); le16 (and32 0 0xffff);
             le16 (and32 (dosTime entry) 0xffff);
             le16 (and32 (dosDate entry) 0xffff); le32 (ushr32 (crc32 entry) 0);
             le32 (ushr32 (Z.of_nat (length (m_data entry))) 0);
             le32 (ushr32 (Z.of_nat (length (m_data entry))) 0);
             le16 (and32 (Z.of_nat (length (nameBytes entry))) 0xffff);
             le16 (and32 0 0xffff); le16 (and32 0 0xffff); le16 (and32 0 0xffff);
             le16 (and32 0 0xffff); le32 (ushr32 0 0);
             le32 (ushr32 (Z.of_nat (localHeaderOffset entry)) 0); nameBytes entry])
    by (unfold centralRecord; cbn [concat]; rewrite app_nil_r; reflexivity).
  unfold writeCentral. emit_pieces.
Qed.

Lemma emits_writeEnd count size offset :
  emits (writeEnd count size offset) (endRecord count size offset).
Proof.
  replace (endRecord count size offset) with
    (concat [le32 (ushr32 0x06054b50 0); le16 (and32 0 0xffff); le16 (and32 0 0xffff);
             le16 (and32 (Z.of_nat count) 0xffff); le16 (and32 (Z.of_nat count) 0xffff);
             le32 (ushr32 (Z.of_nat size) 0); le32 (ushr32 (Z.of_nat offset) 0);
             le16 (and32 0 0xffff)])
    by reflexivity.
  unfold writeEnd. emit_pieces.
Qed.
End ZipWriter.

Section ZipLayoutFacts.
Import Zip ZipLayout.
Variable encode : string -> bytes.
Variable clock : nat -> Date.

Local Opaque toDosDate computeCrc32.
Local Arguments Nat.add : simpl never.

Lemma assignOffsets_resolved ticks offset files :
  assignOffsets offset (buildMetadata encode clock ticks files)
  = (resolved encode clock ticks offset files,
     offset + sumOf (localSize encode) files).
Proof.
  revert ticks offset. induction files as [|file rest IH]; intros ticks offset; simpl.
  - rewrite Nat.add_0_r. reflexivity.
  - cbn [buildMetadata assignOffsets resolved sumOf fold_right].
    fold (sumOf (localSize encode) rest).
    cbn [localHeaderLength m_data]. rewrite IH. unfold setOffset, localSize.
    cbn [m_name nameBytes m_data crc32 dosTime dosDate localHeaderLength
         centralHeaderLength].
    destruct (date file); cbn [default];
      (apply pair_equal_spec; split; [reflexivity | lia]).
Qed.

Lemma length_le32 v : length (le32 v) = 4.
Proof. reflexivity. Qed.
Lemma length_le16 v : length (le16 v) = 2.
Proof. reflexivity. Qed.

Lemma length_localRecord entry :
  length (localRecord entry) = 30 + length (nameBytes entry) + length (m_data entry).
Proof. unfold localRecord. rewrite !length_app, !length_le32, !length_le16. lia. Qed.

Lemma length_centralRecord entry :
  length (centralRecord entry) = 46 + length (nameBytes entry).
Proof. unfold centralRecord. rewrite !length_app, !length_le32, !length_le16. lia. Qed.

Lemma length_endRecord count size offset : length (endRecord count size offset) = 22.
Proof. reflexivity. Qed.

Lemma length_locals ticks offset files :
  length (concat (List.map localRecord (resolved encode clock ticks offset files)))
  = sumOf (localSize encode) files.
Proof.
  revert ticks offset. induction files as [|file rest IH]; intros ticks offset;
    [reflexivity|].
  cbn [resolved List.map concat sumOf fold_right].
  rewrite length_app, length_localRecord. fold (sumOf (localSize encode) rest).
  rewrite IH. reflexivity.
Qed.

Lemma length_centrals ticks offset files :
  length (concat (List.map centralRecord (resolved encode clock ticks offset files)))
  = sumOf (centralSize encode) files.
Proof.
  revert ticks offset. induction files as [|file rest IH]; intros ticks offset;
    [reflexivity|].
  cbn [resolved List.map concat sumOf fold_right].
  rewrite length_app, length_centralRecord. fold (sumOf (centralSize encode) rest).
  rewrite IH. reflexivity.
Qed.

Lemma resolved_app ticks offset before after :
  exists ticks',
    resolved encode clock ticks offset (before ++ after)
    = resolved encode clock ticks offset before
      ++ resolved encode clock ticks' (offset + sumOf (localSize encode) before) after.
Proof.
  revert ticks offset. induction before as [|file rest IH]; intros ticks offset.
  - exists ticks. simpl. rewrite Nat.add_0_r. reflexivity.
  - cbn [app resolved sumOf fold_right]. fold (sumOf (localSize encode) rest).
    destruct (IH (match date file with Some _ => ticks | None => S ticks end)
                 (offset + (30 + length (encode (name file)) + length (data file))))
      as (ticks' & ->).
    exists ticks'. cbn [app]. do 3 f_equal. unfold localSize. lia.
Qed.

Lemma centralDirectorySize_sum ticks offset files acc :
  fold_left (fun sum entry => sum + centralHeaderLength entry)
            (resolved encode clock ticks offset files) acc
  = acc + sumOf (centralSize encode) files.
Proof.
  revert ticks offset acc. induction files as [|file rest IH]; intros ticks offset acc.
  - simpl. lia.
  - cbn [resolved fold_left sumOf fold_right]. rewrite IH.
    fold (sumOf (centralSize encode) rest). unfold centralSize at 2. simpl. lia.
Qed.

Lemma length_resolved ticks offset files :
  length (resolved encode clock ticks offset files) = length files.
Proof.
  revert ticks offset. induction files as [|file rest IH]; intros ticks offset;
    simpl; [|rewrite IH]; reflexivity.
Qed.

(** The writer fills the buffer exactly: the blob is the concatenation of
    the local records, the central records and the end record. *)
Lemma createZipFromFiles_archive files :
  createZipFromFiles encode clock files
  = Some (archive (resolved encode clock 0 0 files)).
Proof.
  unfold createZipFromFiles. rewrite assignOffsets_resolved.
  rewrite centralDirectorySize_sum, !Nat.add_0_l.
  set (M := resolved encode clock 0 0 files).
  set (buffer := repeat _ _).
  assert (Hbuf : length buffer
                 = sumOf (localSize encode) files + sumOf (centralSize encode) files + 22)
    by apply repeat_length.
  pose proof (length_locals 0 0 files) as Hl. fold M in Hl.
  pose proof (length_centrals 0 0 files) as Hc. fold M in Hc.
  rewrite (emits_forEach writeLocal localRecord M emits_writeLocal) by lia.
  rewrite take_0, !Nat.add_0_l. cbn [app].
  set (locals := concat (List.map localRecord M)) in *.
  set (centrals := concat (List.map centralRecord M)) in *.
  set (buffer1 := locals ++ drop (length locals) buffer).
  assert (Hbuf1 : length buffer1 = length buffer).
  { unfold buffer1. rewrite length_app, length_drop. lia. }
  rewrite (emits_block
             [forEach writeCentral M;
              writeEnd (length M) (sumOf (centralSize encode) files) (length locals)]
             [centrals; endRecord (length M) (sumOf (centralSize encode) files)
                          (length locals)]).
  - f_equal. unfold archive. fold locals centrals.
    unfold buffer1. rewrite take_app_length.
    cbn [concat]. rewrite app_nil_r, Hc.
    rewrite drop_ge
      by (rewrite !length_app, length_drop, length_endRecord; lia).
    rewrite app_nil_r. reflexivity.
  - repeat constructor.
    + apply emits_forEach, emits_writeCentral.
    + apply emits_writeEnd.
  - cbn [concat]. rewrite app_nil_r, length_app, length_endRecord. lia.
Qed.

(** Entry [i] has its local record after the local records of the entries
    before it, and likewise for its central record. *)
Lemma archive_at files i file :
  files !! i = Some file ->
  exists entry pre suf mid post,
    archive (resolved encode clock 0 0 files)
    = pre ++ localRecord entry ++ suf ++ mid ++ centralRecord entry ++ post
    /\ length pre = localStart encode files i
    /\ length (pre ++ localRecord entry ++ suf ++ mid) = centralStart encode files i
    /\ crc32 entry = computeCrc32 (data file).
Proof.
  intros Hi. pose proof (take_drop_middle _ _ _ Hi) as Hsplit.
  set (before := take i files) in *. set (after := drop (S i) files) in *.
  unfold localStart, centralStart. fold before.
  rewrite <- (length_locals 0 0 files). rewrite <- Hsplit.
  destruct (resolved_app 0 0 before (file :: after)) as (ticks' & ->).
  cbn [resolved]. set (M1 := resolved encode clock 0 0 before).
  set (M2 := resolved encode clock _ _ after).
  set (entry := {| m_name := name file |}).
  unfold archive. rewrite !map_app, !concat_app. cbn [List.map concat].
  exists entry, (concat (List.map localRecord M1)), (concat (List.map localRecord M2)),
    (concat (List.map centralRecord M1)),
    (concat (List.map centralRecord M2)
     ++ endRecord (length (M1 ++ entry :: M2))
          (length (concat (List.map centralRecord M1)
                   ++ centralRecord entry ++ concat (List.map centralRecord M2)))
          (length (concat (List.map localRecord M1)
                   ++ localRecord entry ++ concat (List.map localRecord M2)))).
  split; [|split; [|split]].
  - rewrite <- !app_assoc. reflexivity.
  - unfold M1. apply length_locals.
  - rewrite !app_assoc, (length_app _ (concat (List.map centralRecord M1))).
    rewrite <- !app_assoc. f_equal. unfold M1. apply length_centrals.
  - reflexivity.
Qed.

Lemma resolved_clock_irrelevant clock' files :
  forall ticks offset,
    (forall k, k < undated files -> clock (ticks + k) = clock' (ticks + k)) ->
    resolved encode clock ticks offset files = resolved encode clock' ticks offset files.
Proof.
  induction files as [|file rest IH]; intros ticks offset Hagree; [reflexivity|].
  cbn [resolved]. unfold undated in *. cbn [List.filter] in Hagree.
  destruct (date file) as [d|]; cbn [default length] in *.
  - f_equal. apply IH. exact Hagree.
  - assert (H0 : clock ticks = clock' ticks).
    { specialize (Hagree 0). rewrite Nat.add_0_r in Hagree. apply Hagree. lia. }
    rewrite H0. f_equal.
    apply IH. intros k Hk. replace (S ticks + k) with (ticks + S k) by lia.
    apply Hagree. lia.
Qed.
End ZipLayoutFacts.

Section ZipBytes.
Import Zip ZipLayout.
Local Open Scope Z_scope.

Lemma byteZ_byteOfZ v : byteZ (byteOfZ v) = v mod 256.
Proof.
  unfold byteOfZ, byteZ.
  pose proof (Z.mod_pos_bound v 256 eq_refl) as Hb.
  destruct (Byte.of_N (Z.to_N (v mod 256))) as [b|] eqn:E; simpl.
  - apply Byte.to_of_N in E. rewrite E. apply Z2N.id. lia.
  - apply Byte.of_N_None_iff in E. lia.
Qed.

Lemma fromLe_le16 v : fromLe (le16 v) = v mod 2 ^ 16.
Proof.
  unfold fromLe, le16; simpl. rewrite !byteZ_byteOfZ, Z.shiftr_div_pow2 by lia.
  change (2 ^ 16) with (256 * 256). rewrite Z.rem_mul_r by lia.
  change (2 ^ 8) with 256. lia.
Qed.

Lemma fromLe_le32 v : fromLe (le32 v) = v mod 2 ^ 32.
Proof.
  unfold fromLe, le32; simpl. rewrite !byteZ_byteOfZ, !Z.shiftr_div_pow2 by lia.
  change (2 ^ 32) with (256 * (256 * (256 * 256))).
  rewrite (Z.rem_mul_r v 256 (256 * (256 * 256))) by lia.
  rewrite (Z.rem_mul_r (v / 256) 256 (256 * 256)) by lia.
  rewrite (Z.rem_mul_r (v / 256 / 256) 256 256) by lia.
  rewrite !Z.div_div by lia.
  change (2 ^ 8) with 256. change (2 ^ 16) with (256 * 256).
  change (2 ^ 24) with (256 * 256 * 256). lia.
Qed.

Lemma ushr32_0 v : ushr32 v 0 = v mod 2 ^ 32.
Proof. unfold ushr32, toUint32. apply Z.shiftr_0_r. Qed.

Lemma and32_ffff v : and32 v 0xffff = v mod 2 ^ 16.
Proof.
  unfold and32, toInt32. change 0xffff with (Z.ones 16). rewrite Z.land_ones by lia.
  pose proof (Z.mod_pos_bound v (2 ^ 16) eq_refl) as Hb.
  rewrite Z.mod_small; lia.
Qed.

Lemma computeCrc32_range data : 0 <= computeCrc32 data < 2 ^ 32.
Proof. unfold computeCrc32. rewrite ushr32_0. apply Z.mod_pos_bound. reflexivity. Qed.

Lemma fromLe_crc data : fromLe (le32 (ushr32 (computeCrc32 data) 0)) = computeCrc32 data.
Proof.
  rewrite fromLe_le32, ushr32_0, Z.mod_mod by lia.
  apply Z.mod_small, computeCrc32_range.
Qed.

Lemma slice_after (pre rest : bytes) (start off len : nat) :
  length pre = start ->
  slice (start + off) len (pre ++ rest) = slice off len rest.
Proof. intros <-. unfold slice. rewrite drop_app_add. reflexivity. Qed.
End ZipBytes.

Section ZipEnd.
Import Zip ZipLayout.

(** The blob ends with the end record; the count fields hold the number of
    entries modulo 2^16. *)
Lemma archive_end encode clock files :
  exists blob,
    createZipFromFiles encode clock files = Some blob
    /\ length blob
       = sumOf (localSize encode) files + sumOf (centralSize encode) files + 22
    /\ slice (length blob - 22) 4 blob = ["P"; "K"; "005"; "006"]%byte
    /\ fromLe (slice (length blob - 22 + 8) 2 blob)
       = (Z.of_nat (length files) mod 2 ^ 16)%Z
    /\ fromLe (slice (length blob - 22 + 10) 2 blob)
       = (Z.of_nat (length files) mod 2 ^ 16)%Z.
Proof.
  eexists. split; [apply createZipFromFiles_archive|].
  unfold archive. set (M := resolved encode clock 0 0 files).
  set (locals := concat (List.map localRecord M)).
  set (centrals := concat (List.map centralRecord M)).
  assert (Hlen : length (locals ++ centrals)
                 = sumOf (localSize encode) files + sumOf (centralSize encode) files).
  { rewrite length_app. unfold locals, centrals, M.
    rewrite length_locals, length_centrals. reflexivity. }
  rewrite app_assoc.
  assert (Htail : length ((locals ++ centrals)
                          ++ endRecord (length M) (length centrals) (length locals)) - 22
                  = length (locals ++ centrals)).
  { rewrite (length_app (locals ++ centrals)), length_endRecord. lia. }
  rewrite Htail. split; [|split; [|split]].
  - rewrite (length_app (locals ++ centrals)), length_endRecord, Hlen. reflexivity.
  - rewrite <- (Nat.add_0_r (length (locals ++ centrals))).
    rewrite (slice_after _ _ _ 0 4 eq_refl). reflexivity.
  - rewrite (slice_after _ _ _ 8 2 eq_refl).
    change (slice 8 2 (endRecord (length M) (length centrals) (length locals)))
      with (le16 (and32 (Z.of_nat (length M)) 0xffff)).
    rewrite fromLe_le16, and32_ffff, Z.mod_mod by lia.
    unfold M. rewrite length_resolved. reflexivity.
  - rewrite (slice_after _ _ _ 10 2 eq_refl).
    change (slice 10 2 (endRecord (length M) (length centrals) (length locals)))
      with (le16 (and32 (Z.of_nat (length M)) 0xffff)).
    rewrite fromLe_le16, and32_ffff, Z.mod_mod by lia.
    unfold M. rewrite length_resolved. reflexivity.
Qed.
End ZipEnd.

(** C5, as amended.  For every list of entries the blob of createZipFromFiles
    has [sum (30 + nameLength + dataLength) + sum (46 + nameLength) + 22]
    bytes and ends with a 22-byte record that starts with the little-endian
    signature 0x06054B50; for a list of fewer than 65536 entries both
    entry-count fields of that record hold the number of entries.  For the
    single entry "a.pdf" with 3 data bytes the blob has 111 bytes and the
    record reports 1 entry. *)
Theorem archive_size_and_end_record :
  (forall encode clock files,
     exists blob,
       Zip.createZipFromFiles encode clock files = Some blob
       /\ length blob
          = ZipLayout.sumOf (ZipLayout.localSize encode) files
            + ZipLayout.sumOf (ZipLayout.centralSize encode) files + 22
       /\ ZipLayout.slice (length blob - 22) 4 blob = ["P"; "K"; "005"; "006"]%byte
       /\ ZipLayout.fromLe (ZipLayout.slice (length blob - 22) 4 blob) = 0x06054b50%Z
       /\ ((Z.of_nat (length files) < 65536)%Z ->
           ZipLayout.fromLe (ZipLayout.slice (length blob - 22 + 8) 2 blob)
           = Z.of_nat (length files)
           /\ ZipLayout.fromLe (ZipLayout.slice (length blob - 22 + 10) 2 blob)
              = Z.of_nat (length files)))
  /\ (forall clock,
        exists blob,
          Zip.createZipFromFiles Zip.asciiEncode clock [ZipExamples.aPdfUndated] = Some blob
          /\ length blob = 111
          /\ ZipLayout.fromLe (ZipLayout.slice (111 - 22 + 8) 2 blob) = 1%Z
          /\ ZipLayout.fromLe (ZipLayout.slice (111 - 22 + 10) 2 blob) = 1%Z).
Proof.
  split.
  - intros encode clock files.
    destruct (archive_end encode clock files) as (blob & Hb & Hlen & Hsig & Hc1 & Hc2).
    exists blob. split; [exact Hb|]. split; [exact Hlen|]. split; [exact Hsig|].
    split; [rewrite Hsig; reflexivity|].
    intros Hfew. rewrite Hc1, Hc2. rewrite Z.mod_small by lia. split; reflexivity.
  - intros clock.
    destruct (archive_end Zip.asciiEncode clock [ZipExamples.aPdfUndated])
      as (blob & Hb & Hlen & _ & Hc1 & Hc2).
    exists blob. split; [exact Hb|].
    assert (H111 : length blob = 111) by (rewrite Hlen; reflexivity).
    split; [exact H111|]. rewrite <- H111, Hc1, Hc2. split; reflexivity.
Qed.

Lemma archive_size_and_end_record_witness :
  (Z.of_nat (length [ZipExamples.aPdf]) < 65536)%Z
  /\ exists blob,
       Zip.createZipFromFiles Zip.asciiEncode ZipExamples.atNoon [ZipExamples.aPdf] = Some blob
       /\ ZipLayout.fromLe (ZipLayout.slice (length blob - 22 + 8) 2 blob) = 1%Z.
Proof.
  assert (Hfew : (Z.of_nat (length [ZipExamples.aPdf]) < 65536)%Z) by (simpl; lia).
  split; [exact Hfew|].
  destruct (proj1 archive_size_and_end_record Zip.asciiEncode ZipExamples.atNoon
              [ZipExamples.aPdf]) as (blob & Hb & _ & _ & _ & Hcount).
  exists blob. split; [exact Hb|]. exact (proj1 (Hcount Hfew)).
Defined.

(** C5, as stated, fails for a list of 65536 entries: the 16-bit count field
    of the end record then holds 0. *)
Lemma archive_entry_count_counterexample :
  exists blob,
    Zip.createZipFromFiles Zip.asciiEncode ZipExamples.atNoon ZipExamples.tooMany = Some blob
    /\ ZipLayout.fromLe (ZipLayout.slice (length blob - 22 + 8) 2 blob) = 0%Z
    /\ Z.of_nat (length ZipExamples.tooMany) = 65536%Z.
Proof.
  destruct (archive_end Zip.asciiEncode ZipExamples.atNoon ZipExamples.tooMany)
    as (blob & Hb & _ & _ & Hc1 & _).
  assert (Hn : Z.of_nat (length ZipExamples.tooMany) = 65536%Z).
  { unfold ZipExamples.tooMany. rewrite repeat_length. apply Z2Nat.id. lia. }
  exists blob. split; [exact Hb|]. split; [|exact Hn].
  rewrite Hc1, Hn. reflexivity.
Qed.

Section ZipCrc.
Import Zip ZipLayout.

Lemma crc_fields encode clock files i file :
  files !! i = Some file ->
  fromLe (slice (localStart encode files i + 14) 4
                (archive (resolved encode clock 0 0 files)))
  = computeCrc32 (data file)
  /\ fromLe (slice (centralStart encode files i + 16) 4
                   (archive (resolved encode clock 0 0 files)))
     = computeCrc32 (data file).
Proof.
  intros Hi.
  destruct (archive_at encode clock files i file Hi)
    as (entry & pre & suf & mid & post & -> & Hpre & Hmid & Hcrc).
  split.
  - rewrite (slice_after pre _ _ 14 4 Hpre).
    change (slice 14 4 (localRecord entry ++ suf ++ mid ++ centralRecord entry ++ post))
      with (le32 (ushr32 (crc32 entry) 0)).
    rewrite Hcrc. apply fromLe_crc.
  - replace (pre ++ localRecord entry ++ suf ++ mid ++ centralRecord entry ++ post)
      with ((pre ++ localRecord entry ++ suf ++ mid) ++ centralRecord entry ++ post)
      by (rewrite <- !app_assoc; reflexivity).
    rewrite (slice_after _ _ _ 16 4 Hmid).
    change (slice 16 4 (centralRecord entry ++ post))
      with (le32 (ushr32 (crc32 entry) 0)).
    rewrite Hcrc. apply fromLe_crc.
Qed.
End ZipCrc.


Section CrcRefinement.
Import Zip CrcSpec.
Local Open Scope Z_scope.

Lemma crcBit_lxor a b : crcBit (Z.lxor a b) = Z.lxor (crcBit a) (crcBit b).
Proof.
  unfold crcBit. rewrite Z.lxor_spec, Z.shiftr_lxor.
  set (P := 0xEDB88320). set (sa := Z.shiftr a 1). set (sb := Z.shiftr b 1).
  destruct (Z.testbit a 0), (Z.testbit b 0); simpl.
  - rewrite (Z.lxor_comm sb P), Z.lxor_assoc, <- (Z.lxor_assoc P P sb),
      Z.lxor_nilpotent, Z.lxor_0_l. reflexivity.
  - rewrite !Z.lxor_assoc. f_equal. apply Z.lxor_comm.
  - rewrite !Z.lxor_assoc. reflexivity.
  - reflexivity.
Qed.

Lemma crcBits_lxor n a b :
  Nat.iter n crcBit (Z.lxor a b) = Z.lxor (Nat.iter n crcBit a) (Nat.iter n crcBit b).
Proof. induction n as [|n IH]; simpl; [reflexivity|]. rewrite IH. apply crcBit_lxor. Qed.

Lemma crcBit_shiftl h k : 0 <= k -> crcBit (Z.shiftl h (k + 1)) = Z.shiftl h k.
Proof.
  intros Hk. unfold crcBit. rewrite Z.shiftl_spec_low by lia.
  rewrite Z.shiftr_shiftl_l by lia. f_equal. lia.
Qed.

Lemma crcBits_shiftl n h : Nat.iter n crcBit (Z.shiftl h (Z.of_nat n)) = h.
Proof.
  revert h. induction n as [|n IH]; intros h.
  - simpl. apply Z.shiftl_0_r.
  - rewrite Nat.iter_succ_r. replace (Z.of_nat (S n)) with (Z.of_nat n + 1) by lia.
    rewrite crcBit_shiftl by lia. apply IH.
Qed.

Lemma split_low_byte c :
  c = Z.lxor (c mod 2 ^ 8) (Z.shiftl (Z.shiftr c 8) 8).
Proof.
  apply Z.bits_inj'. intros n Hn. rewrite Z.lxor_spec.
  destruct (Z.lt_ge_cases n 8) as [Hlo|Hhi].
  - rewrite Z.mod_pow2_bits_low, Z.shiftl_spec_low by lia. rewrite xorb_false_r. reflexivity.
  - rewrite Z.mod_pow2_bits_high, Z.shiftl_spec_high, Z.shiftr_spec by lia.
    simpl. f_equal. lia.
Qed.

Lemma crcBits_table c :
  Nat.iter 8 crcBit c = Z.lxor (Z.shiftr c 8) (Nat.iter 8 crcBit (c mod 2 ^ 8)).
Proof.
  rewrite (split_low_byte c) at 1. rewrite crcBits_lxor.
  pose proof (crcBits_shiftl 8 (Z.shiftr c 8)) as Hh. change (Z.of_nat 8) with 8 in Hh.
  rewrite Hh. apply Z.lxor_comm.
Qed.

Lemma table_entries i :
  0 <= i < 256 -> nth (Z.to_nat i) CRC32_TABLE 0 = Nat.iter 8 crcBit i.
Proof.
  intros Hi.
  assert (Hall : forallb (fun k => nth k CRC32_TABLE 0 =? Nat.iter 8 crcBit (Z.of_nat k))
                         (seq 0 256) = true) by (vm_compute; reflexivity).
  rewrite forallb_forall in Hall.
  specialize (Hall (Z.to_nat i)). rewrite Z2Nat.id in Hall by lia.
  apply Z.eqb_eq, Hall, in_seq. lia.
Qed.

Lemma table_range i :
  0 <= i < 256 -> 0 <= nth (Z.to_nat i) CRC32_TABLE 0 < 2 ^ 32.
Proof.
  intros Hi.
  assert (Hall : forallb (fun k => (0 <=? nth k CRC32_TABLE 0)
                                   && (nth k CRC32_TABLE 0 <? 2 ^ 32))
                         (seq 0 256) = true) by (vm_compute; reflexivity).
  rewrite forallb_forall in Hall.
  specialize (Hall (Z.to_nat i)). rewrite andb_true_iff, Z.leb_le, Z.ltb_lt in Hall.
  apply Hall, in_seq. lia.
Qed.

Lemma mod_lxor a b n :
  0 <= n -> (Z.lxor a b) mod 2 ^ n = Z.lxor (a mod 2 ^ n) (b mod 2 ^ n).
Proof.
  intros Hn. apply Z.bits_inj'. intros k Hk.
  rewrite Z.lxor_spec, !Z.testbit_mod_pow2, Z.lxor_spec by lia.
  destruct (k <? n); reflexivity.
Qed.

Lemma toUint32_toInt32 v : toUint32 (toInt32 v) = v mod 2 ^ 32.
Proof.
  unfold toUint32, toInt32. rewrite Zminus_mod_idemp_l. f_equal. lia.
Qed.

Lemma toUint32_xor32 a b : toUint32 (xor32 a b) = Z.lxor (toUint32 a) (toUint32 b).
Proof. unfold xor32. rewrite toUint32_toInt32. apply mod_lxor. lia. Qed.

Lemma and32_ff v : and32 v 0xff = v mod 2 ^ 8.
Proof.
  unfold and32, toInt32. change 0xff with (Z.ones 8). rewrite Z.land_ones by lia.
  pose proof (Z.mod_pos_bound v (2 ^ 8) eq_refl) as Hb.
  rewrite Z.mod_small; lia.
Qed.

Lemma mod_mod_byte v : (v mod 2 ^ 32) mod 2 ^ 8 = v mod 2 ^ 8.
Proof.
  apply Z.mod_mod_divide. exists (2 ^ 24). reflexivity.
Qed.

Lemma byteZ_range b : 0 <= byteZ b < 2 ^ 8.
Proof.
  unfold byteZ. pose proof (Byte.to_N_bounded b) as Hb. lia.
Qed.

Lemma crcUpdate_spec s b : toUint32 (crcUpdate s b) = crcByte (toUint32 s) b.
Proof.
  unfold crcUpdate, crcByte.
  pose proof (byteZ_range b) as Hb.
  set (c := toUint32 s). set (bz := byteZ b) in *.
  assert (Hc : 0 <= c < 2 ^ 32) by (apply Z.mod_pos_bound; reflexivity).
  rewrite and32_ff.
  assert (Hidx : xor32 s bz mod 2 ^ 8 = Z.lxor c bz mod 2 ^ 8).
  { rewrite <- mod_mod_byte. fold (toUint32 (xor32 s bz)). rewrite toUint32_xor32.
    fold c. unfold toUint32. rewrite (Z.mod_small bz) by lia. reflexivity. }
  rewrite Hidx.
  pose proof (Z.mod_pos_bound (Z.lxor c bz) (2 ^ 8) eq_refl) as Hi.
  pose proof (table_range _ Hi) as Ht.
  rewrite toUint32_xor32. unfold toUint32 at 2. rewrite (Z.mod_small (nth _ _ _)) by exact Ht.
  rewrite table_entries by lia.
  rewrite (crcBits_table (Z.lxor c bz)). f_equal.
  unfold ushr32. fold c. unfold toUint32. rewrite Z.mod_small.
  - rewrite Z.shiftr_lxor. rewrite (Z.shiftr_div_pow2 bz) by lia.
    rewrite (Z.div_small bz) by lia. rewrite Z.lxor_0_r. reflexivity.
  - split; [apply Z.shiftr_nonneg; lia|].
    rewrite Z.shiftr_div_pow2 by lia.
    apply Z.div_lt_upper_bound; lia.
Qed.

Lemma crcLoop_spec data : forall s,
  toUint32 (fold_left crcUpdate data s) = fold_left crcByte data (toUint32 s).
Proof.
  induction data as [|b rest IH]; intros s; [reflexivity|].
  cbn [fold_left]. rewrite IH, crcUpdate_spec. reflexivity.
Qed.

Lemma computeCrc32_spec data : computeCrc32 data = crc32Spec data.
Proof.
  unfold computeCrc32, crc32Spec, ushr32. rewrite Z.shiftr_0_r.
  rewrite toUint32_xor32, crcLoop_spec. reflexivity.
Qed.

End CrcRefinement.

(** The check value of CRC-32: the checksum of the ASCII digits 1 to 9. *)
Example computeCrc32_check : Zip.computeCrc32 ZipExamples.checkInput = 0xCBF43926%Z.
Proof. vm_compute. reflexivity. Qed.

Example computeCrc32_empty : Zip.computeCrc32 [] = 0%Z.
Proof. vm_compute. reflexivity. Qed.

(** C4.  Two calls of createZipFromFiles on the same entries that see the
    same timestamps (the entries' own dates, and the same clock readings for
    entries without one) return the same bytes; in particular the clock does
    not matter when every entry has its date.  In the blob, bytes 14..17 of
    every entry's local header and bytes 16..19 of its central-directory
    record hold computeCrc32 of the entry's data, little-endian.  The
    table-driven computeCrc32 is the bit-by-bit CRC with the reflected
    polynomial 0xEDB88320, initial value and final XOR 0xFFFFFFFF. *)
Theorem archive_deterministic_crc (encode : string -> bytes) :
  (forall clock1 clock2 files,
     (forall k, k < ZipLayout.undated files -> clock1 k = clock2 k) ->
     Zip.createZipFromFiles encode clock1 files = Zip.createZipFromFiles encode clock2 files)
  /\ (forall clock files,
        exists blob,
          Zip.createZipFromFiles encode clock files = Some blob
          /\ forall i file,
               files !! i = Some file ->
               ZipLayout.fromLe
                 (ZipLayout.slice (ZipLayout.localStart encode files i + 14) 4 blob)
               = Zip.computeCrc32 (Zip.data file)
               /\ ZipLayout.fromLe
                    (ZipLayout.slice (ZipLayout.centralStart encode files i + 16) 4 blob)
                  = Zip.computeCrc32 (Zip.data file))
  /\ (forall data, Zip.computeCrc32 data = CrcSpec.crc32Spec data)
  /\ length Zip.CRC32_TABLE = 256.
Proof.
  split; [|split; [|split; [apply computeCrc32_spec|reflexivity]]].
  - intros clock1 clock2 files Hagree.
    rewrite !createZipFromFiles_archive. do 2 f_equal.
    apply resolved_clock_irrelevant. exact Hagree.
  - intros clock files. eexists. split; [apply createZipFromFiles_archive|].
    intros i file Hi. apply crc_fields, Hi.
Qed.

Lemma archive_deterministic_crc_witness :
  (forall k, k < ZipLayout.undated [ZipExamples.aPdf] ->
             ZipExamples.atNoon k = ZipExamples.atMidnight k)
  /\ Zip.createZipFromFiles Zip.asciiEncode ZipExamples.atNoon [ZipExamples.aPdf]
     = Zip.createZipFromFiles Zip.asciiEncode ZipExamples.atMidnight [ZipExamples.aPdf].
Proof.
  assert (H : forall k, k < ZipLayout.undated [ZipExamples.aPdf] ->
                        ZipExamples.atNoon k = ZipExamples.atMidnight k)
    by (intros k Hk; vm_compute in Hk; lia).
  split; [exact H|].
  exact (proj1 (archive_deterministic_crc Zip.asciiEncode) _ _ _ H).
Defined.

(* ===================================================================== *)
(** * Properties of the form synthesizer                                  *)
(* ===================================================================== *)

Section Synthesizer.
Import App AppSpec.
Local Open Scope Q_scope.

Lemma placeField_kept pages nameUsage placed field :
  hasPage pages field = true ->
  exists nameUsage' w,
    placeField pages (nameUsage, placed) field = (nameUsage', placed ++ [w])
    /\ placedAs pages field w.
Proof.
  unfold hasPage, placeField, placedAs, request.
  destruct (pages !! Field.pageIndex field) as [pageMeta|]; [intros _|discriminate].
  eexists _, _. split; [reflexivity|].
  exists pageMeta. repeat split; reflexivity.
Qed.

Lemma placeField_skipped pages st field :
  hasPage pages field = false -> placeField pages st field = st.
Proof.
  unfold hasPage, placeField. destruct st as [nameUsage placed].
  destruct (pages !! Field.pageIndex field); [discriminate|reflexivity].
Qed.

(** One widget for each field whose page exists, in the order of the
    fields. *)
Lemma fold_placeField pages fields : forall nameUsage placed,
  exists ws,
    snd (fold_left (placeField pages) fields (nameUsage, placed)) = placed ++ ws
    /\ Forall2 (placedAs pages) (List.filter (hasPage pages) fields) ws.
Proof.
  induction fields as [|field rest IH]; intros nameUsage placed.
  - exists []. split; [symmetry; apply app_nil_r|constructor].
  - cbn [fold_left List.filter]. destruct (hasPage pages field) eqn:Hp.
    + destruct (placeField_kept pages nameUsage placed field Hp)
        as (nameUsage' & w & -> & Hw).
      destruct (IH nameUsage' (placed ++ [w])) as (ws & -> & Hws).
      exists (w :: ws). split; [rewrite <- app_assoc; reflexivity|].
      constructor; assumption.
    + rewrite placeField_skipped by exact Hp. apply IH.
Qed.

(** With a pdf-lib that accepts everything the loop never stops early:
    the requests it makes are those of every round. *)
Lemma forEachField_recorder pages fields : forall nameUsage placed,
  forEachField recorder pages fields nameUsage placed
  = Some (snd (fold_left (placeField pages) fields (nameUsage, placed))).
Proof.
  induction fields as [|field rest IH]; intros nameUsage placed; [reflexivity|].
  cbn [forEachField fold_left]. unfold placeField at 2.
  destruct (pages !! Field.pageIndex field) as [pageMeta|]; [|apply IH].
  destruct (request pageMeta nameUsage field) as [nameUsage' w].
  cbn [addTextField recorder]. apply IH.
Qed.

Lemma widgets_fold document :
  widgets document
  = snd (fold_left (placeField (PdfDocumentRecord.pages document))
                   (PdfDocumentRecord.fields document) (∅, [])).
Proof. unfold widgets. rewrite forEachField_recorder. reflexivity. Qed.

Lemma widgets_placed document :
  Forall2 (placedAs (PdfDocumentRecord.pages document))
          (List.filter (hasPage (PdfDocumentRecord.pages document))
                       (PdfDocumentRecord.fields document))
          (widgets document).
Proof.
  rewrite widgets_fold.
  destruct (fold_placeField (PdfDocumentRecord.pages document)
              (PdfDocumentRecord.fields document) ∅ []) as (ws & -> & Hws).
  exact Hws.
Qed.



(** The requests made before a round stay in front of those made from it
    on. *)
Lemma fold_placeField_from pages fields : forall nameUsage placed,
  snd (fold_left (placeField pages) fields (nameUsage, placed))
  = placed ++ snd (fold_left (placeField pages) fields (nameUsage, [])).
Proof.
  induction fields as [|field rest IH]; intros nameUsage placed.
  - simpl. symmetry. apply app_nil_r.
  - cbn [fold_left]. unfold placeField at 2 4.
    destruct (pages !! Field.pageIndex field) as [pageMeta|]; [|apply IH].
    destruct (request pageMeta nameUsage field) as [nameUsage' w].
    rewrite (IH nameUsage' (placed ++ [w])), (IH nameUsage' ([] ++ [w])).
    rewrite <- app_assoc. reflexivity.
Qed.

(** The loop makes the requests of [placeField], in order, until one
    throws. *)
Lemma forEachField_perform pdfLib pages fields : forall nameUsage pdfDocInstance,
  forEachField pdfLib pages fields nameUsage pdfDocInstance
  = perform pdfLib (snd (fold_left (placeField pages) fields (nameUsage, [])))
      pdfDocInstance.
Proof.
  induction fields as [|field rest IH]; intros nameUsage pdfDocInstance; [reflexivity|].
  cbn [forEachField fold_left]. unfold placeField at 2.
  destruct (pages !! Field.pageIndex field) as [pageMeta|]; [|apply IH].
  destruct (request pageMeta nameUsage field) as [nameUsage' w].
  rewrite fold_placeField_from. cbn [app perform].
  destruct (addTextField pdfLib pdfDocInstance w) as [next|]; [apply IH|reflexivity].
Qed.

(** [buildFillablePdf] loads the bytes, makes the requests [widgets] in
    order until one throws, and saves. *)
Lemma buildFillablePdf_requests pdfLib document :
  buildFillablePdf pdfLib document
  = synthesized pdfLib (PdfDocumentRecord.documentData document) (widgets document).
Proof.
  unfold buildFillablePdf, synthesized. rewrite widgets_fold.
  destruct (load pdfLib (PdfDocumentRecord.documentData document)); [|reflexivity].
  rewrite forEachField_perform. reflexivity.
Qed.

(** When it returns, every request was made and accepted. *)
Lemma buildFillablePdf_returns pdfLib document data :
  buildFillablePdf pdfLib document = Some data ->
  exists loaded filled,
    load pdfLib (PdfDocumentRecord.documentData document) = Some loaded
    /\ perform pdfLib (widgets document) loaded = Some filled
    /\ save pdfLib filled = Some data.
Proof.
  rewrite buildFillablePdf_requests. unfold synthesized.
  destruct (load pdfLib (PdfDocumentRecord.documentData document)) as [loaded|];
    [|discriminate].
  destruct (perform pdfLib (widgets document) loaded) as [filled|] eqn:Hp; [|discriminate].
  intros Hs. exists loaded, filled. repeat split; assumption.
Qed.
End Synthesizer.




Section WidgetNames.
Import App AppSpec.

Lemma counts_empty : counts ∅ [].
Proof. intros b. rewrite lookup_empty. reflexivity. Qed.

Lemma counts_insert nameUsage seen b :
  counts nameUsage seen ->
  counts (<[b := default 0 (nameUsage !! b) + 1]> nameUsage) (seen ++ [b]).
Proof.
  intros Hc b'. rewrite count_occ_app. cbn [count_occ].
  destruct (String.string_dec b b') as [->|Hne].
  - rewrite lookup_insert_eq. simpl. rewrite (Hc b'). reflexivity.
  - rewrite lookup_insert_ne by exact Hne. rewrite (Hc b'). lia.
Qed.

Lemma placeField_name pages nameUsage placed field seen :
  hasPage pages field = true ->
  counts nameUsage seen ->
  exists nameUsage' w,
    placeField pages (nameUsage, placed) field = (nameUsage', placed ++ [w])
    /\ counts nameUsage' (seen ++ [baseName field])
    /\ occurrenceNames seen [baseName field] = [w_name w].
Proof.
  unfold hasPage, placeField, request. intros Hp Hc.
  destruct (pages !! Field.pageIndex field) as [pageMeta|]; [|discriminate].
  fold (baseName field). eexists _, _. split; [reflexivity|].
  split; [apply counts_insert, Hc|].
  cbn [occurrenceNames w_name]. rewrite <- (Hc (baseName field)).
  rewrite Nat.add_1_r. reflexivity.
Qed.

Lemma fold_placeField_names pages fields : forall nameUsage placed seen,
  counts nameUsage seen ->
  List.map w_name (snd (fold_left (placeField pages) fields (nameUsage, placed)))
  = List.map w_name placed
    ++ occurrenceNames seen (List.map baseName (List.filter (hasPage pages) fields)).
Proof.
  induction fields as [|field rest IH]; intros nameUsage placed seen Hc.
  - simpl. rewrite app_nil_r. reflexivity.
  - cbn [fold_left List.filter]. destruct (hasPage pages field) eqn:Hp.
    + destruct (placeField_name pages nameUsage placed field seen Hp Hc)
        as (nameUsage' & w & -> & Hc' & Hname).
      rewrite (IH _ _ _ Hc'). rewrite map_app, <- app_assoc. f_equal.
      cbn [List.map app occurrenceNames] in *. injection Hname as Hname.
      rewrite <- Hname. reflexivity.
    + rewrite placeField_skipped by exact Hp. apply IH, Hc.
Qed.

(** The names requested are the base names of the fields that have a
    page, the k-th occurrence of a base name suffixed with [_k]. *)
Lemma widget_names_by_occurrence document :
  List.map w_name (widgets document)
  = occurrenceNames []
      (List.map baseName
         (List.filter (hasPage (PdfDocumentRecord.pages document))
                      (PdfDocumentRecord.fields document))).
Proof.
  rewrite widgets_fold, (fold_placeField_names _ _ ∅ [] [] counts_empty). reflexivity.
Qed.

Lemma occurrenceNames_fresh bases : forall seen,
  List.NoDup bases -> (forall b, In b bases -> ~ In b seen) ->
  occurrenceNames seen bases = bases.
Proof.
  induction bases as [|b rest IH]; intros seen Hnd Hfresh; [reflexivity|].
  inversion Hnd as [|? ? Hb Hrest]; subst.
  cbn [occurrenceNames].
  assert (Hc : count_occ String.string_dec seen b = 0%nat)
    by (apply count_occ_not_In, Hfresh; left; reflexivity).
  rewrite Hc. cbn [Nat.eqb]. f_equal. apply IH; [exact Hrest|].
  intros b' Hin' Hseen. apply in_app_or in Hseen as [Hs|[<-|[]]].
  - apply (Hfresh b'); [right; exact Hin'|exact Hs].
  - contradiction.
Qed.

(** Fields with pairwise distinct base names keep them. *)
Lemma widget_names_distinct_bases document :
  List.NoDup (List.map baseName
                (List.filter (hasPage (PdfDocumentRecord.pages document))
                             (PdfDocumentRecord.fields document))) ->
  List.map w_name (widgets document)
  = List.map baseName
      (List.filter (hasPage (PdfDocumentRecord.pages document))
                   (PdfDocumentRecord.fields document)).
Proof.
  intros Hnd. rewrite widget_names_by_occurrence.
  apply occurrenceNames_fresh; [exact Hnd|]. intros b _ [].
Qed.
End WidgetNames.

(** C6.  The first occurrence of a base name keeps it and the k-th is
    named base_k, but the names are not always distinct: for fields named
    "a", "a" and "a_2" buildFillablePdf requests the names "a", "a_2" and
    "a_2". *)
Theorem widget_names_collide :
  List.map App.w_name (App.widgets AppExamples.clash) = ["a"; "a_2"; "a_2"]
  /\ ~ NoDup (List.map App.w_name (App.widgets AppExamples.clash)).
Proof.
  assert (H : List.map App.w_name (App.widgets AppExamples.clash) = ["a"; "a_2"; "a_2"])
    by (vm_compute; reflexivity).
  split; [exact H|]. rewrite H. intros Hnd.
  apply NoDup_cons_1_2 in Hnd. apply NoDup_cons_1_1 in Hnd.
  apply Hnd. left.
Qed.

(* ===================================================================== *)
(** * Properties of the export handlers                                   *)
(* ===================================================================== *)

Section ExportNames.
Import App AppSpec.

Lemma list_ascii_of_string_app a b :
  list_ascii_of_string (a +:+ b) = list_ascii_of_string a ++ list_ascii_of_string b.
Proof. induction a as [|c a IH]; simpl; [|rewrite IH]; reflexivity. Qed.

Lemma stripPdf_extension base ext :
  pdfExtension ext -> stripPdf (base +:+ ext) = base.
Proof.
  intros (p & d & f & -> & Hp & Hd & Hf). unfold stripPdf.
  rewrite list_ascii_of_string_app. cbn [list_ascii_of_string].
  rewrite rev_app_distr. cbn [rev app].
  assert (Hok : Ascii.eqb "."%char "."%char && isLetter "p" "P" p
                && isLetter "d" "D" d && isLetter "f" "F" f = true).
  { destruct Hp as [-> | ->], Hd as [-> | ->], Hf as [-> | ->]; reflexivity. }
  rewrite Hok, rev_involutive. apply string_of_list_ascii_of_string.
Qed.

Lemma exportName_extension base ext :
  pdfExtension ext -> exportName (base +:+ ext) = base +:+ "-fillable.pdf".
Proof. intros He. unfold exportName. rewrite stripPdf_extension by exact He. reflexivity. Qed.
End ExportNames.

Section ExportAll.
Import App AppSpec.
Variable pdfLib : PdfLib.
Variable encode : string -> bytes.
Variable clock : nat -> Zip.Date.

Lemma collectFiles_exact snapshot : forall files result,
  collectFiles pdfLib snapshot files = Some result ->
  exists added,
    result = files ++ added
    /\ Forall2 (exportedAs pdfLib) (List.filter hasFields snapshot) added.
Proof.
  induction snapshot as [|document rest IH]; intros files result; cbn [collectFiles].
  - intros [= <-]. exists []. split; [symmetry; apply app_nil_r|constructor].
  - cbn [List.filter]. unfold hasFields at 1.
    destruct (length (PdfDocumentRecord.fields document) =? 0)%nat; cbn [negb].
    + apply IH.
    + destruct (buildFillablePdf pdfLib document) as [data|] eqn:Hb; [|discriminate].
      intros Hrest. destruct (IH _ _ Hrest) as (added & -> & Hadded).
      eexists (_ :: added). split; [rewrite <- app_assoc; reflexivity|].
      constructor; [|exact Hadded]. repeat split. exact Hb.
Qed.

Lemma collectFiles_total snapshot : forall files,
  (forall document, In document snapshot -> hasFields document = true ->
                    is_Some (buildFillablePdf pdfLib document)) ->
  is_Some (collectFiles pdfLib snapshot files).
Proof.
  induction snapshot as [|document rest IH]; intros files Hall; cbn [collectFiles].
  - eauto.
  - assert (Hrest : forall d, In d rest -> hasFields d = true ->
                              is_Some (buildFillablePdf pdfLib d))
      by (intros d Hd; apply Hall; right; exact Hd).
    destruct (length (PdfDocumentRecord.fields document) =? 0)%nat eqn:E.
    + apply IH, Hrest.
    + destruct (Hall document (or_introl eq_refl)) as [data ->].
      * unfold hasFields. rewrite E. reflexivity.
      * apply IH, Hrest.
Qed.

Lemma filter_hasFields_nil snapshot :
  (forall document, In document snapshot -> PdfDocumentRecord.fields document = []) ->
  List.filter hasFields snapshot = [].
Proof.
  induction snapshot as [|document rest IH]; intros Hall; [reflexivity|].
  cbn [List.filter]. unfold hasFields at 1.
  rewrite (Hall document (or_introl eq_refl)). simpl.
  apply IH. intros d Hd. apply Hall. right. exact Hd.
Qed.

Lemma handleExportAll_download snapshot name blob :
  download (handleExportAll pdfLib encode clock snapshot) = Some (name, blob) ->
  name = "fillable-pdfs.zip"
  /\ error (handleExportAll pdfLib encode clock snapshot) = None
  /\ exists files,
       Zip.createZipFromFiles encode clock files = Some blob
       /\ Forall2 (exportedAs pdfLib) (List.filter hasFields snapshot) files.
Proof.
  unfold handleExportAll.
  destruct (length snapshot =? 0)%nat; [discriminate|].
  destruct (collectFiles pdfLib snapshot []) as [files|] eqn:Hc; [|discriminate].
  destruct (length files =? 0)%nat; [discriminate|].
  destruct (Zip.createZipFromFiles encode clock files) as [zipBlob|] eqn:Hz; [|discriminate].
  cbn [download error]. intros [= <- <-]. split; [reflexivity|]. split; [reflexivity|].
  exists files. split; [exact Hz|].
  destruct (collectFiles_exact _ _ _ Hc) as (added & -> & Hadded). exact Hadded.
Qed.

Lemma handleExportAll_succeeds snapshot :
  (exists document, In document snapshot /\ hasFields document = true) ->
  (forall document, In document snapshot -> hasFields document = true ->
                    is_Some (buildFillablePdf pdfLib document)) ->
  is_Some (download (handleExportAll pdfLib encode clock snapshot)).
Proof.
  intros (d0 & Hin0 & Hf0) Hall. unfold handleExportAll.
  destruct snapshot as [|document rest]; [destruct Hin0|]. cbn [length Nat.eqb].
  destruct (collectFiles_total (document :: rest) [] Hall) as [files Hc]. rewrite Hc.
  destruct (collectFiles_exact _ _ _ Hc) as (added & -> & Hadded).
  assert (Hne : length added <> 0%nat).
  { apply Forall2_length in Hadded. rewrite <- Hadded.
    assert (Hd : In d0 (List.filter hasFields (document :: rest)))
      by (apply filter_In; split; assumption).
    destruct (List.filter hasFields (document :: rest)); [destruct Hd|simpl; lia]. }
  cbn [app]. apply Nat.eqb_neq in Hne. rewrite Hne.
  rewrite createZipFromFiles_archive. cbn [download]. eauto.
Qed.

Lemma handleExportAll_empty snapshot :
  (forall document, In document snapshot -> PdfDocumentRecord.fields document = []) ->
  is_Some (error (handleExportAll pdfLib encode clock snapshot))
  /\ download (handleExportAll pdfLib encode clock snapshot) = None.
Proof.
  intros Hall. unfold handleExportAll.
  destruct (length snapshot =? 0)%nat; [split; [eauto|reflexivity]|].
  destruct (collectFiles pdfLib snapshot []) as [files|] eqn:Hc;
    [|split; [eauto|reflexivity]].
  destruct (collectFiles_exact _ _ _ Hc) as (added & -> & Hadded).
  rewrite (filter_hasFields_nil _ Hall) in Hadded. inversion Hadded; subst.
  cbn. split; [eauto|reflexivity].
Qed.
End ExportAll.

(** C9.  An archive downloaded by handleExportAll holds exactly the
    documents with at least one field, in order, each under its file name
    with a trailing .pdf (any case) replaced by -fillable.pdf, and it is
    produced whenever some document has a field and every synthesis
    succeeds; when no document has a field an error is reported and nothing
    is downloaded; handleExportCurrent on a document without fields reports
    an error and produces no bytes. *)
Theorem export_orchestration
    (pdfLib : App.PdfLib)
    (encode : string -> bytes) (clock : nat -> Zip.Date) :
  (forall snapshot name blob,
     App.download (App.handleExportAll pdfLib encode clock snapshot) = Some (name, blob) ->
     name = "fillable-pdfs.zip"
     /\ App.error (App.handleExportAll pdfLib encode clock snapshot) = None
     /\ exists files,
          Zip.createZipFromFiles encode clock files = Some blob
          /\ Forall2 (AppSpec.exportedAs pdfLib)
                     (List.filter AppSpec.hasFields snapshot) files)
  /\ (forall snapshot,
        (exists document, In document snapshot /\ AppSpec.hasFields document = true) ->
        (forall document, In document snapshot -> AppSpec.hasFields document = true ->
                          is_Some (App.buildFillablePdf pdfLib document)) ->
        is_Some (App.download (App.handleExportAll pdfLib encode clock snapshot)))
  /\ (forall base ext,
        AppSpec.pdfExtension ext ->
        App.exportName (base +:+ ext) = base +:+ "-fillable.pdf")
  /\ (forall snapshot,
        (forall document, In document snapshot -> PdfDocumentRecord.fields document = []) ->
        is_Some (App.error (App.handleExportAll pdfLib encode clock snapshot))
        /\ App.download (App.handleExportAll pdfLib encode clock snapshot) = None)
  /\ (forall document,
        PdfDocumentRecord.fields document = [] ->
        App.handleExportCurrent pdfLib (Some document)
        = {| App.error := Some "Nothing to export yet. Add fields first.";
             App.download := None |}).
Proof.
  split; [|split; [|split; [|split]]].
  - apply handleExportAll_download.
  - apply handleExportAll_succeeds.
  - apply exportName_extension.
  - apply handleExportAll_empty.
  - intros document Hf. unfold App.handleExportCurrent. rewrite Hf. reflexivity.
Qed.

Lemma export_orchestration_witness :
  (forall document, In document [AppExamples.blankDoc; AppExamples.blankDoc] ->
                    PdfDocumentRecord.fields document = [])
  /\ App.download (App.handleExportAll AppExamples.echo Zip.asciiEncode ZipExamples.atNoon
                     [AppExamples.blankDoc; AppExamples.blankDoc]) = None.
Proof.
  assert (H : forall document, In document [AppExamples.blankDoc; AppExamples.blankDoc] ->
                               PdfDocumentRecord.fields document = []).
  { intros document [<-|[<-|[]]]; reflexivity. }
  split; [exact H|].
  exact (proj2 (proj1 (proj2 (proj2 (proj2
           (export_orchestration AppExamples.echo Zip.asciiEncode ZipExamples.atNoon))))
           _ H)).
Defined.

Example exportName_upper : App.exportName "Form.PDF" = "Form-fillable.pdf".
Proof. reflexivity. Qed.

Example exportName_inner : App.exportName "a.pdf.txt" = "a.pdf.txt-fillable.pdf".
Proof. reflexivity. Qed.

(* ===================================================================== *)
(** * Properties of the field editor                                      *)
(* ===================================================================== *)

Section EditorGeometry.
Import Editor EditorSpec.
Local Open Scope Q_scope.

(** One axis of a resize from the handle at the near edge ([n] or [w]):
    the far edge stays where it was. *)
Lemma near_axis (p s d m L : Q) :
  0 <= p -> m <= s -> p + s <= L -> 0 <= m ->
  let newP := clamp (p + d) 0 (p + s - m) in
  let size := clamp (s + (p - newP)) m L in
  let bounded := clamp newP 0 (L - size) in
  0 <= bounded /\ bounded + Qmin size (L - bounded) == p + s
  /\ m <= Qmin size (L - bounded).
Proof.
  intros. subst newP size bounded. unfold clamp. minmax_cases; repeat split; lra.
Qed.

(** One axis of a resize from the handle at the far edge ([s] or [e]):
    the near edge stays where it was. *)
Lemma far_axis (p s d m L : Q) :
  0 <= p -> m <= s -> p + s <= L ->
  let size := clamp (s + d) m (L - p) in
  let bounded := clamp p 0 (L - size) in
  bounded == p /\ m <= Qmin size (L - bounded)
  /\ bounded + Qmin size (L - bounded) <= L.
Proof.
  intros. subst size bounded. unfold clamp. minmax_cases; repeat split; lra.
Qed.
End EditorGeometry.

Ltac handle_letters :=
  repeat match goal with
    | |- context [Editor.includes ?h ?c] =>
        let v := eval vm_compute in (Editor.includes h c) in
        change (Editor.includes h c) with v
    end; cbv iota.

Ltac editor_unfold :=
  unfold Editor.onPointerMove; handle_letters;
  cbn [Field.spread Field.x Field.y Field.width Field.height Editor.box Editor.position
       default from_option Field.p_x Field.p_y Field.p_width Field.p_height
       Editor.startInteraction Editor.o_x Editor.o_y Editor.o_width Editor.o_height
       Editor.withVertical Editor.withHorizontal Editor.pointerX Editor.pointerY];
  unfold id.

(** The facts of both axes for a field that lies on the page with the
    minimum size. *)
Ltac axis_facts field pageMeta down move :=
  assert (0 <= App.MIN_FIELD_WIDTH)%Q by (unfold App.MIN_FIELD_WIDTH; lra);
  assert (0 <= App.MIN_FIELD_HEIGHT)%Q by (unfold App.MIN_FIELD_HEIGHT; lra);
  pose proof (near_axis (Field.x field) (Field.width field) (fst move - fst down)
                App.MIN_FIELD_WIDTH (PageMeta.width pageMeta)
                ltac:(assumption) ltac:(assumption) ltac:(assumption) ltac:(assumption));
  pose proof (near_axis (Field.y field) (Field.height field) (snd move - snd down)
                App.MIN_FIELD_HEIGHT (PageMeta.height pageMeta)
                ltac:(assumption) ltac:(assumption) ltac:(assumption) ltac:(assumption));
  pose proof (far_axis (Field.x field) (Field.width field) (fst move - fst down)
                App.MIN_FIELD_WIDTH (PageMeta.width pageMeta)
                ltac:(assumption) ltac:(assumption) ltac:(assumption));
  pose proof (far_axis (Field.y field) (Field.height field) (snd move - snd down)
                App.MIN_FIELD_HEIGHT (PageMeta.height pageMeta)
                ltac:(assumption) ltac:(assumption) ltac:(assumption));
  cbv zeta in *.

(** X1.  Dragging the body of an overlay (no handle) changes the position
    only: the size is kept, and on a page at least as large as the field
    the moved field lies on the page, wherever the pointer went and wherever
    the field was; when the shifted rectangle is on the page the field
    follows the pointer exactly. *)
Theorem drag_keeps_size_and_page (pageMeta : PageMeta.t) (field : Field.t)
    (down move : Q * Q) :
  (Field.width field <= PageMeta.width pageMeta)%Q ->
  (Field.height field <= PageMeta.height pageMeta)%Q ->
  let dx := (fst move - fst down)%Q in
  let dy := (snd move - snd down)%Q in
  let moved :=
    Field.spread field
      (Editor.onPointerMove (Editor.startInteraction (fst down) (snd down) field) None
         pageMeta (fst move) (snd move)) in
  EditorSpec.onPage pageMeta moved
  /\ Field.width moved = Field.width field
  /\ Field.height moved = Field.height field
  /\ (0 <= Field.x field + dx ->
      Field.x field + dx + Field.width field <= PageMeta.width pageMeta ->
      Field.x moved == Field.x field + dx)%Q
  /\ (0 <= Field.y field + dy ->
      Field.y field + dy + Field.height field <= PageMeta.height pageMeta ->
      Field.y moved == Field.y field + dy)%Q.
Proof.
  intros Hw Hh dx dy moved. subst dx dy moved.
  unfold EditorSpec.onPage. editor_unfold. unfold Editor.clamp.
  split; [|split; [reflexivity|split; [reflexivity|split]]].
  - minmax_cases; repeat split; lra.
  - intros ? ?. minmax_cases; lra.
  - intros ? ?. minmax_cases; lra.
Qed.

Lemma drag_keeps_size_and_page_witness :
  let moved :=
    Field.spread StoreExamples.manual
      (Editor.onPointerMove (Editor.startInteraction 0 0 StoreExamples.manual) None
         DetectionExamples.a4 1000 5) in
  EditorSpec.onPage DetectionExamples.a4 moved
  /\ Field.width moved = 150%Q /\ Field.height moved = 24%Q.
Proof.
  pose proof (drag_keeps_size_and_page DetectionExamples.a4 StoreExamples.manual
                (0, 0)%Q (1000, 5)%Q) as H.
  cbv zeta in H.
  destruct H as (Hp & Hw & Hh & _); [vm_compute; discriminate ..|].
  split; [exact Hp|split; [exact Hw|exact Hh]].
Defined.

(** X2.  Resizing by any of the four handles keeps the editor's
    invariants: a field that lies on its page with at least the minimum
    size (80 by 22) still does after the pointer moved, by any amount in
    any direction. *)
Theorem resize_keeps_field_well_sized (pageMeta : PageMeta.t) (field : Field.t)
    (handle : Editor.Handle) (down move : Q * Q) :
  EditorSpec.wellSized pageMeta field ->
  EditorSpec.wellSized pageMeta
    (Field.spread field
       (Editor.onPointerMove (Editor.startInteraction (fst down) (snd down) field)
          (Some handle) pageMeta (fst move) (snd move))).
Proof.
  intros [(Hx & Hy & Hr & Hb) [Hw Hh]].
  axis_facts field pageMeta down move.
  unfold EditorSpec.wellSized, EditorSpec.onPage.
  destruct handle; editor_unfold; repeat split; lra.
Qed.

Lemma resize_keeps_field_well_sized_witness :
  EditorSpec.wellSized DetectionExamples.a4
    (Field.spread StoreExamples.manual
       (Editor.onPointerMove (Editor.startInteraction 250 124 StoreExamples.manual)
          (Some Editor.se) DetectionExamples.a4 1000 0)).
Proof.
  apply (resize_keeps_field_well_sized DetectionExamples.a4 StoreExamples.manual
           Editor.se (250, 124)%Q (1000, 0)%Q).
  unfold EditorSpec.wellSized, EditorSpec.onPage.
  repeat split; vm_compute; discriminate.
Defined.



Section EditorStore.
Import Store Editor.

Lemma updateDocument_ext docs d u u' :
  (forall doc, In doc docs -> u doc = u' doc) ->
  updateDocument docs d u = updateDocument docs d u'.
Proof.
  intros H. unfold updateDocument. apply List.map_ext_in. intros doc Hin.
  destruct (String.eqb _ d); [apply H, Hin|reflexivity].
Qed.

Lemma updateDocument_compose docs d u1 u2 :
  keepsRecord u1 ->
  updateDocument (updateDocument docs d u1) d u2
  = updateDocument docs d (fun doc => u2 (u1 doc)).
Proof.
  intros Hk. unfold updateDocument. rewrite List.map_map. apply List.map_ext.
  intros doc. destruct (String.eqb (PdfDocumentRecord.id doc) d) eqn:E.
  - rewrite Hk, E. reflexivity.
  - rewrite E. reflexivity.
Qed.

(** A later patch that sets every key of an earlier one replaces it. *)
Lemma updateField_overwrite d i p1 p2 s :
  (forall f, Field.id (Field.spread f p1) = Field.id f) ->
  (forall f, Field.spread (Field.spread f p1) p2 = Field.spread f p2) ->
  updateField d i p2 (updateField d i p1 s) = updateField d i p2 s.
Proof.
  intros Hid Hcover. unfold updateField. cbn [documents activeDocumentId]. f_equal.
  rewrite updateDocument_compose by (intros doc; reflexivity).
  apply updateDocument_ext. intros doc _. unfold withFields.
  cbn [PdfDocumentRecord.id PdfDocumentRecord.fileName PdfDocumentRecord.pdfDoc
       PdfDocumentRecord.documentData PdfDocumentRecord.pages PdfDocumentRecord.fields
       PdfDocumentRecord.selectedFieldId].
  f_equal. rewrite List.map_map. apply List.map_ext. intros f.
  destruct (String.eqb (Field.id f) i) eqn:E.
  - rewrite Hid, E. apply Hcover.
  - rewrite E. reflexivity.
Qed.

Lemma onPointerMove_overwrite origin handle pageMeta a b f :
  Field.spread (Field.spread f (onPointerMove origin handle pageMeta (fst a) (snd a)))
               (onPointerMove origin handle pageMeta (fst b) (snd b))
  = Field.spread f (onPointerMove origin handle pageMeta (fst b) (snd b)).
Proof. destruct handle as [handle|]; reflexivity. Qed.

Lemma onPointerMove_id origin handle pageMeta a f :
  Field.id (Field.spread f (onPointerMove origin handle pageMeta (fst a) (snd a)))
  = Field.id f.
Proof. destruct handle as [handle|]; reflexivity. Qed.
End EditorStore.

(** X4.  The moves of one gesture do not add up: every move is computed
    from the rectangle the field had when the pointer went down, so the
    store after a whole gesture is the store after its last move alone. *)
Theorem gesture_last_move_wins (documentId : string) (field : Field.t)
    (handle : option Editor.Handle) (pageMeta : PageMeta.t) (down : Q * Q)
    (moves : list (Q * Q)) (move : Q * Q) (state : Store.PdfState) :
  Editor.gesture documentId field handle pageMeta down (moves ++ [move]) state
  = Editor.gesture documentId field handle pageMeta down [move] state.
Proof.
  unfold Editor.gesture. rewrite fold_left_app. cbn [fold_left].
  generalize (Store.selectField documentId (Some (Field.id field)) state) as s.
  induction moves as [|a moves IH]; intros s; [reflexivity|].
  cbn [fold_left]. rewrite IH. apply updateField_overwrite; intros f.
  - apply onPointerMove_id.
  - apply onPointerMove_overwrite.
Qed.

Section EditorAdd.
Import Store Editor.

Lemma find_updateDocument docs d u a :
  keepsRecord u ->
  List.find (fun document => String.eqb (PdfDocumentRecord.id document) a)
            (updateDocument docs d u)
  = (fun doc => if String.eqb (PdfDocumentRecord.id doc) d then u doc else doc)
    <$> List.find (fun document => String.eqb (PdfDocumentRecord.id document) a) docs.
Proof.
  intros Hk. induction docs as [|doc docs IH]; [reflexivity|].
  cbn [updateDocument List.map List.find]. fold (updateDocument docs d u).
  assert (E : PdfDocumentRecord.id
                (if String.eqb (PdfDocumentRecord.id doc) d then u doc else doc)
              = PdfDocumentRecord.id doc).
  { destruct (String.eqb (PdfDocumentRecord.id doc) d); [apply Hk|reflexivity]. }
  rewrite E. destruct (String.eqb (PdfDocumentRecord.id doc) a); [reflexivity|exact IH].
Qed.

Lemma activeDocument_id s doc :
  activeDocument s = Some doc -> activeDocumentId s = Some (PdfDocumentRecord.id doc).
Proof.
  unfold activeDocument. destruct (activeDocumentId s) as [a|]; [|discriminate].
  intros H. apply List.find_some in H as [_ H]. apply String.eqb_eq in H. congruence.
Qed.
End EditorAdd.

(** X5.  A double click on a page of the active document that is at least
    150 by 24 appends one field to that document and selects it: the field
    is 150 by 24, on the clicked page and inside it, its corner at the
    click when there is room, and it is named after the page and the number
    of fields the page then has. *)
Theorem add_field_at_appends_default_box (fieldId : string) (pageIndex : nat)
    (rawX rawY : Q) (state : Store.PdfState) (document : PdfDocumentRecord.t)
    (pageMeta : PageMeta.t) :
  Editor.activeDocument state = Some document ->
  List.find (fun meta => Nat.eqb (PageMeta.index meta) pageIndex)
            (PdfDocumentRecord.pages document) = Some pageMeta ->
  (150 <= PageMeta.width pageMeta)%Q ->
  (24 <= PageMeta.height pageMeta)%Q ->
  exists f,
    Editor.activeDocument (Editor.handleAddFieldAt fieldId pageIndex rawX rawY state)
    = Some (Store.withFields document (PdfDocumentRecord.fields document ++ [f])
              (Some fieldId))
    /\ Field.id f = fieldId /\ Field.pageIndex f = pageIndex
    /\ PageMeta.index pageMeta = pageIndex
    /\ EditorSpec.wellSized pageMeta f
    /\ Field.width f = 150%Q /\ Field.height f = 24%Q
    /\ Field.name f
       = Editor.manualName pageIndex
           (S (length (List.filter (fun g => Nat.eqb (Field.pageIndex g) pageIndex)
                                   (PdfDocumentRecord.fields document))))
    /\ (0 <= rawX -> rawX + 150 <= PageMeta.width pageMeta -> Field.x f == rawX)%Q
    /\ (0 <= rawY -> rawY + 24 <= PageMeta.height pageMeta -> Field.y f == rawY)%Q.
Proof.
  intros Hactive Hpage Hw Hh. unfold Editor.handleAddFieldAt. rewrite Hactive, Hpage.
  eexists. split.
  { pose proof (activeDocument_id _ _ Hactive) as Hid.
    unfold Editor.activeDocument in *. unfold Store.addField.
    cbn [Store.activeDocumentId Store.documents]. rewrite Hid in *.
    rewrite find_updateDocument by (intros doc; reflexivity).
    rewrite Hactive. cbn [fmap option_fmap option_map].
    rewrite String.eqb_refl. reflexivity. }
  split; [reflexivity|]. split; [reflexivity|]. split.
  { apply List.find_some in Hpage as [_ H]. apply Nat.eqb_eq, H. }
  unfold EditorSpec.wellSized, EditorSpec.onPage, App.MIN_FIELD_WIDTH,
    App.MIN_FIELD_HEIGHT, Editor.clamp.
  cbn [Field.x Field.y Field.width Field.height Field.name].
  rewrite Nat.add_1_r.
  split; [|split; [reflexivity|split; [reflexivity|split; [reflexivity|split]]]].
  + minmax_cases; repeat split; lra.
  + intros ? ?. minmax_cases; lra.
    + intros ? ?. minmax_cases; lra.
Qed.

Lemma add_field_at_appends_default_box_witness :
  exists f,
    Editor.activeDocument (Editor.handleAddFieldAt "f1" 0 100 100 EditorExamples.opened)
    = Some (Store.withFields EditorExamples.sheet [f] (Some "f1"))
    /\ Field.name f = "page1_manual_1".
Proof.
  destruct (add_field_at_appends_default_box "f1" 0 100 100 EditorExamples.opened
              EditorExamples.sheet DetectionExamples.a4)
    as (f & Hdoc & _ & _ & _ & _ & _ & _ & Hname & _);
    [reflexivity|reflexivity|vm_compute; discriminate ..|].
  exists f. split; [exact Hdoc|exact Hname].
Defined.

Section EditorNames.
Import Editor.

Lemma trimStart_head chars c rest :
  trimStart chars = c :: rest -> isSpace c = false.
Proof.
  induction chars as [|a chars IH]; [discriminate|].
  cbn [trimStart]. destruct (isSpace a) eqn:E; [exact IH|].
  intros [= <- _]. exact E.
Qed.

Lemma trimStart_suffix chars :
  exists pre, chars = pre ++ trimStart chars /\ forallb isSpace pre = true.
Proof.
  induction chars as [|a chars (pre & IH & Hpre)]; [exists []; split; reflexivity|].
  cbn [trimStart]. destruct (isSpace a) eqn:E.
  - exists (a :: pre). cbn [forallb]. rewrite E, Hpre. split; [|reflexivity].
    cbn [app]. f_equal. exact IH.
  - exists []. split; reflexivity.
Qed.

Lemma trimStart_blank chars :
  forallb isSpace chars = true -> trimStart chars = [].
Proof.
  induction chars as [|a chars IH]; [reflexivity|].
  cbn [forallb trimStart]. intros [Ha H]%andb_true_iff. rewrite Ha. apply IH, H.
Qed.

Lemma trim_chars value :
  list_ascii_of_string (trim value)
  = rev (trimStart (rev (trimStart (list_ascii_of_string value)))).
Proof. unfold trim. apply list_ascii_of_string_of_list_ascii. Qed.

Lemma length_chars (s : string) :
  String.length s = length (list_ascii_of_string s).
Proof. induction s as [|c s IH]; [reflexivity|]. cbn. f_equal. exact IH. Qed.
End EditorNames.

(** X6.  The name committed when the name input loses focus is never
    empty.  It is the trimmed text, without white space at either end, when
    the text holds a character that is not white space; for an empty or
    blank text it is the fallback made of the page number and the last four
    characters of the field's id. *)
Theorem committed_name_never_blank (field : Field.t) (value : string) :
  let name := Editor.committedName field value in
  let fallback :=
    "page" +:+ pretty (Field.pageIndex field + 1)%nat +:+ "_field_"
    +:+ Editor.sliceLast 4 (Field.id field) in
  name <> ""
  /\ (forallb Editor.isSpace (list_ascii_of_string value) = true -> name = fallback)
  /\ (forallb Editor.isSpace (list_ascii_of_string value) = false ->
      name = Editor.trim value
      /\ (forall c rest, list_ascii_of_string name = c :: rest ->
                         Editor.isSpace c = false)
      /\ (forall front c, list_ascii_of_string name = front ++ [c] ->
                          Editor.isSpace c = false)).
Proof.
  intros name fallback. subst name fallback. unfold Editor.committedName.
  pose proof (trim_chars value) as Hchars.
  rewrite (length_chars (Editor.trim value)), Hchars.
  destruct (trimStart_suffix (list_ascii_of_string value)) as (pre & Hpre & Hblank).
  destruct (Editor.trimStart (list_ascii_of_string value)) as [|h t] eqn:Ht.
  - (* blank text *)
    cbn. split; [discriminate|]. split; [reflexivity|].
    intros Hn. rewrite Hpre, app_nil_r in Hn. congruence.
  - destruct (trimStart_suffix (rev (h :: t))) as (pre' & Hpre' & _).
    pose proof (trimStart_head _ _ _ Ht) as Hh.
    destruct (Editor.trimStart (rev (h :: t))) as [|h' t'] eqn:Ht'.
    { exfalso. rewrite app_nil_r in Hpre'. subst pre'.
      cbn [rev] in Ht'. clear -Ht' Hh.
      induction (rev t) as [|a l IH]; cbn [app Editor.trimStart] in Ht'.
      - rewrite Hh in Ht'. discriminate.
      - destruct (Editor.isSpace a); [apply IH, Ht'|discriminate]. }
    assert (Hlen : (0 <? length (rev (h' :: t')))%nat = true).
    { apply Nat.ltb_lt. rewrite length_rev. cbn. lia. }
    rewrite Hlen. split; [|split].
    + intros E. rewrite E in Hchars. cbn [list_ascii_of_string] in Hchars.
      apply (f_equal (@length ascii)) in Hchars. rewrite length_rev in Hchars.
      discriminate.
    + intros Hn. exfalso. rewrite Hpre in Ht.
      assert (Hall : forallb Editor.isSpace (h :: t) = true).
      { rewrite Hpre, forallb_app in Hn. apply andb_true_iff in Hn as [_ Hn]. exact Hn. }
      cbn [forallb] in Hall. rewrite Hh in Hall. discriminate.
    + intros _. split; [reflexivity|]. rewrite Hchars. split.
      * intros c rest E. apply (f_equal (@rev ascii)) in E.
        rewrite rev_involutive in E. cbn [rev] in E.
        rewrite E in Hpre'. apply (f_equal (@rev ascii)) in Hpre'.
        rewrite rev_involutive, !rev_app_distr in Hpre'. cbn [rev app] in Hpre'.
        injection Hpre' as -> _. exact Hh.
      * intros front c E. apply (f_equal (@rev ascii)) in E.
        rewrite rev_involutive, rev_app_distr in E. cbn [rev app] in E.
        injection E as -> _. exact (trimStart_head _ _ _ Ht').
Qed.

(* ===================================================================== *)
(** * More properties of the store                                        *)
(* ===================================================================== *)

Section StoreActive.
Import Store.

Lemma map_id_nil (docs : list PdfDocumentRecord.t) :
  List.map PdfDocumentRecord.id docs = [] -> docs = [].
Proof. destruct docs; [reflexivity|discriminate]. Qed.

Lemma existsb_id docs i :
  existsb (fun document => String.eqb (PdfDocumentRecord.id document) i) docs = true
  <-> In i (List.map PdfDocumentRecord.id docs).
Proof.
  rewrite existsb_exists, in_map_iff. split.
  - intros (doc & Hin & E). apply String.eqb_eq in E. exists doc. split; assumption.
  - intros (doc & E & Hin). exists doc. split; [exact Hin|]. apply String.eqb_eq, E.
Qed.

Lemma apply_keeps_activeTracked o s : activeTracked s -> activeTracked (apply o s).
Proof.
  unfold activeTracked. intros H.
  destruct (targets o) as [d|] eqn:Ht.
  { destruct (targets_shape o d s Ht) as (u & Hu & Hdocs & Hact).
    rewrite Hact, Hdocs. destruct (activeDocumentId s) as [a|].
    - rewrite updateDocument_ids by exact Hu. exact H.
    - rewrite H. reflexivity. }
  destruct o; try discriminate; cbn [apply].
  - (* addDocument *)
    cbn [addDocument activeDocumentId documents].
    rewrite List.map_app. apply in_or_app. right. left. reflexivity.
  - (* removeDocument *)
    unfold removeDocument. cbn [activeDocumentId documents].
    set (remaining := List.filter _ (documents s)).
    destruct (activeDocumentId s) as [a|].
    + destruct (String.eqb_spec a id) as [->|Hne].
      * destruct remaining as [|doc rest]; [reflexivity|]. left. reflexivity.
      * apply in_map_iff in H as (doc & E & Hin). apply in_map_iff.
        exists doc. split; [exact E|]. apply filter_In. split; [exact Hin|].
        apply negb_true_iff, String.eqb_neq. congruence.
    + subst remaining. rewrite H. reflexivity.
  - (* clearAll *)
    reflexivity.
  - (* setActiveDocument *)
    cbn [setActiveDocument activeDocumentId documents].
    destruct (existsb _ (documents s)) eqn:E; [|exact H].
    apply existsb_id, E.
Qed.

Lemma reachable_activeTracked s : reachable s -> activeTracked s.
Proof.
  induction 1 as [|o s _ IH]; [reflexivity|]. apply apply_keeps_activeTracked, IH.
Qed.

Lemma find_id docs a :
  In a (List.map PdfDocumentRecord.id docs) ->
  exists doc,
    List.find (fun document => String.eqb (PdfDocumentRecord.id document) a) docs = Some doc
    /\ PdfDocumentRecord.id doc = a /\ In doc docs.
Proof.
  intros Hin. apply in_map_iff in Hin as (doc & E & Hin).
  destruct (List.find (fun document => String.eqb (PdfDocumentRecord.id document) a) docs)
    as [found|] eqn:F.
  - exists found. apply List.find_some in F as [F1 F2]. apply String.eqb_eq in F2. auto.
  - exfalso. apply (List.find_none _ _ F) in Hin. apply String.eqb_neq in Hin. auto.
Qed.

Lemma withFields_same (document : PdfDocumentRecord.t) :
  withFields document (PdfDocumentRecord.fields document)
             (PdfDocumentRecord.selectedFieldId document) = document.
Proof. destruct document; reflexivity. Qed.

Lemma updateDocument_same docs d u :
  (forall doc, In doc docs -> PdfDocumentRecord.id doc = d -> u doc = doc) ->
  updateDocument docs d u = docs.
Proof.
  intros H. induction docs as [|doc docs IH]; [reflexivity|].
  cbn [updateDocument List.map]. fold (updateDocument docs d u).
  rewrite IH by (intros; apply H; [right|]; assumption).
  destruct (String.eqb_spec (PdfDocumentRecord.id doc) d) as [E|_]; [|reflexivity].
  rewrite H; [reflexivity|left; reflexivity|exact E].
Qed.

Lemma filter_keeps_all {A} (p : A -> bool) (xs : list A) :
  (forall x, In x xs -> p x = true) -> List.filter p xs = xs.
Proof.
  intros H. induction xs as [|x xs IH]; [reflexivity|].
  cbn [List.filter]. rewrite (H x (or_introl eq_refl)), IH; [reflexivity|].
  intros y Hy. apply H. right. exact Hy.
Qed.

Lemma map_keeps_all {A} (g : A -> A) (xs : list A) :
  (forall x, In x xs -> g x = x) -> List.map g xs = xs.
Proof.
  intros H. induction xs as [|x xs IH]; [reflexivity|].
  cbn [List.map]. rewrite (H x (or_introl eq_refl)), IH; [reflexivity|].
  intros y Hy. apply H. right. exact Hy.
Qed.
End StoreActive.

(** X7.  In every state reachable from the empty store, whatever the
    arguments of the calls, the active id is absent exactly when the store
    holds no document, and otherwise the App's lookup of the active document
    finds a stored document with that id. *)
Theorem active_document_always_found (s : Store.PdfState) :
  Store.reachable s ->
  match Store.activeDocumentId s with
  | None => Store.documents s = [] /\ Editor.activeDocument s = None
  | Some a =>
      exists doc, Editor.activeDocument s = Some doc
                  /\ PdfDocumentRecord.id doc = a /\ In doc (Store.documents s)
  end.
Proof.
  intros Hr. pose proof (reachable_activeTracked s Hr) as H.
  unfold activeTracked, Editor.activeDocument in *.
  destruct (Store.activeDocumentId s) as [a|].
  - apply find_id, H.
  - split; [exact H|reflexivity].
Qed.

Lemma active_document_always_found_witness :
  exists doc, Editor.activeDocument StoreExamples.twoDocs = Some doc
              /\ PdfDocumentRecord.id doc = "B" /\ In doc (Store.documents StoreExamples.twoDocs).
Proof.
  apply (active_document_always_found StoreExamples.twoDocs).
  apply (Store.reach_step (Store.AddField "A" StoreExamples.manual)).
  apply (Store.reach_step (Store.AddDocument (StoreExamples.emptyDoc "B"))).
  apply (Store.reach_step (Store.AddDocument (StoreExamples.emptyDoc "A"))).
  apply Store.reach_initial.
Defined.

(** X8.  In a reachable state, [removeDocument] and [setActiveDocument]
    with an id that no stored document has leave the whole state as it
    was. *)
Theorem unknown_document_id_is_noop (i : string) (s : Store.PdfState) :
  Store.reachable s ->
  (forall doc, In doc (Store.documents s) -> PdfDocumentRecord.id doc <> i) ->
  Store.removeDocument i s = s /\ Store.setActiveDocument i s = s.
Proof.
  intros Hr Hno. pose proof (reachable_activeTracked s Hr) as H.
  assert (Hnot : ~ In i (List.map PdfDocumentRecord.id (Store.documents s))).
  { intros (doc & E & Hin)%in_map_iff. exact (Hno doc Hin E). }
  unfold activeTracked in H. split; apply state_eq.
  - cbn [Store.removeDocument Store.documents]. apply filter_keeps_all.
    intros doc Hin. apply negb_true_iff, String.eqb_neq, Hno, Hin.
  - cbn [Store.removeDocument Store.activeDocumentId].
    destruct (Store.activeDocumentId s) as [a|]; [|reflexivity].
    destruct (String.eqb_spec a i) as [->|_]; [contradiction|reflexivity].
  - reflexivity.
  - cbn [Store.setActiveDocument Store.activeDocumentId].
    destruct (existsb _ (Store.documents s)) eqn:E; [|reflexivity].
    apply existsb_id in E. contradiction.
Qed.

Lemma unknown_document_id_is_noop_witness :
  Store.removeDocument "Z" StoreExamples.twoDocs = StoreExamples.twoDocs
  /\ Store.setActiveDocument "Z" StoreExamples.twoDocs = StoreExamples.twoDocs.
Proof.
  apply (unknown_document_id_is_noop "Z" StoreExamples.twoDocs).
  - apply (Store.reach_step (Store.AddField "A" StoreExamples.manual)).
    apply (Store.reach_step (Store.AddDocument (StoreExamples.emptyDoc "B"))).
    apply (Store.reach_step (Store.AddDocument (StoreExamples.emptyDoc "A"))).
    apply Store.reach_initial.
  - intros doc [<-|[<-|[]]]; discriminate.
Defined.

(** X9.  [updateField] with an id that no field of the targeted documents
    has leaves the whole state as it was, whatever the patch; so does
    [removeField] when every selection of the store is valid. *)
Theorem unknown_field_id_is_noop (d i : string) (u : Field.partial) (s : Store.PdfState) :
  (forall doc f, In doc (Store.documents s) -> PdfDocumentRecord.id doc = d ->
                 In f (PdfDocumentRecord.fields doc) -> Field.id f <> i) ->
  Store.updateField d i u s = s
  /\ (storeSelectionValid s -> Store.removeField d i s = s).
Proof.
  intros Hno. split; [|intros Hvalid]; (apply state_eq; [|reflexivity]).
  - cbn [Store.updateField Store.documents]. apply updateDocument_same.
    intros doc Hin Hd. rewrite map_keeps_all; [apply withFields_same|].
    intros f Hf. pose proof (Hno doc f Hin Hd Hf) as Hne.
    apply String.eqb_neq in Hne. rewrite Hne. reflexivity.
  - cbn [Store.removeField Store.documents]. apply updateDocument_same.
    intros doc Hin Hd. rewrite filter_keeps_all.
    + specialize (Hvalid doc Hin). unfold selectionValid in Hvalid.
      destruct (PdfDocumentRecord.selectedFieldId doc) as [sel|] eqn:Hsel.
      * destruct Hvalid as (f & Hf & Hid).
        assert (Hne : sel <> i) by (rewrite <- Hid; apply (Hno doc f Hin Hd Hf)).
        apply String.eqb_neq in Hne. rewrite Hne, <- Hsel. apply withFields_same.
      * rewrite <- Hsel. apply withFields_same.
    + intros f Hf. apply negb_true_iff, String.eqb_neq, (Hno doc f Hin Hd Hf).
Qed.

Lemma unknown_field_id_is_noop_witness :
  Store.updateField "A" "ghost" (Editor.position 0 0) StoreExamples.twoDocs
  = StoreExamples.twoDocs.
Proof.
  destruct (unknown_field_id_is_noop "A" "ghost" (Editor.position 0 0)
              StoreExamples.twoDocs) as [H _]; [|exact H].
  intros doc f [<-|[<-|[]]] Hd Hf; [|discriminate Hd].
  cbn in Hf. destruct Hf as [<-|[]]. discriminate.
Defined.

(** X10.  Removing a field right after it was added, under an id that no
    field of the targeted documents had, gives the fields back as they
    were; what remains of the two calls is that the targeted documents
    have no selection, as after [selectField] without an id. *)
Theorem remove_undoes_add_field (d : string) (f : Field.t) (s : Store.PdfState) :
  (forall doc g, In doc (Store.documents s) -> PdfDocumentRecord.id doc = d ->
                 In g (PdfDocumentRecord.fields doc) -> Field.id g <> Field.id f) ->
  Store.removeField d (Field.id f) (Store.addField d f s) = Store.selectField d None s.
Proof.
  intros Hfresh. unfold Store.removeField, Store.addField, Store.selectField.
  cbn [Store.documents Store.activeDocumentId]. f_equal.
  rewrite updateDocument_compose by (intros doc; reflexivity).
  unfold Store.updateDocument. apply List.map_ext_in. intros doc Hin.
  destruct (String.eqb_spec (PdfDocumentRecord.id doc) d) as [Hd|_]; [|reflexivity].
  unfold Store.withFields.
  cbn [PdfDocumentRecord.id PdfDocumentRecord.fileName PdfDocumentRecord.pdfDoc
       PdfDocumentRecord.documentData PdfDocumentRecord.pages PdfDocumentRecord.fields
       PdfDocumentRecord.selectedFieldId].
  rewrite String.eqb_refl, List.filter_app. cbn [List.filter].
  rewrite String.eqb_refl. cbn [negb]. rewrite app_nil_r.
  rewrite filter_keeps_all; [reflexivity|].
  intros g Hg. apply negb_true_iff, String.eqb_neq, (Hfresh doc g Hin Hd Hg).
Qed.

Lemma remove_undoes_add_field_witness :
  Store.removeField "A" "d1" (Store.addField "A" StoreExamples.detected StoreExamples.twoDocs)
  = Store.selectField "A" None StoreExamples.twoDocs.
Proof.
  apply (remove_undoes_add_field "A" StoreExamples.detected StoreExamples.twoDocs).
  intros doc g [<-|[<-|[]]] Hd Hg; [|discriminate Hd].
  cbn in Hg. destruct Hg as [<-|[]]. discriminate.
Defined.

(** X11.  Removing a document right after it was added, under an id that
    no stored document had, gives the list of documents back as it was,
    but not the active id: the first stored document becomes active,
    whichever was active before. *)
Theorem remove_undoes_add_document (entry : PdfDocumentRecord.t) (s : Store.PdfState) :
  (forall doc, In doc (Store.documents s) ->
               PdfDocumentRecord.id doc <> PdfDocumentRecord.id entry) ->
  Store.documents (Store.removeDocument (PdfDocumentRecord.id entry)
                     (Store.addDocument entry s)) = Store.documents s
  /\ Store.activeDocumentId (Store.removeDocument (PdfDocumentRecord.id entry)
                               (Store.addDocument entry s))
     = PdfDocumentRecord.id <$> head (Store.documents s).
Proof.
  intros Hfresh.
  assert (E : List.filter
                (fun document => negb (String.eqb (PdfDocumentRecord.id document)
                                                  (PdfDocumentRecord.id entry)))
                (Store.documents s ++ [entry]) = Store.documents s).
  { rewrite List.filter_app. cbn [List.filter]. rewrite String.eqb_refl. cbn [negb].
    rewrite app_nil_r. apply filter_keeps_all.
    intros doc Hin. apply negb_true_iff, String.eqb_neq, Hfresh, Hin. }
  unfold Store.removeDocument, Store.addDocument.
  cbn [Store.documents Store.activeDocumentId].
  rewrite String.eqb_refl, E. split; reflexivity.
Qed.

Lemma remove_undoes_add_document_witness :
  Store.activeDocumentId
    (Store.removeDocument "C" (Store.addDocument (StoreExamples.emptyDoc "C")
                                 StoreExamples.twoDocs))
  = Some "A".
Proof.
  destruct (remove_undoes_add_document (StoreExamples.emptyDoc "C") StoreExamples.twoDocs)
    as [_ H].
  - intros doc [<-|[<-|[]]]; discriminate.
  - exact H.
Defined.

(* ===================================================================== *)
(** * Properties of the glyph measurements                                *)
(* ===================================================================== *)

Section GlyphMetricsFacts.
Import Detection GlyphSpec.
Local Open Scope Q_scope.

Lemma tiled_app c segs seg :
  tiled c (segs ++ [seg])
  <-> tiled c segs /\ seg_start seg = endOf c segs /\ (seg_start seg < seg_end seg)%nat.
Proof.
  revert c. induction segs as [|s segs IH]; intros c; cbn [app tiled endOf fold_left].
  - tauto.
  - fold (endOf (seg_end s) segs). rewrite IH. tauto.
Qed.

Lemma endOf_app c segs seg : endOf c (segs ++ [seg]) = seg_end seg.
Proof. unfold endOf. rewrite fold_left_app. reflexivity. Qed.

Lemma sumWidths_app segs seg : sumWidths (segs ++ [seg]) == sumWidths segs + seg_width seg.
Proof.
  induction segs as [|s segs IH]; cbn [app sumWidths fold_right].
  - ring.
  - fold (sumWidths (segs ++ [seg])). fold (sumWidths segs). rewrite IH. ring.
Qed.

(** The invariant of the loop of [buildGlyphMetrics]. *)
Lemma glyphStep_invariant gs : forall segs cursor total,
  tiled 0 segs -> cursor = endOf 0%nat segs -> total == sumWidths segs ->
  let '(segs', cursor', total') := fold_left glyphStep gs (segs, cursor, total) in
  tiled 0 segs' /\ cursor' = endOf 0%nat segs' /\ total' == sumWidths segs'.
Proof.
  induction gs as [|g gs IH]; intros segs cursor total Ht Hc Hs; cbn [fold_left].
  - auto.
  - destruct g as [g|]; cbn [glyphStep]; [|apply IH; assumption].
    apply IH.
    + apply tiled_app. cbn [seg_start seg_end]. split; [exact Ht|]. split; [exact Hc|].
      destruct (Nat.ltb_spec 0 (String.length (default "" (unicode g)))); lia.
    + rewrite endOf_app. reflexivity.
    + rewrite sumWidths_app, Hs. reflexivity.
Qed.
End GlyphMetricsFacts.

Lemma buildGlyphMetrics_tiled (item : Detection.TextItem)
    (metrics : Detection.GlyphMetrics) :
  Detection.buildGlyphMetrics item = Some metrics ->
  GlyphSpec.tiled 0 (Detection.segments metrics)
  /\ (Detection.totalUnits metrics == GlyphSpec.sumWidths (Detection.segments metrics))%Q
  /\ ~ (Detection.totalUnits metrics == 0)%Q.
Proof.
  unfold Detection.buildGlyphMetrics.
  destruct (Detection.glyphs item) as [gs|]; [|discriminate].
  destruct gs as [|g gs]; [discriminate|].
  pose proof (glyphStep_invariant (g :: gs) [] 0%nat 0%Q I eq_refl (Qeq_refl _)) as H.
  destruct (fold_left Detection.glyphStep (g :: gs) ([], 0%nat, 0%Q)) as [[segs cursor] total].
  destruct H as (Ht & _ & Hs).
  destruct (Qeq_bool total 0) eqn:E; [discriminate|].
  intros [= <-]. cbn [Detection.segments Detection.totalUnits].
  split; [exact Ht|]. split; [exact Hs|].
  intros H0. apply Qeq_bool_iff in H0. congruence.
Qed.

(** X12.  The glyph metrics of an item, when [buildGlyphMetrics] returns
    any, tile the string: the segments follow one another from offset 0,
    each at least one code unit long, and [totalUnits] is the sum of their
    widths and is not zero.  An item without glyphs has no metrics. *)
Theorem glyph_metrics_tile_the_string (item : Detection.TextItem) :
  (forall metrics,
     Detection.buildGlyphMetrics item = Some metrics ->
     GlyphSpec.tiled 0 (Detection.segments metrics)
     /\ (Detection.totalUnits metrics
         == GlyphSpec.sumWidths (Detection.segments metrics))%Q
     /\ ~ (Detection.totalUnits metrics == 0)%Q)
  /\ (Detection.glyphs item = None \/ Detection.glyphs item = Some [] ->
      Detection.buildGlyphMetrics item = None).
Proof.
  split; [apply buildGlyphMetrics_tiled|].
  unfold Detection.buildGlyphMetrics. intros [-> | ->]; reflexivity.
Qed.

Section MeasureFacts.
Import Detection GlyphSpec.
Local Open Scope Q_scope.

Lemma Qofnat_add a b : Qofnat (a + b) == Qofnat a + Qofnat b.
Proof. unfold Qofnat. rewrite Nat2Z.inj_add, inject_Z_plus. reflexivity. Qed.

Lemma Qofnat_nonneg n : 0 <= Qofnat n.
Proof.
  unfold Qofnat. change 0 with (inject_Z 0). rewrite <- Zle_Qle. lia.
Qed.

Lemma Qofnat_le a b : (a <= b)%nat -> Qofnat a <= Qofnat b.
Proof. intros H. unfold Qofnat. rewrite <- Zle_Qle. lia. Qed.

Lemma Qofnat_nonzero n : (0 < n)%nat -> ~ Qofnat n == 0.
Proof. intros H E. pose proof (Qofnat_pos n H) as Hp. rewrite E in Hp. lra. Qed.

Lemma covered_full seg n :
  (seg_start seg < seg_end seg)%nat -> (seg_end seg <= n)%nat ->
  covered seg n == seg_width seg.
Proof.
  intros Hs Hn. unfold covered.
  replace (Nat.min (seg_end seg) n - Nat.min (seg_start seg) n)%nat
    with (seg_end seg - seg_start seg)%nat by lia.
  field. apply Qofnat_nonzero. lia.
Qed.

Lemma covered_none seg n : (n <= seg_start seg)%nat -> (seg_start seg < seg_end seg)%nat ->
  covered seg n == 0.
Proof.
  intros Hn Hs. unfold covered.
  replace (Nat.min (seg_end seg) n - Nat.min (seg_start seg) n)%nat with 0%nat by lia.
  change (Qofnat 0) with 0. unfold Qdiv. ring.
Qed.

Lemma endOf_ge c segs : tiled c segs -> (c <= endOf c segs)%nat.
Proof.
  revert c. induction segs as [|s segs IH]; intros c; cbn [tiled endOf fold_left]; [lia|].
  fold (endOf (seg_end s) segs). intros (E & Hlt & Ht). specialize (IH _ Ht). lia.
Qed.

Lemma advance_none c segs n : tiled c segs -> (n <= c)%nat -> advance segs n == 0.
Proof.
  revert c. induction segs as [|s segs IH]; intros c; cbn [tiled advance fold_right].
  - reflexivity.
  - fold (advance segs n). intros (E & Hlt & Ht) Hn.
    rewrite covered_none by lia. rewrite (IH _ Ht) by lia. ring.
Qed.

Lemma advance_all c segs n :
  tiled c segs -> (endOf c segs <= n)%nat -> advance segs n == sumWidths segs.
Proof.
  revert c. induction segs as [|s segs IH]; intros c;
    cbn [tiled advance sumWidths fold_right endOf fold_left].
  - reflexivity.
  - fold (advance segs n). fold (sumWidths segs). fold (endOf (seg_end s) segs).
    intros (E & Hlt & Ht) Hn. pose proof (endOf_ge _ _ Ht).
    rewrite covered_full by lia. rewrite (IH _ Ht) by lia. reflexivity.
Qed.

(** What the loop of [measureRunUsingGlyphs] adds to its two counters. *)
Lemma measureLoop_spec segs : forall c rs re p r,
  tiled c segs -> (rs <= re)%nat ->
  fst (measureLoop segs rs re p r) == p + advance segs rs
  /\ snd (measureLoop segs rs re p r) == r + (advance segs re - advance segs rs).
Proof.
  induction segs as [|seg segs IH]; intros c rs re p r Ht Hle.
  - cbn. split; ring.
  - destruct Ht as (E & Hlt & Ht'). cbn [measureLoop advance fold_right].
    fold (advance segs rs). fold (advance segs re).
    destruct (Nat.leb_spec (seg_end seg) rs) as [H1|H1].
    { destruct (IH (seg_end seg) rs re (p + seg_width seg) r Ht' Hle) as [Hp Hr].
      rewrite Hp, Hr, !covered_full by lia. split; ring. }
    destruct (Nat.leb_spec re (seg_start seg)) as [H2|H2].
    { cbn [fst snd]. rewrite !covered_none by lia.
      rewrite !(advance_none (seg_end seg) segs) by (assumption || lia). split; ring. }
    set (span := Qofnat (Nat.max (seg_end seg - seg_start seg) 1)).
    match goal with
    | |- fst (measureLoop _ _ _ ?p' ?r') == _ /\ _ =>
        destruct (IH (seg_end seg) rs re p' r' Ht' Hle) as [Hp Hr];
        assert (Ep : p' == p + covered seg rs);
        [|assert (Er : r' == r + (covered seg re - covered seg rs));
          [|rewrite Hp, Hr, Ep, Er; split; ring]]
    end.
    + subst span. unfold covered.
      replace (Nat.max (seg_end seg - seg_start seg) 1) with (seg_end seg - seg_start seg)%nat
        by lia.
      destruct (Nat.ltb_spec (seg_start seg) rs) as [H3|H3].
      * replace (Nat.min (seg_end seg) rs - Nat.min (seg_start seg) rs)%nat
          with (rs - seg_start seg)%nat by lia.
        unfold Qdiv. ring.
      * replace (Nat.min (seg_end seg) rs - Nat.min (seg_start seg) rs)%nat
          with 0%nat by lia.
        change (Qofnat 0) with 0. unfold Qdiv. ring.
    + subst span. unfold covered.
      replace (Nat.max (seg_end seg - seg_start seg) 1) with (seg_end seg - seg_start seg)%nat
        by lia.
      set (overlap := (Nat.min (seg_end seg) re - Nat.max (seg_start seg) rs)%nat).
      assert (Hsplit : (Nat.min (seg_end seg) re - Nat.min (seg_start seg) re
                        = (Nat.min (seg_end seg) rs - Nat.min (seg_start seg) rs) + overlap)%nat)
        by (subst overlap; lia).
      rewrite Hsplit, Qofnat_add.
      destruct (Nat.ltb_spec 0 overlap) as [H3|H3].
      * unfold Qdiv. ring.
      * replace overlap with 0%nat by lia. change (Qofnat 0) with 0. unfold Qdiv. ring.
Qed.
End MeasureFacts.

(** X13.  On segments that tile the string, [measureRunUsingGlyphs]
    returns the advance of the text before the run as the prefix and the
    advance across the run as the run's units, a segment cut by an end of
    the run counted by the share of its code units; so the prefix of what
    follows a run is the prefix of the run plus its units, nothing lies
    before offset 0, and a run over the whole string measures the sum of
    the widths. *)
Theorem measure_run_is_advance (metrics : Detection.GlyphMetrics) (start len : nat) :
  GlyphSpec.tiled 0 (Detection.segments metrics) ->
  let segs := Detection.segments metrics in
  let measure := Detection.measureRunUsingGlyphs metrics in
  (fst (measure start len) == GlyphSpec.advance segs start)%Q
  /\ (snd (measure start len)
      == GlyphSpec.advance segs (start + len) - GlyphSpec.advance segs start)%Q
  /\ (forall len', fst (measure (start + len)%nat len')
                   == fst (measure start len) + snd (measure start len))%Q
  /\ (fst (measure 0%nat len) == 0)%Q
  /\ (GlyphSpec.endOf 0 segs <= len ->
      (snd (measure 0%nat len) == GlyphSpec.sumWidths segs)%Q).
Proof.
  intros Ht segs measure. subst segs measure. unfold Detection.measureRunUsingGlyphs.
  assert (H : forall s l,
             (fst (Detection.measureLoop (Detection.segments metrics) s (s + l) 0 0)
              == GlyphSpec.advance (Detection.segments metrics) s)%Q
             /\ (snd (Detection.measureLoop (Detection.segments metrics) s (s + l) 0 0)
                 == GlyphSpec.advance (Detection.segments metrics) (s + l)
                    - GlyphSpec.advance (Detection.segments metrics) s)%Q).
  { intros s l.
    destruct (measureLoop_spec (Detection.segments metrics) 0 s (s + l) 0 0 Ht ltac:(lia))
      as [Hp Hr].
    rewrite Hp, Hr. split; ring. }
  pose proof (advance_none 0 (Detection.segments metrics) 0 Ht (le_n 0)) as H0.
  split; [apply H|]. split; [apply H|]. split; [|split].
  - intros len'. rewrite (proj1 (H (start + len)%nat len')), (proj1 (H start len)),
      (proj2 (H start len)). ring.
  - rewrite (proj1 (H 0%nat len)). exact H0.
  - intros Hend. rewrite (proj2 (H 0%nat len)), H0.
    rewrite (advance_all 0) by (assumption || (cbn [Nat.add]; lia)). ring.
Qed.

Lemma measure_run_is_advance_witness :
  exists metrics,
    Detection.buildGlyphMetrics GlyphExamples.labelled = Some metrics
    /\ (fst (Detection.measureRunUsingGlyphs metrics 2 10) == 1000)%Q
    /\ (snd (Detection.measureRunUsingGlyphs metrics 2 10) == 2500)%Q.
Proof.
  eexists. split; [reflexivity|].
  match goal with
  | |- (fst (Detection.measureRunUsingGlyphs ?m _ _) == _)%Q /\ _ =>
      destruct (measure_run_is_advance m 2 10) as (Hp & Hr & _)
  end.
  { cbn. repeat split; lia. }
  split; [rewrite Hp|rewrite Hr]; vm_compute; reflexivity.
Defined.

Section RunExtent.
Import Detection GlyphSpec.
Local Open Scope Q_scope.

Lemma mult_nonpos (c q : Q) : c <= 0 -> 0 <= q -> c * q <= 0.
Proof. intros. nra. Qed.

Lemma scaled_extent (prefix run tot scale iw : Q) :
  0 < tot -> 0 < scale -> 0 < run -> 0 <= prefix -> prefix + run <= tot ->
  tot * scale == iw ->
  0 < run * scale /\ 0 < iw /\ 0 <= prefix * scale
  /\ prefix * scale + run * scale <= iw.
Proof. intros. repeat split; nra. Qed.

Lemma even_extent (cw a b iw : Q) :
  0 < cw -> 0 <= a -> cw * (a + b) <= iw ->
  0 <= cw * a /\ cw * a + cw * b <= iw.
Proof. intros. split; nra. Qed.

(** The rectangle of a run in terms of what is known of the item. *)
Lemma sourceRect_extent ctx start len x1 y1 x2 y2 :
  (0 < charWidth ctx ->
   0 < itemWidth ctx /\ charWidth ctx * Qofnat (start + len) <= itemWidth ctx) ->
  (0 < itemWidth ctx -> 0 < charWidth ctx) ->
  (forall metrics, glyphMetrics ctx = Some metrics ->
     0 < totalUnits metrics
     /\ 0 <= fst (measureRunUsingGlyphs metrics start len)
     /\ fst (measureRunUsingGlyphs metrics start len)
        + snd (measureRunUsingGlyphs metrics start len) <= totalUnits metrics) ->
  (0 < len)%nat ->
  sourceRect ctx start len = Some (x1, y1, x2, y2) ->
  0 < itemWidth ctx /\ x1 < x2
  /\ (if String.eqb (dir (ctx_item ctx)) "rtl"
      then baseX ctx - itemWidth ctx <= x1 /\ x2 <= baseX ctx
      else baseX ctx <= x1 /\ x2 <= baseX ctx + itemWidth ctx).
Proof.
  intros Hchar Hchar2 Hglyph Hlen. unfold sourceRect.
  assert (Hfall : forall mw off,
    mw = charWidth ctx * Qofnat len -> off = charWidth ctx * Qofnat start ->
    (0 < mw /\ 0 < itemWidth ctx /\ 0 <= off /\ off + mw <= itemWidth ctx)
    \/ (mw <= 0 /\ mw = charWidth ctx * Qofnat len)).
  { intros mw off -> ->.
    destruct (Qlt_le_dec 0 (charWidth ctx * Qofnat len)) as [Hpos|Hneg]; [left|right; auto].
    assert (Hc : 0 < charWidth ctx).
    { pose proof (Qofnat_pos len Hlen).
      destruct (Qlt_le_dec 0 (charWidth ctx)) as [|Hn]; [assumption|].
      exfalso. pose proof (mult_nonpos _ _ Hn (Qlt_le_weak _ _ H)). lra. }
    destruct (Hchar Hc) as [Hi Hle]. rewrite Qofnat_add in Hle.
    destruct (even_extent _ _ _ _ Hc (Qofnat_nonneg start) Hle) as [H1 H2].
    split; [exact Hpos|]. split; [exact Hi|]. split; assumption. }
  match goal with
  | |- (let '(a, b) := ?pairv in _) = _ -> _ =>
      assert (Hpair : forall off mw, pairv = (off, mw) ->
                (0 < mw /\ 0 < itemWidth ctx /\ 0 <= off /\ off + mw <= itemWidth ctx)
                \/ (mw <= 0 /\ mw = charWidth ctx * Qofnat len));
      [|destruct pairv as [off mw]; specialize (Hpair off mw eq_refl); cbv beta iota]
  end.
  { intros off mw. destruct (glyphMetrics ctx) as [metrics|] eqn:Hm.
    - destruct (Hglyph metrics eq_refl) as (Htot & Hp & Hsum).
      destruct (measureRunUsingGlyphs metrics start len) as [prefix run].
      cbn [fst snd] in Hp, Hsum.
      assert (Hne : Qneb (totalUnits metrics) 0 = true) by (apply Qneb_neq; lra).
      rewrite Hne.
      destruct (Qltb_reflect 0 (itemWidth ctx / totalUnits metrics)) as [[Hb Hs]|[Hb Hs]];
        unfold Qgtb; rewrite Hb; cbn [andb];
        [destruct (Qltb_reflect 0 run) as [[Hb' Hr]|[Hb' Hr]]; rewrite Hb'|];
        try (intros [= <- <-]; apply Hfall; reflexivity).
      intros [= <- <-]. left.
      set (scale := itemWidth ctx / totalUnits metrics) in *.
      assert (Hscale : totalUnits metrics * scale == itemWidth ctx).
      { subst scale. field. lra. }
      exact (scaled_extent _ _ _ _ _ Htot Hs Hr Hp Hsum Hscale).
    - intros [= <- <-]. apply Hfall; reflexivity. }
  destruct Hpair as [(Hpos & Hi & Hoff & Hsum)|(Hneg & Emw)].
  - apply Qgtb_pos in Hpos as Hb. rewrite !Hb. cbv iota. cbn [negb].
    intros [= <- <- <- <-]. split; [exact Hi|]. split; [lra|].
    destruct (String.eqb _ "rtl"); split; lra.
  - assert (Hb : Qgtb mw 0 = false) by (apply Qltb_ge; exact Hneg). rewrite !Hb. cbv iota.
    destruct (Qgtb (charWidth ctx) 0) eqn:Hc.
    + rewrite <- Emw, Hb. discriminate.
    + destruct (Qgtb (itemWidth ctx) 0) eqn:Hi; [|discriminate].
      exfalso. unfold Qgtb in Hi, Hc. apply Qltb_lt in Hi. apply Qltb_ge in Hc.
      specialize (Hchar2 Hi). lra.
Qed.
End RunExtent.

Section RunWithinItem.
Import Detection GlyphSpec DetectionSpec.
Local Open Scope Q_scope.

Lemma share_bounds (w k d : Q) :
  0 <= w -> 0 <= k -> k <= d -> 0 < d -> 0 <= w * k / d /\ w * k / d <= w.
Proof.
  intros Hw Hk Hkd Hd.
  assert (Hi : 0 < / d) by (apply Qinv_lt_0_compat; exact Hd).
  assert (E : d * / d == 1) by (field; lra).
  unfold Qdiv. set (i := / d) in *. clearbody i.
  assert (0 <= k * i) by nra. assert (k * i <= 1) by nra. split; nra.
Qed.

Lemma covered_bounds seg n :
  0 <= seg_width seg -> (seg_start seg < seg_end seg)%nat ->
  0 <= covered seg n /\ covered seg n <= seg_width seg.
Proof.
  intros Hw Hlt. unfold covered. apply share_bounds.
  - exact Hw.
  - apply Qofnat_nonneg.
  - apply Qofnat_le. lia.
  - apply Qofnat_pos. lia.
Qed.

Lemma advance_bounds c segs n :
  tiled c segs -> Forall (fun seg => 0 <= seg_width seg) segs ->
  0 <= advance segs n /\ advance segs n <= sumWidths segs.
Proof.
  revert c. induction segs as [|s segs IH]; intros c;
    cbn [tiled advance sumWidths fold_right].
  - intros _ _. split; lra.
  - fold (advance segs n). fold (sumWidths segs).
    intros (E & Hlt & Ht) Hall. inversion Hall as [|? ? Hw Hrest]; subst.
    destruct (IH _ Ht Hrest) as [H1 H2].
    destruct (covered_bounds s n Hw Hlt) as [H3 H4]. split; lra.
Qed.

Lemma glyphStep_nonneg gs : forall segs cursor total,
  (forall g w, In (Some g) gs -> glyph_width g = Some w -> 0 <= w) ->
  Forall (fun seg => 0 <= seg_width seg) segs ->
  Forall (fun seg => 0 <= seg_width seg)
         (fst (fst (fold_left glyphStep gs (segs, cursor, total)))).
Proof.
  induction gs as [|g gs IH]; intros segs cursor total Hgs Hsegs; cbn [fold_left].
  - exact Hsegs.
  - assert (Hrest : forall g' w, In (Some g') gs -> glyph_width g' = Some w -> 0 <= w)
      by (intros g' w Hin; apply Hgs; right; exact Hin).
    destruct g as [g|]; cbn [glyphStep]; [|apply IH; assumption].
    apply IH; [exact Hrest|]. apply Forall_app. split; [exact Hsegs|].
    constructor; [|constructor]. cbn [seg_width].
    destruct (glyph_width g) as [w|] eqn:Hw; cbn [default from_option]; unfold id.
    + apply (Hgs g w); [left; reflexivity|exact Hw].
    + lra.
Qed.

Lemma buildGlyphMetrics_nonneg item metrics :
  nonNegative item -> buildGlyphMetrics item = Some metrics ->
  Forall (fun seg => 0 <= seg_width seg) (segments metrics).
Proof.
  intros Hnn. unfold buildGlyphMetrics.
  destruct (glyphs item) as [gs|] eqn:Hg; [|discriminate].
  destruct gs as [|g gs]; [discriminate|].
  pose proof (glyphStep_nonneg (g :: gs) [] 0%nat 0
                (fun g' w => Hnn _ g' w Hg) ltac:(constructor)) as H.
  destruct (fold_left glyphStep (g :: gs) ([], 0%nat, 0)) as [[segs cursor] total].
  destruct (Qeq_bool total 0); [discriminate|]. intros [= <-]. exact H.
Qed.

(** What [measureRunUsingGlyphs] returns on the metrics of an item whose
    glyph widths are not negative. *)
Lemma measure_bounds item metrics start len :
  nonNegative item -> buildGlyphMetrics item = Some metrics ->
  0 < totalUnits metrics
  /\ 0 <= fst (measureRunUsingGlyphs metrics start len)
  /\ fst (measureRunUsingGlyphs metrics start len)
     + snd (measureRunUsingGlyphs metrics start len) <= totalUnits metrics.
Proof.
  intros Hnn Hm.
  destruct (buildGlyphMetrics_tiled item metrics Hm) as (Ht & Hs & Hz).
  pose proof (buildGlyphMetrics_nonneg item metrics Hnn Hm) as Hw.
  unfold measureRunUsingGlyphs.
  destruct (measureLoop_spec (segments metrics) 0 start (start + len) 0 0 Ht ltac:(lia))
    as [Hp Hr].
  destruct (advance_bounds 0 (segments metrics) start Ht Hw) as [H1 H2].
  destruct (advance_bounds 0 (segments metrics) (start + len) Ht Hw) as [H3 H4].
  rewrite Hp, Hr, Hs. split; [|split; lra].
  destruct (Qlt_le_dec 0 (sumWidths (segments metrics))) as [|Hle]; [assumption|].
  exfalso. apply Hz. lra.
Qed.

Lemma matchAll_within s start len :
  In (start, len) (matchAll s) -> (0 < len)%nat /\ (start + len <= String.length s)%nat.
Proof.
  intros Hin. apply matchAll_spec in Hin as (H3 & Hrun & _). split; [lia|].
  assert (Hlast : list_ascii_of_string s !! (start + (len - 1))%nat = Some "_"%char)
    by (apply Hrun; lia).
  apply lookup_lt_Some in Hlast. rewrite <- length_chars in Hlast. lia.
Qed.

Lemma itemContext_even sqrt item n :
  let ctx := itemContext sqrt item in
  (0 < n <= String.length (str item))%nat ->
  (0 < charWidth ctx -> 0 < itemWidth ctx /\ charWidth ctx * Qofnat n <= itemWidth ctx)
  /\ (0 < itemWidth ctx -> 0 < charWidth ctx).
Proof.
  intros ctx Hn. subst ctx. unfold itemContext.
  destruct (transform item) as [[[[[t0 t1] t2] t3] t4] t5].
  cbn [charWidth itemWidth].
  set (iw := default 0 (width item)).
  destruct (Nat.eqb_spec (String.length (str item)) 0) as [E|_]; [lia|].
  assert (Hb : (0 <? String.length (str item))%nat = true) by (apply Nat.ltb_lt; lia).
  rewrite Hb.
  assert (Hg : 0 < Qofnat (String.length (str item))) by (apply Qofnat_pos; lia).
  pose proof (Qofnat_le n (String.length (str item)) ltac:(lia)) as Hle.
  pose proof (Qofnat_nonneg n) as Hn0.
  set (g := Qofnat (String.length (str item))) in *. set (q := Qofnat n) in *.
  clearbody g q iw.
  assert (Hi : 0 < / g) by (apply Qinv_lt_0_compat; exact Hg).
  assert (E : g * / g == 1) by (field; lra).
  unfold Qdiv. set (i := / g) in *. clearbody i.
  split.
  - intros Hc. assert (0 < iw) by nra. split; [assumption|].
    assert (iw * i * q <= iw * i * g) by nra. nra.
  - intros Hw. nra.
Qed.
End RunWithinItem.

(** X14.  The content-space rectangle of a matched run lies inside the
    horizontal extent of its text item, when no glyph width is negative:
    whether the run is measured by glyph metrics or by the even share of
    the item's width, a run that is not skipped has a positive width, its
    item has a positive width, and the rectangle lies between the item's
    origin and the origin plus the item's width (minus, for
    right-to-left text). *)
Theorem run_rectangle_within_item (sqrt : Q -> Q) (item : Detection.TextItem)
    (start len : nat) (x1 y1 x2 y2 : Q) :
  GlyphSpec.nonNegative item ->
  In (start, len) (Detection.matchAll (Detection.str item)) ->
  Detection.sourceRect (Detection.itemContext sqrt item) start len
  = Some (x1, y1, x2, y2) ->
  let ctx := Detection.itemContext sqrt item in
  (0 < Detection.itemWidth ctx)%Q /\ (x1 < x2)%Q
  /\ (if String.eqb (Detection.dir item) "rtl"
      then (Detection.baseX ctx - Detection.itemWidth ctx <= x1)%Q
           /\ (x2 <= Detection.baseX ctx)%Q
      else (Detection.baseX ctx <= x1)%Q
           /\ (x2 <= Detection.baseX ctx + Detection.itemWidth ctx)%Q).
Proof.
  intros Hnn Hin Hsrc ctx.
  destruct (matchAll_within _ _ _ Hin) as [Hlen Hend].
  destruct (itemContext_even sqrt item (start + len) ltac:(lia)) as [Hc1 Hc2].
  assert (Hitem : Detection.ctx_item ctx = item
                  /\ Detection.glyphMetrics ctx = Detection.buildGlyphMetrics item).
  { subst ctx. unfold Detection.itemContext.
    destruct (Detection.transform item) as [[[[[t0 t1] t2] t3] t4] t5].
    split; reflexivity. }
  destruct Hitem as [Hitem Hmetrics]. rewrite <- Hitem at 1.
  apply (sourceRect_extent ctx start len x1 y1 x2 y2); try assumption.
  intros metrics Hm. rewrite Hmetrics in Hm.
  apply (measure_bounds item metrics start len Hnn Hm).
Qed.

Lemma run_rectangle_within_item_witness :
  exists x1 y1 x2 y2,
    Detection.sourceRect (Detection.itemContext Detection.sqrtFloor GlyphExamples.labelled)
                         2 10 = Some (x1, y1, x2, y2)
    /\ (100 <= x1)%Q /\ (x1 < x2)%Q /\ (x2 <= 135)%Q.
Proof.
  destruct (Detection.sourceRect
              (Detection.itemContext Detection.sqrtFloor GlyphExamples.labelled) 2 10)
    as [[[[x1 y1] x2] y2]|] eqn:Hsrc; [|vm_compute in Hsrc; discriminate].
  exists x1, y1, x2, y2. split; [reflexivity|].
  destruct (run_rectangle_within_item Detection.sqrtFloor GlyphExamples.labelled
              2 10 x1 y1 x2 y2) as (_ & Hlt & Hlo & Hhi).
  - intros gs g w [= <-] Hg Hw.
    repeat (destruct Hg as [[= <-]|Hg]; [injection Hw as <-; vm_compute; discriminate|]).
    destruct Hg.
  - vm_compute. left. reflexivity.
  - exact Hsrc.
  - split; [exact Hlo|]. split; [exact Hlt|]. exact Hhi.
Defined.

(* ===================================================================== *)
(** * Identity of the detected fields                                     *)
(* ===================================================================== *)

Section DetectorShape.
Import Detection DetectionSpec DetectionShape AutoDetectSpec.
Variable sqrt : Q -> Q.

Lemma processMatch_shape mk mk' page pageMeta drawn drawn' ctx st st' m :
  Forall2 sameBox (fst st) (fst st') -> snd st = snd st' ->
  Forall2 sameBox (fst (processMatch mk page pageMeta drawn ctx st m))
                  (fst (processMatch mk' page pageMeta drawn' ctx st' m))
  /\ snd (processMatch mk page pageMeta drawn ctx st m)
     = snd (processMatch mk' page pageMeta drawn' ctx st' m).
Proof.
  destruct st as [detected count], st' as [detected' count'], m as [s n].
  cbn [fst snd]. intros Hf ->. unfold processMatch.
  destruct (n <? MIN_UNDERSCORE_RUN)%nat; [split; [exact Hf|reflexivity]|].
  destruct (sourceRect ctx s n) as [source|]; [|split; [exact Hf|reflexivity]].
  destruct (placeRun pageMeta (fontHeight ctx) _) as [[[x y] w] h].
  cbn [fst snd]. split; [|reflexivity].
  apply Forall2_app; [exact Hf|]. constructor; [|constructor]. split; reflexivity.
Qed.

Lemma processItem_shape mk mk' page pageMeta drawn drawn' item : forall st st',
  Forall2 sameBox (fst st) (fst st') -> snd st = snd st' ->
  Forall2 sameBox (fst (processItem sqrt mk page pageMeta drawn st item))
                  (fst (processItem sqrt mk' page pageMeta drawn' st' item))
  /\ snd (processItem sqrt mk page pageMeta drawn st item)
     = snd (processItem sqrt mk' page pageMeta drawn' st' item).
Proof.
  destruct item as [item|]; [|intros; split; assumption].
  unfold processItem. induction (matchAll (str item)) as [|m ms IH]; intros st st' Hf Hs.
  - split; assumption.
  - cbn [fold_left].
    destruct (processMatch_shape mk mk' page pageMeta drawn drawn'
                (itemContext sqrt item) st st' m Hf Hs) as [Hf' Hs'].
    apply IH; assumption.
Qed.

Lemma detectFieldsForPage_shape mk mk' drawn drawn' page pageMeta :
  Forall2 sameBox (detectFieldsForPage sqrt mk drawn page pageMeta)
                  (detectFieldsForPage sqrt mk' drawn' page pageMeta).
Proof.
  unfold detectFieldsForPage.
  assert (H : forall its st st',
             Forall2 sameBox (fst st) (fst st') -> snd st = snd st' ->
             Forall2 sameBox
               (fst (fold_left (processItem sqrt mk page pageMeta drawn) its st))
               (fst (fold_left (processItem sqrt mk' page pageMeta drawn') its st'))).
  { induction its as [|item its IH]; intros st st' Hf Hs; [exact Hf|].
    cbn [fold_left].
    destruct (processItem_shape mk mk' page pageMeta drawn drawn' item st st' Hf Hs).
    apply IH; assumption. }
  apply H; [constructor|reflexivity].
Qed.

Lemma detectLoop_shape mk mk' pdfDoc pages : forall aggregated aggregated',
  Forall2 sameBox aggregated aggregated' ->
  match detectLoop sqrt mk pdfDoc pages aggregated,
        detectLoop sqrt mk' pdfDoc pages aggregated' with
  | Some fields, Some fields' => Forall2 sameBox fields fields'
  | None, None => True
  | _, _ => False
  end.
Proof.
  induction pages as [|meta rest IH]; intros aggregated aggregated' Hf; cbn [detectLoop].
  - exact Hf.
  - destruct (getPage pdfDoc (PageMeta.index meta + 1)) as [page|]; [|exact I].
    apply IH. apply Forall2_app; [exact Hf|]. apply detectFieldsForPage_shape.
Qed.

Lemma idsFrom_app mk drawn fs f :
  idsFrom mk drawn fs -> Field.id f = mk (drawn + length fs)%nat ->
  idsFrom mk drawn (fs ++ [f]).
Proof.
  intros Hfs Hf i g Hi. apply lookup_app_Some in Hi as [Hi|[Hlen Hi]].
  - apply Hfs, Hi.
  - apply list_lookup_singleton_Some in Hi as [Hi <-].
    rewrite Hf. f_equal. lia.
Qed.

Lemma processMatch_ids mk page pageMeta drawn ctx st m :
  idsFrom mk drawn (fst st) ->
  idsFrom mk drawn (fst (processMatch mk page pageMeta drawn ctx st m)).
Proof.
  destruct st as [detected count], m as [s n]. cbn [fst]. intros Hf.
  unfold processMatch.
  destruct (n <? MIN_UNDERSCORE_RUN)%nat; [exact Hf|].
  destruct (sourceRect ctx s n) as [source|]; [|exact Hf].
  destruct (placeRun pageMeta (fontHeight ctx) _) as [[[x y] w] h].
  cbn [fst]. apply idsFrom_app; [exact Hf|reflexivity].
Qed.

Lemma detectFieldsForPage_ids mk drawn page pageMeta :
  idsFrom mk drawn (detectFieldsForPage sqrt mk drawn page pageMeta).
Proof.
  unfold detectFieldsForPage.
  assert (H : forall its st, idsFrom mk drawn (fst st) ->
             idsFrom mk drawn
               (fst (fold_left (processItem sqrt mk page pageMeta drawn) its st))).
  { induction its as [|item its IH]; intros st Hst; [exact Hst|].
    cbn [fold_left]. apply IH. destruct item as [item|]; [|exact Hst].
    unfold processItem. revert st Hst.
    induction (matchAll (str item)) as [|m ms IHm]; intros st Hst; [exact Hst|].
    cbn [fold_left]. apply IHm, processMatch_ids, Hst. }
  apply H. intros i f Hi. destruct i; discriminate Hi.
Qed.

Lemma detectFieldsForPage_stamped mk drawn page pageMeta :
  Forall (stamped pageMeta) (detectFieldsForPage sqrt mk drawn page pageMeta).
Proof.
  apply detectFieldsForPage_all.
  intros item start len source x y w h i n _ _ _ _ _. repeat split.
Qed.

Lemma detectLoop_identity mk pdfDoc pages : forall aggregated fields,
  detectLoop sqrt mk pdfDoc pages aggregated = Some fields ->
  idsFrom mk 0 aggregated ->
  exists detected,
    fields = aggregated ++ detected
    /\ idsFrom mk 0 fields
    /\ Forall (fun f => exists pageMeta, In pageMeta pages /\ stamped pageMeta f) detected.
Proof.
  induction pages as [|meta rest IH]; intros aggregated fields; cbn [detectLoop].
  - intros [= <-] Hids. exists []. rewrite app_nil_r. split; [reflexivity|].
    split; [exact Hids|constructor].
  - destruct (getPage pdfDoc (PageMeta.index meta + 1)) as [page|]; [|discriminate].
    intros Hloop Hids.
    pose proof (detectFieldsForPage_ids mk (length aggregated) page meta) as Hpage.
    destruct (IH _ _ Hloop) as (detected & -> & Hall & Hst).
    { intros i f Hi. apply lookup_app_Some in Hi as [Hi|[Hlen Hi]].
      - apply Hids, Hi.
      - rewrite (Hpage _ _ Hi). f_equal. lia. }
    exists (detectFieldsForPage sqrt mk (length aggregated) page meta ++ detected).
    split; [rewrite app_assoc; reflexivity|]. split; [exact Hall|].
    apply Forall_app. split.
    + eapply Forall_impl; [apply detectFieldsForPage_stamped|].
      intros f Hf. exists meta. split; [left; reflexivity|exact Hf].
    + eapply Forall_impl; [exact Hst|].
      intros f (pm & Hin & Hf). exists pm. split; [right; exact Hin|exact Hf].
Qed.

Lemma detectFields_readable mk pdfDoc pages :
  is_Some (detectFields sqrt mk pdfDoc pages)
  <-> Forall (fun meta => PageMeta.index meta < length pdfDoc) pages.
Proof.
  unfold detectFields. generalize ([] : list Field.t).
  induction pages as [|meta rest IH]; intros aggregated; cbn [detectLoop].
  - split; [constructor|eauto].
  - replace (PageMeta.index meta + 1)%nat with (S (PageMeta.index meta)) by lia.
    cbn [getPage].
    destruct (pdfDoc !! PageMeta.index meta) as [page|] eqn:Hp.
    + rewrite IH. apply lookup_lt_Some in Hp. split.
      * intros H. constructor; assumption.
      * intros H. inversion H; assumption.
    + apply lookup_ge_None in Hp. split.
      * intros [? [=]].
      * intros H. inversion H; subst. lia.
Qed.

Lemma missing_page (pdfDoc : list PDFPageProxy) pages :
  ~ Forall (fun meta => PageMeta.index meta < length pdfDoc) pages ->
  exists meta, In meta pages /\ length pdfDoc <= PageMeta.index meta.
Proof.
  induction pages as [|meta rest IH]; intros H.
  - exfalso. apply H. constructor.
  - destruct (Nat.lt_ge_cases (PageMeta.index meta) (length pdfDoc)) as [Hlt|Hge].
    + destruct IH as (m & Hin & Hm).
      * intros Hall. apply H. constructor; assumption.
      * exists m. split; [right; exact Hin|exact Hm].
    + exists meta. split; [left; reflexivity|exact Hge].
Qed.
End DetectorShape.

(** X15.  The fields [detectFields] returns carry, in order, the ids
    drawn from [makeId]: the field at position [k] has the [k]-th id; each
    is on a page of the list, single-line, without placeholder.  The ids
    are the only trace of [makeId]: with another id source the same
    document gives fields with the same pages and rectangles, in the same
    order.  With an empty page list the result is empty, and one page
    that the document lacks makes the whole call fail. *)
Theorem detected_fields_identity (sqrt : Q -> Q) (makeId : nat -> string)
    (pdfDoc : list Detection.PDFPageProxy) (pages : list PageMeta.t) :
  (forall fields,
     Detection.detectFields sqrt makeId pdfDoc pages = Some fields ->
     (forall k f, fields !! k = Some f ->
        Field.id f = makeId k
        /\ exists pageMeta, In pageMeta pages /\ DetectionShape.stamped pageMeta f)
     /\ (forall makeId', exists fields',
           Detection.detectFields sqrt makeId' pdfDoc pages = Some fields'
           /\ Forall2 AutoDetectSpec.sameBox fields fields'))
  /\ Detection.detectFields sqrt makeId pdfDoc [] = Some []
  /\ (Detection.detectFields sqrt makeId pdfDoc pages = None
      <-> exists pageMeta, In pageMeta pages /\ length pdfDoc <= PageMeta.index pageMeta).
Proof.
  split; [|split; [reflexivity|]].
  - intros fields Hdet. split.
    + intros k f Hk.
      destruct (detectLoop_identity sqrt makeId pdfDoc pages [] fields Hdet)
        as (detected & -> & Hids & Hst).
      { intros i g Hi. destruct i; discriminate Hi. }
      split; [apply (Hids k f Hk)|].
      rewrite List.Forall_forall in Hst. apply Hst.
      apply list_elem_of_lookup_2 in Hk. apply list_elem_of_In. exact Hk.
    + intros makeId'.
      pose proof (detectLoop_shape sqrt makeId makeId' pdfDoc pages [] []
                    ltac:(constructor)) as H.
      unfold Detection.detectFields in *. rewrite Hdet in H.
      destruct (Detection.detectLoop sqrt makeId' pdfDoc pages []) as [fields'|];
        [|destruct H].
      exists fields'. split; [reflexivity|exact H].
  - pose proof (detectFields_readable sqrt makeId pdfDoc pages) as H.
    rewrite <- not_eq_None_Some in H. split.
    + intros Hnone. apply missing_page. intros Hall. apply H in Hall. contradiction.
    + intros (meta & Hin & Hge).
      destruct (Detection.detectFields sqrt makeId pdfDoc pages) eqn:E; [|reflexivity].
      exfalso.
      assert (Hall : Forall (fun meta => PageMeta.index meta < length pdfDoc) pages)
        by (apply H; discriminate).
      rewrite List.Forall_forall in Hall. specialize (Hall meta Hin). lia.
Qed.

(* ===================================================================== *)
(** * Properties of auto-detection over the store                         *)
(* ===================================================================== *)

Section AutoDetectFacts.
Import PdfDocumentRecord Store AutoDetect AutoDetectSpec.
Variable sqrt : Q -> Q.
Variable pdfjs : nat -> list Detection.PDFPageProxy.

Lemma detectAll_run mk snapshot : forall round state error,
  fst (detectAll sqrt mk pdfjs round snapshot (state, error))
  = run (merges sqrt mk pdfjs round snapshot) state.
Proof.
  induction snapshot as [|document rest IH]; intros round state error; [reflexivity|].
  cbn [detectAll merges detectDocument].
  destruct (Detection.detectFields sqrt (mk round) _ _) as [detected|];
    cbn [app]; unfold run; cbn [fold_left]; apply IH.
Qed.

Lemma detectAll_error mk snapshot : forall round state error,
  snd (detectAll sqrt mk pdfjs round snapshot (state, error))
  = if forallb (fun document =>
                  forallb (fun meta => (PageMeta.index meta <? length (pdfjs (pdfDoc document)))%nat)
                          (pages document)) snapshot
    then error else Some failed.
Proof.
  induction snapshot as [|document rest IH]; intros round state error; [reflexivity|].
  cbn [detectAll detectDocument forallb].
  pose proof (detectFields_readable sqrt (mk round) (pdfjs (pdfDoc document))
                (pages document)) as Hr.
  destruct (forallb _ (pages document)) eqn:Hb.
  - assert (Hs : is_Some (Detection.detectFields sqrt (mk round) (pdfjs (pdfDoc document))
                            (pages document))).
    { apply Hr. apply List.Forall_forall. intros meta Hin.
      rewrite forallb_forall in Hb. apply Nat.ltb_lt, Hb, Hin. }
    destruct Hs as [detected ->]. cbn [andb]. apply IH.
  - destruct (Detection.detectFields sqrt (mk round) _ _) as [detected|] eqn:Hd.
    + exfalso. assert (Hs : is_Some (Some detected)) by eauto. apply Hr in Hs.
      rewrite List.Forall_forall in Hs.
      assert (Ht : forallb (fun meta => (PageMeta.index meta <? length (pdfjs (pdfDoc document)))%nat)
                     (pages document) = true).
      { apply forallb_forall. intros meta Hin. apply Nat.ltb_lt, Hs, Hin. }
      congruence.
    + cbn [andb]. rewrite IH. destruct (forallb _ rest); reflexivity.
Qed.

Lemma extended_refl document : extended document document.
Proof.
  repeat split. exists []. symmetry. apply app_nil_r.
Qed.

Lemma extended_trans a b c : extended a b -> extended b c -> extended a c.
Proof.
  intros (H1 & H2 & H3 & H4 & H5 & x & Hx) (G1 & G2 & G3 & G4 & G5 & y & Hy).
  repeat split; try congruence.
  exists (x ++ y). rewrite Hy, Hx, app_assoc. reflexivity.
Qed.

Lemma extended_merged document detected : extended document (merged document detected).
Proof.
  repeat split. unfold merged. cbn [fields withFields].
  destruct (mergeCombined_accepts (fields document) detected) as (acc & -> & _).
  exists acc. reflexivity.
Qed.

Lemma mergeFields_extended i c s :
  Forall2 extended (documents s) (documents (mergeFields i c s)).
Proof.
  cbn [mergeFields documents]. induction (documents s) as [|doc docs IH];
    cbn [updateDocument List.map]; constructor; [|exact IH].
  destruct (String.eqb (id doc) i); [apply extended_merged|apply extended_refl].
Qed.

Lemma Forall2_extended_trans xs ys zs :
  Forall2 extended xs ys -> Forall2 extended ys zs -> Forall2 extended xs zs.
Proof.
  intros H. revert zs. induction H as [|x y xs ys Hxy _ IH]; intros zs Hz.
  - inversion Hz. constructor.
  - inversion Hz as [|? z ? zs' Hyz Hrest]; subst. constructor.
    + eapply extended_trans; eassumption.
    + apply IH, Hrest.
Qed.

Lemma run_extended ms : forall s,
  Forall2 extended (documents s) (documents (run ms s))
  /\ activeDocumentId (run ms s) = activeDocumentId s.
Proof.
  induction ms as [|m ms IH]; intros s; unfold run; cbn [fold_left].
  - split; [|reflexivity]. induction (documents s); constructor;
      [apply extended_refl|assumption].
  - destruct (IH (mergeFields (fst m) (snd m) s)) as [Hd Ha]. split.
    + eapply Forall2_extended_trans; [apply mergeFields_extended|exact Hd].
    + exact Ha.
Qed.
End AutoDetectFacts.

(** X16.  Auto-detection never removes, alters or reorders what the store
    holds: after the handler every document is at its position with its
    id, file, proxy and pages, its former fields are the first of its
    fields, and the active id is unchanged.  On an empty store the handler
    does nothing, not even to the error message; otherwise the message is
    cleared when every document is readable and set when one is not. *)
Theorem auto_detect_keeps_existing_fields (sqrt : Q -> Q)
    (makeId : nat -> nat -> string) (pdfjs : nat -> list Detection.PDFPageProxy)
    (state : Store.PdfState) (error : option string) :
  let after := AutoDetect.handleAutoDetect sqrt makeId pdfjs state error in
  Forall2 AutoDetectSpec.extended (Store.documents state) (Store.documents (fst after))
  /\ Store.activeDocumentId (fst after) = Store.activeDocumentId state
  /\ (Store.documents state = [] -> after = (state, error))
  /\ (Store.documents state <> [] ->
      (Forall (AutoDetectSpec.readable pdfjs) (Store.documents state) ->
       snd after = None)
      /\ (~ Forall (AutoDetectSpec.readable pdfjs) (Store.documents state) ->
          snd after = Some AutoDetect.failed)).
Proof.
  intros after. subst after. unfold AutoDetect.handleAutoDetect.
  destruct (Store.documents state) as [|doc docs] eqn:Hdocs.
  - cbn [length Nat.eqb fst snd]. rewrite Hdocs.
    split; [constructor|]. split; [reflexivity|]. split; [reflexivity|].
    intros H. contradiction.
  - cbn [length Nat.eqb]. rewrite detectAll_run, detectAll_error.
    destruct (run_extended (AutoDetectSpec.merges sqrt makeId pdfjs 0 (doc :: docs)) state)
      as [Hd Ha].
    rewrite Hdocs in Hd. split; [exact Hd|]. split; [exact Ha|].
    split; [discriminate|]. intros _.
    set (ok := forallb _ (doc :: docs)).
    assert (Hok : ok = true <-> Forall (AutoDetectSpec.readable pdfjs) (doc :: docs)).
    { subst ok. rewrite forallb_forall, List.Forall_forall.
      unfold AutoDetectSpec.readable.
      split; intros H d Hin; specialize (H d Hin).
      - apply List.Forall_forall. intros meta Hm. rewrite forallb_forall in H.
        apply Nat.ltb_lt, H, Hm.
      - apply forallb_forall. intros meta Hm. rewrite List.Forall_forall in H.
        apply Nat.ltb_lt, H, Hm. }
    split; intros H.
    + apply Hok in H. rewrite H. reflexivity.
    + destruct ok; [exfalso; apply H, Hok; reflexivity|reflexivity].
Qed.

Section AutoDetectDocuments.
Import PdfDocumentRecord Store AutoDetect AutoDetectSpec.
Variable sqrt : Q -> Q.
Variable pdfjs : nat -> list Detection.PDFPageProxy.

Lemma lookup_map {A B} (g : A -> B) (xs : list A) n :
  List.map g xs !! n = g <$> xs !! n.
Proof.
  revert n. induction xs as [|x xs IH]; intros [|n]; cbn; try reflexivity. apply IH.
Qed.

Lemma mergeFields_mergedBy m s :
  documents (mergeFields (fst m) (snd m) s)
  = List.map (fun doc => mergedBy doc m) (documents s).
Proof. reflexivity. Qed.

Lemma run_documents ms : forall s,
  documents (run ms s)
  = List.map (fun doc => fold_left mergedBy ms doc) (documents s).
Proof.
  induction ms as [|m ms IH]; intros s; unfold run; cbn [fold_left].
  - symmetry. apply List.map_id.
  - fold (run ms (mergeFields (fst m) (snd m) s)).
    rewrite IH, mergeFields_mergedBy, List.map_map. reflexivity.
Qed.

Lemma mergedBy_id document m : id (mergedBy document m) = id document.
Proof. unfold mergedBy. destruct (String.eqb _ _); reflexivity. Qed.

Lemma fold_mergedBy_other ms : forall document,
  (forall m, In m ms -> fst m <> id document) ->
  fold_left mergedBy ms document = document.
Proof.
  induction ms as [|m ms IH]; intros document Hno; [reflexivity|].
  cbn [fold_left]. unfold mergedBy at 2.
  assert (Hne : id document <> fst m) by (intros E; apply (Hno m); [left|]; auto).
  apply String.eqb_neq in Hne. rewrite Hne. apply IH.
  intros m' Hin. apply Hno. right. exact Hin.
Qed.

Lemma merges_ids mk snapshot : forall round m,
  In m (merges sqrt mk pdfjs round snapshot) -> In (fst m) (List.map id snapshot).
Proof.
  induction snapshot as [|document rest IH]; intros round m; cbn [merges List.map].
  - intros [].
  - intros Hin. apply in_app_or in Hin as [Hin|Hin].
    + left. destruct (Detection.detectFields _ _ _ _); [|destruct Hin].
      destruct Hin as [<-|[]]. reflexivity.
    + right. apply (IH _ _ Hin).
Qed.

(** With distinct ids, the calls of a snapshot reach a document once: by
    its own detection. *)
Lemma fold_merges_own mk snapshot : forall round n document current,
  NoDup (List.map id snapshot) ->
  snapshot !! n = Some document ->
  id current = id document ->
  fold_left mergedBy (merges sqrt mk pdfjs round snapshot) current
  = match Detection.detectFields sqrt (mk (round + n)%nat) (pdfjs (pdfDoc document))
                                 (pages document) with
    | Some detected => merged current detected
    | None => current
    end.
Proof.
  induction snapshot as [|first rest IH]; intros round n document current Hnd Hn Hid;
    [destruct n; discriminate|].
  cbn [List.map] in Hnd. apply NoDup_cons in Hnd as [Hfirst Hnd].
  rewrite list_elem_of_In in Hfirst.
  cbn [merges]. rewrite fold_left_app. destruct n as [|n]; cbn in Hn.
  - injection Hn as ->. rewrite Nat.add_0_r.
    rewrite fold_mergedBy_other.
    + destruct (Detection.detectFields _ _ _ _) as [detected|]; [|reflexivity].
      cbn [fold_left]. unfold mergedBy. cbn [fst snd]. rewrite Hid, String.eqb_refl.
      reflexivity.
    + intros m Hin Hm. apply merges_ids in Hin. apply Hfirst.
      rewrite Hm in Hin.
      replace (id (fold_left mergedBy
                     match Detection.detectFields sqrt (mk round) (pdfjs (pdfDoc document))
                                                  (pages document) with
                     | Some detected => [(id document, detected)]
                     | None => []
                     end current)) with (id document) in Hin; [exact Hin|].
      destruct (Detection.detectFields _ _ _ _); cbn [fold_left];
        [rewrite mergedBy_id|]; congruence.
  - assert (Hne : id document <> id first).
    { intros E. apply Hfirst. rewrite <- E. apply in_map.
      apply list_elem_of_lookup_2 in Hn. apply list_elem_of_In. exact Hn. }
    replace (round + S n)%nat with (S round + n)%nat by lia.
    rewrite <- (IH (S round) n document current Hnd Hn Hid). f_equal.
    destruct (Detection.detectFields _ _ _ _) as [detected|]; [|reflexivity].
    cbn [fold_left]. unfold mergedBy. cbn [fst].
    rewrite Hid. apply String.eqb_neq in Hne. rewrite Hne. reflexivity.
Qed.
End AutoDetectDocuments.

(** X17.  When the ids of the stored documents are distinct, auto-detection
    treats every document on its own: the document at position [n] ends
    with the fields detected in it merged into its own fields, by the
    merge policy of the store, its last field selected; and a document
    whose detection fails is left exactly as it was, while the others are
    still processed. *)
Theorem auto_detect_per_document (sqrt : Q -> Q) (makeId : nat -> nat -> string)
    (pdfjs : nat -> list Detection.PDFPageProxy)
    (state : Store.PdfState) (error : option string)
    (n : nat) (document : PdfDocumentRecord.t) :
  NoDup (List.map PdfDocumentRecord.id (Store.documents state)) ->
  Store.documents state !! n = Some document ->
  Store.documents (fst (AutoDetect.handleAutoDetect sqrt makeId pdfjs state error)) !! n
  = Some match Detection.detectFields sqrt (makeId n)
                 (pdfjs (PdfDocumentRecord.pdfDoc document))
                 (PdfDocumentRecord.pages document) with
         | Some detected => AutoDetectSpec.merged document detected
         | None => document
         end.
Proof.
  intros Hnd Hn. unfold AutoDetect.handleAutoDetect.
  destruct (Store.documents state) as [|doc docs] eqn:Hdocs; [destruct n; discriminate|].
  cbn [length Nat.eqb]. rewrite detectAll_run, run_documents, lookup_map, Hdocs, Hn.
  cbn [fmap option_fmap option_map]. f_equal.
  apply (fold_merges_own sqrt pdfjs makeId (doc :: docs) 0 n document document Hnd Hn eq_refl).
Qed.

Lemma auto_detect_per_document_witness :
  Store.documents
    (fst (AutoDetect.handleAutoDetect Detection.sqrtFloor AutoDetectExamples.ids
            AutoDetectExamples.pdfjs AutoDetectExamples.loaded None)) !! 1%nat
  = Some AutoDetectExamples.broken.
Proof.
  rewrite (auto_detect_per_document Detection.sqrtFloor AutoDetectExamples.ids
             AutoDetectExamples.pdfjs AutoDetectExamples.loaded None
             1 AutoDetectExamples.broken).
  - reflexivity.
  - cbn. apply NoDup_cons. split; [|apply NoDup_singleton].
    rewrite list_elem_of_In. cbn. intros [H|[]]. discriminate.
  - reflexivity.
Defined.

Section AutoDetectTwice.
Import PdfDocumentRecord Store AutoDetect AutoDetectSpec.
Variable sqrt : Q -> Q.
Variable pdfjs : nat -> list Detection.PDFPageProxy.








End AutoDetectTwice.


(* ===================================================================== *)
(** * More properties of the archive serializer                           *)
(* ===================================================================== *)

Section DosDates.
Import Zip DosSpec.
Local Open Scope Z_scope.

Lemma toInt32_small v : - 2 ^ 31 <= v < 2 ^ 31 -> toInt32 v = v.
Proof. intros Hv. unfold toInt32. rewrite Z.mod_small; lia. Qed.

Lemma and32_mask v k :
  0 <= k < 31 -> and32 v (Z.ones k) = v mod 2 ^ k.
Proof.
  intros Hk. unfold and32. rewrite Z.land_ones by lia.
  pose proof (Z.mod_pos_bound v (2 ^ k) ltac:(apply Z.pow_pos_nonneg; lia)) as Hb.
  assert (2 ^ k < 2 ^ 31) by (apply Z.pow_lt_mono_r; lia).
  apply toInt32_small. lia.
Qed.

(** Bits that do not overlap: the low operand is below the shift. *)
Lemma land_shiftl_small a b n :
  0 <= n -> 0 <= b < 2 ^ n -> Z.land (Z.shiftl a n) b = 0.
Proof.
  intros Hn Hb. apply Z.bits_inj'. intros k Hk.
  rewrite Z.land_spec, Z.bits_0.
  destruct (Z.lt_ge_cases k n) as [Hlt|Hge].
  - rewrite Z.shiftl_spec_low by lia. reflexivity.
  - destruct (Z.eq_dec b 0) as [->|Hb0].
    + rewrite Z.bits_0. apply andb_false_r.
    + assert (Hl : Z.log2 b < k).
      { apply Z.log2_lt_pow2; [lia|].
        apply Z.lt_le_trans with (2 ^ n); [lia|apply Z.pow_le_mono_r; lia]. }
      rewrite (Z.bits_above_log2 b k) by lia. apply andb_false_r.
Qed.

Lemma lor_shiftl_small a b n :
  0 <= n -> 0 <= b < 2 ^ n -> Z.lor (Z.shiftl a n) b = a * 2 ^ n + b.
Proof.
  intros Hn Hb. rewrite <- Z.lxor_lor by (apply land_shiftl_small; assumption).
  rewrite <- Z.add_nocarry_lxor by (apply land_shiftl_small; assumption).
  rewrite Z.shiftl_mul_pow2 by lia. reflexivity.
Qed.

(** Three fields of 0 or more bits packed as the code packs them. *)
Lemma packed hi mid lo (n1 n2 k1 k2 k3 : Z) :
  0 <= hi < 2 ^ k1 -> 0 <= mid < 2 ^ k2 -> 0 <= lo < 2 ^ k3 ->
  n2 = k3 -> n1 = k2 + k3 -> 0 <= k1 -> 0 <= k2 -> 0 <= k3 -> k1 + k2 + k3 <= 16 ->
  or32 (or32 (shl32 hi n1) (shl32 mid n2)) lo = hi * 2 ^ n1 + mid * 2 ^ n2 + lo
  /\ 0 <= hi * 2 ^ n1 + mid * 2 ^ n2 + lo < 65536.
Proof.
  intros Hhi Hmid Hlo -> -> H1 H2 H3 Hsum.
  assert (P3 : 0 < 2 ^ k3) by (apply Z.pow_pos_nonneg; lia).
  assert (P2 : 0 < 2 ^ k2) by (apply Z.pow_pos_nonneg; lia).
  assert (E23 : 2 ^ (k2 + k3) = 2 ^ k2 * 2 ^ k3) by (apply Z.pow_add_r; lia).
  assert (E123 : 2 ^ (k1 + k2 + k3) = 2 ^ k1 * (2 ^ k2 * 2 ^ k3))
    by (rewrite <- E23, <- Z.pow_add_r by lia; f_equal; lia).
  assert (B : 2 ^ (k1 + k2 + k3) <= 2 ^ 16) by (apply Z.pow_le_mono_r; lia).
  assert (Hm : 0 <= mid * 2 ^ k3 + lo < 2 ^ (k2 + k3)) by nia.
  assert (Ht : 0 <= hi * 2 ^ (k2 + k3) + (mid * 2 ^ k3 + lo) < 2 ^ 16) by nia.
  change (2 ^ 16) with 65536 in *.
  unfold or32, shl32.
  rewrite (toInt32_small (Z.shiftl hi (k2 + k3)))
    by (rewrite Z.shiftl_mul_pow2 by lia; change (2 ^ 31) with 2147483648; nia).
  rewrite (toInt32_small (Z.shiftl mid k3))
    by (rewrite Z.shiftl_mul_pow2 by lia; change (2 ^ 31) with 2147483648; nia).
  rewrite (Z.shiftl_mul_pow2 mid) by lia.
  rewrite (lor_shiftl_small hi (mid * 2 ^ k3) (k2 + k3)) by nia.
  rewrite (toInt32_small (hi * 2 ^ (k2 + k3) + mid * 2 ^ k3))
    by (change (2 ^ 31) with 2147483648; nia).
  assert (Eshift : hi * 2 ^ (k2 + k3) + mid * 2 ^ k3
                   = Z.shiftl (hi * 2 ^ k2 + mid) k3)
    by (rewrite Z.shiftl_mul_pow2 by lia; nia).
  rewrite Eshift, (lor_shiftl_small (hi * 2 ^ k2 + mid) lo k3) by lia.
  rewrite toInt32_small by (change (2 ^ 31) with 2147483648; nia).
  split; nia.
Qed.
End DosDates.

(** X19.  The timestamp of an entry can be read back: for what the
    getters of a Date return, both values of [toDosDate] fit 16 bits, the
    time decodes to the hours, the minutes and the seconds rounded down to
    an even number, and the date decodes to the day, the month counted
    from 1 and the year, a year before 1980 stored as 1980 and one after
    2107 as 2107. *)
Theorem dos_date_round_trip (date : Zip.Date) :
  DosSpec.wellFormed date ->
  let '(dosTime, dosDate) := Zip.toDosDate date in
  (0 <= dosTime < 65536)%Z /\ (0 <= dosDate < 65536)%Z
  /\ DosSpec.timeOf dosTime
     = (Zip.getHours date, Zip.getMinutes date, (2 * (Zip.getSeconds date / 2))%Z)
  /\ DosSpec.dateOf dosDate
     = (Z.max 1980 (Z.min (Zip.getFullYear date) 2107),
        (Zip.getMonth date + 1)%Z, Zip.getDate date).
Proof.
  intros (Hmo & Hd & Hh & Hmi & Hs). unfold Zip.toDosDate.
  set (year := Z.max 1980 (Z.min (Zip.getFullYear date) 2107)).
  change 0x1f%Z with (Z.ones 5). change 0x3f%Z with (Z.ones 6).
  change 0x7f%Z with (Z.ones 7). change 0xf%Z with (Z.ones 4).
  rewrite !and32_mask by lia.
  change (2 ^ 5)%Z with 32%Z. change (2 ^ 6)%Z with 64%Z.
  change (2 ^ 7)%Z with 128%Z. change (2 ^ 4)%Z with 16%Z.
  assert (Hy : (1980 <= year <= 2107)%Z) by (subst year; lia).
  rewrite (Z.mod_small (Zip.getHours date)), (Z.mod_small (Zip.getMinutes date)),
    (Z.mod_small (Zip.getDate date)), (Z.mod_small (Zip.getMonth date + 1)),
    (Z.mod_small (year - 1980)) by lia.
  assert (Hhalf : (0 <= Zip.getSeconds date / 2 < 32)%Z)
    by (split; [apply Z.div_pos; lia|apply Z.div_lt_upper_bound; lia]).
  rewrite (Z.mod_small (Zip.getSeconds date / 2)) by exact Hhalf.
  destruct (packed (Zip.getHours date) (Zip.getMinutes date) (Zip.getSeconds date / 2)
              11 5 5 6 5) as [Et Ht]; try lia.
  destruct (packed (year - 1980) (Zip.getMonth date + 1) (Zip.getDate date)
              9 5 7 4 5) as [Ev Hv]; try lia.
  rewrite Et, Ev. change (2 ^ 11)%Z with 2048%Z in *. change (2 ^ 5)%Z with 32%Z in *.
  change (2 ^ 9)%Z with 512%Z in *.
  split; [exact Ht|]. split; [exact Hv|].
  unfold DosSpec.timeOf, DosSpec.dateOf.
  change 63%Z with (Z.ones 6). change 31%Z with (Z.ones 5). change 15%Z with (Z.ones 4).
  rewrite !Z.land_ones, !Z.shiftr_div_pow2 by lia.
  change (2 ^ 11)%Z with 2048%Z. change (2 ^ 5)%Z with 32%Z.
  change (2 ^ 9)%Z with 512%Z. change (2 ^ 6)%Z with 64%Z. change (2 ^ 4)%Z with 16%Z.
  split; (f_equal; [f_equal|]); Z.div_mod_to_equations; lia.
Qed.

Lemma dos_date_round_trip_witness :
  DosSpec.timeOf (fst (Zip.toDosDate ZipExamples.noon)) = (12, 30, 10)%Z
  /\ DosSpec.dateOf (snd (Zip.toDosDate ZipExamples.noon)) = (2024, 1, 15)%Z.
Proof.
  pose proof (dos_date_round_trip ZipExamples.noon) as H.
  destruct (Zip.toDosDate ZipExamples.noon) as [t d].
  destruct H as (_ & _ & Ht & Hd).
  - unfold DosSpec.wellFormed. cbn. lia.
  - split; [exact Ht|exact Hd].
Defined.

Section ZipEntries.
Import Zip ZipLayout.
Variable encode : string -> bytes.
Variable clock : nat -> Date.

Local Opaque toDosDate computeCrc32.
Local Arguments Nat.add : simpl never.

(** Entry [i] in the blob, with what its records hold. *)
Lemma archive_entry files i file :
  files !! i = Some file ->
  exists entry pre suf mid post,
    archive (resolved encode clock 0 0 files)
    = pre ++ localRecord entry ++ suf ++ mid ++ centralRecord entry ++ post
    /\ length pre = localStart encode files i
    /\ length (pre ++ localRecord entry ++ suf ++ mid) = centralStart encode files i
    /\ nameBytes entry = encode (name file)
    /\ m_data entry = data file
    /\ localHeaderOffset entry = localStart encode files i.
Proof.
  intros Hi. pose proof (take_drop_middle _ _ _ Hi) as Hsplit.
  set (before := take i files) in *. set (after := drop (S i) files) in *.
  unfold localStart, centralStart. fold before.
  rewrite <- (length_locals encode clock 0 0 files). rewrite <- Hsplit.
  destruct (resolved_app encode clock 0 0 before (file :: after)) as (ticks' & ->).
  cbn [resolved]. set (M1 := resolved encode clock 0 0 before).
  set (M2 := resolved encode clock _ _ after).
  set (entry := {| m_name := name file |}).
  unfold archive. rewrite !map_app, !concat_app. cbn [List.map concat].
  exists entry, (concat (List.map localRecord M1)), (concat (List.map localRecord M2)),
    (concat (List.map centralRecord M1)),
    (concat (List.map centralRecord M2)
     ++ endRecord (length (M1 ++ entry :: M2))
          (length (concat (List.map centralRecord M1)
                   ++ centralRecord entry ++ concat (List.map centralRecord M2)))
          (length (concat (List.map localRecord M1)
                   ++ localRecord entry ++ concat (List.map localRecord M2)))).
  split; [|split; [|split; [|split; [|split]]]].
  - rewrite <- !app_assoc. reflexivity.
  - unfold M1. apply length_locals.
  - rewrite !app_assoc, (length_app _ (concat (List.map centralRecord M1))).
    rewrite <- !app_assoc. f_equal. unfold M1. apply length_centrals.
  - reflexivity.
  - reflexivity.
  - unfold entry. cbn [localHeaderOffset]. rewrite Nat.add_0_l. reflexivity.
Qed.

Lemma slice_whole (x rest : bytes) : slice 0 (length x) (x ++ rest) = x.
Proof. unfold slice. rewrite drop_0. apply take_app_length. Qed.

Lemma slice_local_name entry rest :
  slice 30 (length (nameBytes entry)) (localRecord entry ++ rest) = nameBytes entry.
Proof.
  unfold slice.
  change (drop 30 (localRecord entry ++ rest))
    with ((nameBytes entry ++ m_data entry) ++ rest).
  rewrite <- app_assoc. apply take_app_length.
Qed.

Lemma slice_local_data entry rest :
  slice (30 + length (nameBytes entry)) (length (m_data entry)) (localRecord entry ++ rest)
  = m_data entry.
Proof.
  unfold slice. rewrite <- drop_drop.
  change (drop 30 (localRecord entry ++ rest))
    with ((nameBytes entry ++ m_data entry) ++ rest).
  rewrite <- app_assoc, drop_app_length. apply take_app_length.
Qed.

Lemma slice_central_name entry rest :
  slice 46 (length (nameBytes entry)) (centralRecord entry ++ rest) = nameBytes entry.
Proof.
  unfold slice.
  change (drop 46 (centralRecord entry ++ rest)) with (nameBytes entry ++ rest).
  apply take_app_length.
Qed.
End ZipEntries.

(** The local record of entry [i], field by field. *)
Lemma archive_local_fields (encode : string -> bytes) (clock : nat -> Zip.Date)
    (files : list Zip.ZipEntry) i file :
  files !! i = Some file ->
  let blob := ZipLayout.archive (ZipLayout.resolved encode clock 0 0 files) in
  let start := ZipLayout.localStart encode files i in
  let nameLength := length (encode (Zip.name file)) in
  let dataLength := length (Zip.data file) in
  ZipLayout.slice start 4 blob = ["P"; "K"; "003"; "004"]%byte
  /\ ZipLayout.fromLe (ZipLayout.slice (start + 8) 2 blob) = 0%Z
  /\ ZipLayout.fromLe (ZipLayout.slice (start + 18) 4 blob)
     = (Z.of_nat dataLength mod 2 ^ 32)%Z
  /\ ZipLayout.fromLe (ZipLayout.slice (start + 22) 4 blob)
     = (Z.of_nat dataLength mod 2 ^ 32)%Z
  /\ ZipLayout.fromLe (ZipLayout.slice (start + 26) 2 blob)
     = (Z.of_nat nameLength mod 2 ^ 16)%Z
  /\ ZipLayout.slice (start + 30) nameLength blob = encode (Zip.name file)
  /\ ZipLayout.slice (start + 30 + nameLength) dataLength blob = Zip.data file.
Proof.
  intros Hi blob start nameLength dataLength. subst blob start nameLength dataLength.
  destruct (archive_entry encode clock files i file Hi)
    as (entry & pre & suf & mid & post & -> & Hpre & _ & Hname & Hdata & _).
  rewrite <- Hname, <- Hdata.
  set (rest := suf ++ mid ++ ZipLayout.centralRecord entry ++ post).
  split; [|split; [|split; [|split; [|split; [|split]]]]].
  - rewrite <- (Nat.add_0_r (ZipLayout.localStart encode files i)).
    rewrite (slice_after pre _ _ 0 4 Hpre). reflexivity.
  - rewrite (slice_after pre _ _ 8 2 Hpre). reflexivity.
  - rewrite (slice_after pre _ _ 18 4 Hpre).
    change (ZipLayout.slice 18 4 (ZipLayout.localRecord entry ++ rest))
      with (Zip.le32 (Zip.ushr32 (Z.of_nat (length (Zip.m_data entry))) 0)).
    rewrite fromLe_le32, ushr32_0, Z.mod_mod by lia. reflexivity.
  - rewrite (slice_after pre _ _ 22 4 Hpre).
    change (ZipLayout.slice 22 4 (ZipLayout.localRecord entry ++ rest))
      with (Zip.le32 (Zip.ushr32 (Z.of_nat (length (Zip.m_data entry))) 0)).
    rewrite fromLe_le32, ushr32_0, Z.mod_mod by lia. reflexivity.
  - rewrite (slice_after pre _ _ 26 2 Hpre).
    change (ZipLayout.slice 26 2 (ZipLayout.localRecord entry ++ rest))
      with (Zip.le16 (Zip.and32 (Z.of_nat (length (Zip.nameBytes entry))) 0xffff)).
    rewrite fromLe_le16, and32_ffff, Z.mod_mod by lia. reflexivity.
  - rewrite (slice_after pre _ _ 30 _ Hpre). apply slice_local_name.
  - rewrite <- Nat.add_assoc, (slice_after pre _ _ _ _ Hpre). apply slice_local_data.
Qed.

(** X20.  Every entry is stored, not compressed: at the offset that is the
    sum of the sizes of the local records before it, the blob holds the
    local header signature PK\003\004, method 0, the length of the data in
    both size fields (modulo 2^32) and the length of the encoded name
    (modulo 2^16); the encoded name follows at offset 30 of the record and
    the data, byte for byte, right after the name. *)
Theorem archive_stores_entries_verbatim (encode : string -> bytes)
    (clock : nat -> Zip.Date) (files : list Zip.ZipEntry) :
  exists blob,
    Zip.createZipFromFiles encode clock files = Some blob
    /\ forall i file,
         files !! i = Some file ->
         let start := ZipLayout.localStart encode files i in
         let nameLength := length (encode (Zip.name file)) in
         let dataLength := length (Zip.data file) in
         ZipLayout.slice start 4 blob = ["P"; "K"; "003"; "004"]%byte
         /\ ZipLayout.fromLe (ZipLayout.slice (start + 8) 2 blob) = 0%Z
         /\ ZipLayout.fromLe (ZipLayout.slice (start + 18) 4 blob)
            = (Z.of_nat dataLength mod 2 ^ 32)%Z
         /\ ZipLayout.fromLe (ZipLayout.slice (start + 22) 4 blob)
            = (Z.of_nat dataLength mod 2 ^ 32)%Z
         /\ ZipLayout.fromLe (ZipLayout.slice (start + 26) 2 blob)
            = (Z.of_nat nameLength mod 2 ^ 16)%Z
         /\ ZipLayout.slice (start + 30) nameLength blob = encode (Zip.name file)
         /\ ZipLayout.slice (start + 30 + nameLength) dataLength blob = Zip.data file.
Proof.
  eexists. split; [apply createZipFromFiles_archive|].
  intros i file Hi. apply (archive_local_fields encode clock files i file Hi).
Qed.

(** X21.  The directory leads to every entry: the end record holds the
    size of the central directory and the offset where it starts, which is
    the total size of the local records; the central record of entry [i]
    starts with PK\001\002, repeats the length of the data and the encoded
    name, and its offset field holds the offset of the entry's local
    header (all 32-bit fields modulo 2^32). *)
Theorem archive_directory_leads_to_entries (encode : string -> bytes)
    (clock : nat -> Zip.Date) (files : list Zip.ZipEntry) :
  exists blob,
    Zip.createZipFromFiles encode clock files = Some blob
    /\ ZipLayout.fromLe (ZipLayout.slice (length blob - 22 + 12) 4 blob)
       = (Z.of_nat (ZipLayout.sumOf (ZipLayout.centralSize encode) files) mod 2 ^ 32)%Z
    /\ ZipLayout.fromLe (ZipLayout.slice (length blob - 22 + 16) 4 blob)
       = (Z.of_nat (ZipLayout.centralStart encode files 0) mod 2 ^ 32)%Z
    /\ forall i file,
         files !! i = Some file ->
         let start := ZipLayout.centralStart encode files i in
         let nameLength := length (encode (Zip.name file)) in
         ZipLayout.slice start 4 blob = ["P"; "K"; "001"; "002"]%byte
         /\ ZipLayout.fromLe (ZipLayout.slice (start + 20) 4 blob)
            = (Z.of_nat (length (Zip.data file)) mod 2 ^ 32)%Z
         /\ ZipLayout.fromLe (ZipLayout.slice (start + 28) 2 blob)
            = (Z.of_nat nameLength mod 2 ^ 16)%Z
         /\ ZipLayout.fromLe (ZipLayout.slice (start + 42) 4 blob)
            = (Z.of_nat (ZipLayout.localStart encode files i) mod 2 ^ 32)%Z
         /\ ZipLayout.slice (start + 46) nameLength blob = encode (Zip.name file).
Proof.
  eexists. split; [apply createZipFromFiles_archive|]. split; [|split].
  - unfold ZipLayout.archive. set (M := ZipLayout.resolved encode clock 0 0 files).
    set (locals := concat (List.map ZipLayout.localRecord M)).
    set (centrals := concat (List.map ZipLayout.centralRecord M)).
    rewrite app_assoc.
    assert (Htail : length ((locals ++ centrals)
                            ++ ZipLayout.endRecord (length M) (length centrals)
                                 (length locals)) - 22
                    = length (locals ++ centrals))
      by (rewrite (length_app (locals ++ centrals)), length_endRecord; lia).
    rewrite Htail, (slice_after _ _ _ 12 4 eq_refl).
    change (ZipLayout.slice 12 4 (ZipLayout.endRecord (length M) (length centrals)
                                    (length locals)))
      with (Zip.le32 (Zip.ushr32 (Z.of_nat (length centrals)) 0)).
    rewrite fromLe_le32, ushr32_0, Z.mod_mod by lia.
    unfold centrals, M. rewrite length_centrals. reflexivity.
  - unfold ZipLayout.archive. set (M := ZipLayout.resolved encode clock 0 0 files).
    set (locals := concat (List.map ZipLayout.localRecord M)).
    set (centrals := concat (List.map ZipLayout.centralRecord M)).
    rewrite app_assoc.
    assert (Htail : length ((locals ++ centrals)
                            ++ ZipLayout.endRecord (length M) (length centrals)
                                 (length locals)) - 22
                    = length (locals ++ centrals))
      by (rewrite (length_app (locals ++ centrals)), length_endRecord; lia).
    rewrite Htail, (slice_after _ _ _ 16 4 eq_refl).
    change (ZipLayout.slice 16 4 (ZipLayout.endRecord (length M) (length centrals)
                                    (length locals)))
      with (Zip.le32 (Zip.ushr32 (Z.of_nat (length locals)) 0)).
    rewrite fromLe_le32, ushr32_0, Z.mod_mod by lia.
    unfold locals, M. rewrite length_locals.
    unfold ZipLayout.centralStart. cbn [take ZipLayout.sumOf fold_right].
    rewrite Nat.add_0_r. reflexivity.
  - intros i file Hi start nameLength. subst start nameLength.
    destruct (archive_entry encode clock files i file Hi)
      as (entry & pre & suf & mid & post & -> & _ & Hmid & Hname & Hdata & Hoff).
    rewrite <- Hname, <- Hdata, <- Hoff.
    replace (pre ++ ZipLayout.localRecord entry ++ suf ++ mid
             ++ ZipLayout.centralRecord entry ++ post)
      with ((pre ++ ZipLayout.localRecord entry ++ suf ++ mid)
            ++ ZipLayout.centralRecord entry ++ post)
      by (rewrite <- !app_assoc; reflexivity).
    split; [|split; [|split; [|split]]].
    + rewrite <- (Nat.add_0_r (ZipLayout.centralStart encode files i)).
      rewrite (slice_after _ _ _ 0 4 Hmid). reflexivity.
    + rewrite (slice_after _ _ _ 20 4 Hmid).
      change (ZipLayout.slice 20 4 (ZipLayout.centralRecord entry ++ post))
        with (Zip.le32 (Zip.ushr32 (Z.of_nat (length (Zip.m_data entry))) 0)).
      rewrite fromLe_le32, ushr32_0, Z.mod_mod by lia. reflexivity.
    + rewrite (slice_after _ _ _ 28 2 Hmid).
      change (ZipLayout.slice 28 2 (ZipLayout.centralRecord entry ++ post))
        with (Zip.le16 (Zip.and32 (Z.of_nat (length (Zip.nameBytes entry))) 0xffff)).
      rewrite fromLe_le16, and32_ffff, Z.mod_mod by lia. reflexivity.
    + rewrite (slice_after _ _ _ 42 4 Hmid).
      change (ZipLayout.slice 42 4 (ZipLayout.centralRecord entry ++ post))
        with (Zip.le32 (Zip.ushr32 (Z.of_nat (Zip.localHeaderOffset entry)) 0)).
      rewrite fromLe_le32, ushr32_0, Z.mod_mod by lia. reflexivity.
    + rewrite (slice_after _ _ _ 46 _ Hmid). apply slice_central_name.
Qed.

(* ===================================================================== *)
(** * More properties of the form synthesizer                             *)
(* ===================================================================== *)

Section WidgetNameClashes.
Import App AppSpec.

Lemma pretty_N_char_digit x : pretty_N_char x <> "_"%char.
Proof. unfold pretty_N_char. repeat case_match; discriminate. Qed.

Lemma pretty_N_go_digits x : forall s,
  ~ In "_"%char (list_ascii_of_string s) ->
  ~ In "_"%char (list_ascii_of_string (pretty_N_go x s)).
Proof.
  induction (N.lt_wf_0 x) as [x _ IH]. intros s Hs.
  destruct (decide (x = 0%N)) as [->|Hx].
  - rewrite pretty_N_go_0. exact Hs.
  - rewrite pretty_N_go_step by lia. apply IH.
    + apply N.div_lt; lia.
    + cbn [list_ascii_of_string]. intros [E|Hin]; [|exact (Hs Hin)].
      exact (pretty_N_char_digit _ E).
Qed.

Lemma pretty_nat_digits (k : nat) : ~ In "_"%char (list_ascii_of_string (pretty k)).
Proof.
  unfold pretty, pretty_nat, pretty, pretty_N.
  destruct (decide (N.of_nat k = 0%N)).
  - cbn. intros [E|[]]. discriminate.
  - apply pretty_N_go_digits. intros [].
Qed.

Lemma list_split_at_mark (c : ascii) (l l' d d' : list ascii) :
  ~ In c d -> ~ In c d' -> (l ++ c :: d = l' ++ c :: d')%list -> l = l' /\ d = d'.
Proof.
  intros Hd Hd'. revert l'. induction l as [|a l IH]; intros [|a' l']; cbn [app].
  - intros [= ->]. split; reflexivity.
  - intros [= <- ->]. exfalso. apply Hd, in_or_app. right. left. reflexivity.
  - intros [= -> <-]. exfalso. apply Hd', in_or_app. right. left. reflexivity.
  - intros [= -> H]. destruct (IH _ H) as [-> ->]. split; reflexivity.
Qed.

Lemma chars_inj (a b : string) :
  list_ascii_of_string a = list_ascii_of_string b -> a = b.
Proof.
  intros H. apply (f_equal string_of_list_ascii) in H.
  rewrite !string_of_list_ascii_of_string in H. exact H.
Qed.

Lemma suffix_split (b b' d d' : string) :
  ~ In "_"%char (list_ascii_of_string d) ->
  ~ In "_"%char (list_ascii_of_string d') ->
  b +:+ "_" +:+ d = b' +:+ "_" +:+ d' -> b = b' /\ d = d'.
Proof.
  intros Hd Hd' H. apply (f_equal list_ascii_of_string) in H.
  rewrite !list_ascii_of_string_app in H. cbn [list_ascii_of_string app] in H.
  destruct (list_split_at_mark _ _ _ _ _ Hd Hd' H) as [E1 E2].
  split; apply chars_inj; assumption.
Qed.

Lemma suffixed_name_inj (b b' : string) (k k' : nat) :
  b +:+ "_" +:+ pretty k = b' +:+ "_" +:+ pretty k' -> b = b' /\ k = k'.
Proof.
  intros H.
  destruct (suffix_split _ _ _ _ (pretty_nat_digits k) (pretty_nat_digits k') H) as [E1 E2].
  split; [exact E1|]. apply (inj pretty), E2.
Qed.

Lemma count_occ_snoc (seen : list string) b0 b :
  count_occ String.string_dec (seen ++ [b0])%list b
  = (count_occ String.string_dec seen b + if String.string_dec b0 b then 1 else 0)%nat.
Proof.
  rewrite count_occ_app. cbn [count_occ]. destruct (String.string_dec b0 b); lia.
Qed.

Lemma occurrenceNames_In bases : forall seen n,
  In n (occurrenceNames seen bases) ->
  exists b k,
    In b bases
    /\ (count_occ String.string_dec seen b < k
        <= count_occ String.string_dec (seen ++ bases)%list b)%nat
    /\ n = if (k =? 1)%nat then b else b +:+ "_" +:+ pretty k.
Proof.
  induction bases as [|b0 rest IH]; intros seen n; cbn [occurrenceNames]; [intros []|].
  intros [<-|Hin].
  - exists b0, (S (count_occ String.string_dec seen b0)).
    split; [left; reflexivity|]. split; [|reflexivity].
    rewrite count_occ_app. cbn [count_occ].
    destruct (String.string_dec b0 b0); [lia|contradiction].
  - destruct (IH _ _ Hin) as (b & k & Hb & Hk & Hn).
    exists b, k. split; [right; exact Hb|]. split; [|exact Hn].
    rewrite <- app_assoc in Hk. cbn [app] in Hk.
    rewrite count_occ_snoc in Hk. lia.
Qed.

Lemma occurrenceNames_NoDup bases : forall seen,
  (forall b b' k, In b (seen ++ bases)%list -> In b' (seen ++ bases)%list ->
     (2 <= k <= count_occ String.string_dec (seen ++ bases)%list b')%nat ->
     b <> b' +:+ "_" +:+ pretty k) ->
  List.NoDup (occurrenceNames seen bases).
Proof.
  induction bases as [|b0 rest IH]; intros seen Hfree; cbn [occurrenceNames];
    [constructor|].
  assert (Hfree' : forall b b' k, In b ((seen ++ [b0]) ++ rest)%list ->
                     In b' ((seen ++ [b0]) ++ rest)%list ->
                     (2 <= k <= count_occ String.string_dec ((seen ++ [b0]) ++ rest)%list b')%nat ->
                     b <> b' +:+ "_" +:+ pretty k)
    by (rewrite <- app_assoc; exact Hfree).
  constructor; [|apply IH, Hfree'].
  intros Hin. destruct (occurrenceNames_In _ _ _ Hin) as (b & k & Hb & Hk & Hn).
  rewrite <- app_assoc in Hk. cbn [app] in Hk. rewrite count_occ_snoc in Hk.
  assert (Hin0 : In b0 (seen ++ b0 :: rest)%list) by (apply in_or_app; right; left; reflexivity).
  assert (Hinb : In b (seen ++ b0 :: rest)%list) by (apply in_or_app; right; right; exact Hb).
  assert (Htot0 : (S (count_occ String.string_dec seen b0)
                   <= count_occ String.string_dec (seen ++ b0 :: rest)%list b0)%nat).
  { rewrite count_occ_app. cbn [count_occ].
    destruct (String.string_dec b0 b0); [lia|contradiction]. }
  destruct (count_occ String.string_dec seen b0) as [|c0] eqn:Hc0; cbn [Nat.eqb] in Hn;
    destruct (Nat.eqb_spec k 1) as [->|Hk1].
  - subst b. destruct (String.string_dec b0 b0); [lia|contradiction].
  - apply (Hfree b0 b k Hin0 Hinb); [lia|exact Hn].
  - apply (Hfree b b0 (S (S c0)) Hinb Hin0); [lia|symmetry; exact Hn].
  - apply suffixed_name_inj in Hn as [<- <-].
    destruct (String.string_dec b0 b0); [lia|contradiction].
Qed.
End WidgetNameClashes.

(** X22.  [buildFillablePdf] loads the bytes, asks pdf-lib for the text
    fields of the document in order, stops at the first request that throws
    (nothing is returned then) and saves otherwise.  The requests are one
    for each field whose page index has a page record, in the order of the
    fields, and none for a field on a missing page, so never more than
    there are fields; a request is for the field's page, at the field's
    rectangle in content space, with the placeholder as its text (the empty
    text without one) and the field's multiline flag; it is named by the
    field's name, or "field" for an empty name, the k-th use of a name
    suffixed with _k. *)
Theorem widgets_follow_fields (pdfLib : App.PdfLib) (document : PdfDocumentRecord.t) :
  let kept :=
    List.filter (AppSpec.hasPage (PdfDocumentRecord.pages document))
                (PdfDocumentRecord.fields document) in
  App.buildFillablePdf pdfLib document
  = AppSpec.synthesized pdfLib (PdfDocumentRecord.documentData document)
      (App.widgets document)
  /\ Forall2 (AppSpec.placedAs (PdfDocumentRecord.pages document)) kept
       (App.widgets document)
  /\ List.map App.w_name (App.widgets document)
     = AppSpec.occurrenceNames [] (List.map AppSpec.baseName kept)
  /\ length (App.widgets document) <= length (PdfDocumentRecord.fields document).
Proof.
  intros kept. subst kept. split; [apply buildFillablePdf_requests|].
  split; [apply widgets_placed|].
  split; [apply widget_names_by_occurrence|].
  rewrite <- (Forall2_length _ _ _ (widgets_placed document)).
  apply List.filter_length_le.
Qed.

(** X23.  The names of the widgets are pairwise distinct whenever no name
    in use looks like a generated one: when no base name of the document
    is [b_k] for a base name [b] that the document uses [k] times or more,
    [k] from 2. *)
Theorem widget_names_unique_without_clash (document : PdfDocumentRecord.t) :
  let bases :=
    List.map AppSpec.baseName
      (List.filter (AppSpec.hasPage (PdfDocumentRecord.pages document))
                   (PdfDocumentRecord.fields document)) in
  (forall b b' k, In b bases -> In b' bases ->
     2 <= k <= count_occ String.string_dec bases b' ->
     b <> b' +:+ "_" +:+ pretty k) ->
  List.NoDup (List.map App.w_name (App.widgets document)).
Proof.
  intros bases Hfree. rewrite widget_names_by_occurrence.
  apply occurrenceNames_NoDup. exact Hfree.
Qed.

Lemma widget_names_unique_without_clash_witness :
  List.NoDup (List.map App.w_name (App.widgets WidgetExamples.twice)).
Proof.
  apply (widget_names_unique_without_clash WidgetExamples.twice).
  intros b b' k Hb Hb' Hk. cbn in Hb, Hb'.
  destruct Hb' as [<-|[<-|[<-|[]]]]; vm_compute in Hk;
    try (exfalso; lia);
    (assert (k = 2) as -> by lia);
    destruct Hb as [<-|[<-|[<-|[]]]]; vm_compute; discriminate.
Defined.

(* ===================================================================== *)
(** * Properties of loading files                                         *)
(* ===================================================================== *)

Section IngestFacts.
Import PdfDocumentRecord Store Ingest IngestSpec.
Variable endsWithPdf : string -> bool.
Variable getDocument : bytes -> option (nat * list (Q -> Q * Q)).
Variable generateDocumentId : nat -> string.

Lemma imap_pageMeta_blank viewports :
  indexed (imap pageMeta viewports)
  /\ Forall (fun meta => PageMeta.scale meta = (125 # 100)%Q) (imap pageMeta viewports).
Proof.
  split.
  - intros i meta Hi. rewrite list_lookup_imap in Hi.
    destruct (viewports !! i); [|discriminate]. injection Hi as <-. reflexivity.
  - apply Forall_lookup. intros i meta Hi. rewrite list_lookup_imap in Hi.
    destruct (viewports !! i); [|discriminate]. injection Hi as <-. reflexivity.
Qed.

Lemma ingestFile_step state error drawn file :
  if loads endsWithPdf getDocument file
  then exists doc viewports,
         ingestFile endsWithPdf getDocument generateDocumentId (state, error, drawn) file
         = (addDocument
              {| id := generateDocumentId drawn; fileName := file_name file;
                 pdfDoc := doc; documentData := file_bytes file;
                 pages := imap pageMeta viewports; fields := [];
                 selectedFieldId := None |} state,
            error, S drawn)
  else exists error',
         ingestFile endsWithPdf getDocument generateDocumentId (state, error, drawn) file
         = (state, error', drawn).
Proof.
  unfold loads, ingestFile.
  destruct (endsWithPdf (file_name file)); cbn [negb andb]; [|eauto].
  destruct (getDocument (file_bytes file)) as [[doc viewports]|]; eauto.
Qed.

(** What the loop of [ingestFiles] leaves in the store. *)
Lemma ingest_fold files : forall state error drawn,
  exists added,
    documents (fst (fst (fold_left (ingestFile endsWithPdf getDocument generateDocumentId)
                                   files (state, error, drawn))))
    = documents state ++ added
    /\ Forall blank added
    /\ List.map fileName added
       = List.map file_name (List.filter (loads endsWithPdf getDocument) files)
    /\ List.map documentData added
       = List.map file_bytes (List.filter (loads endsWithPdf getDocument) files)
    /\ List.map id added = List.map generateDocumentId (seq drawn (length added))
    /\ snd (fold_left (ingestFile endsWithPdf getDocument generateDocumentId)
                      files (state, error, drawn)) = (drawn + length added)%nat
    /\ activeDocumentId
         (fst (fst (fold_left (ingestFile endsWithPdf getDocument generateDocumentId)
                              files (state, error, drawn))))
       = match last added with
         | Some doc => Some (id doc)
         | None => activeDocumentId state
         end.
Proof.
  induction files as [|file rest IH]; intros state error drawn.
  - exists []. cbn. rewrite app_nil_r, Nat.add_0_r. repeat split; constructor.
  - cbn [fold_left List.filter].
    pose proof (ingestFile_step state error drawn file) as Hstep.
    destruct (loads endsWithPdf getDocument file).
    + destruct Hstep as (doc & viewports & ->).
      set (entry := {| id := generateDocumentId drawn |}).
      destruct (IH (addDocument entry state) error (S drawn))
        as (added & Hdocs & Hblank & Hnames & Hdata & Hids & Hdrawn & Hactive).
      exists (entry :: added). rewrite Hdocs, Hdrawn, Hactive.
      cbn [addDocument documents activeDocumentId List.map length seq].
      split; [rewrite <- app_assoc; reflexivity|].
      split; [constructor; [|exact Hblank]|].
      { destruct (imap_pageMeta_blank viewports) as [Hi Hs].
        repeat split; assumption. }
      split; [rewrite Hnames; reflexivity|]. split; [rewrite Hdata; reflexivity|].
      split; [rewrite Hids; reflexivity|]. split; [lia|].
      destruct added as [|d ds]; [reflexivity|].
      change (last (entry :: d :: ds)) with (last (d :: ds)).
      destruct (last (d :: ds)) eqn:E; [reflexivity|].
      apply last_None in E. discriminate.
    + destruct Hstep as (error' & ->). apply IH.
Qed.
End IngestFacts.

(** X24.  Loading files adds to the store, after the documents it holds
    and in the order of the files, one document for each file whose name
    ends in .pdf and that pdf.js can read, and nothing for the others: the
    document has the file's name and bytes, a fresh id, no field and no
    selection, and one page record per page at scale 1.25 whose index is
    its position.  The last document added becomes the active one; when no
    file is loaded the active id stays. *)
Theorem ingest_appends_blank_documents (endsWithPdf : string -> bool)
    (getDocument : bytes -> option (nat * list (Q -> Q * Q)))
    (generateDocumentId : nat -> string)
    (files : list Ingest.File) (state : Store.PdfState) (error : option string)
    (drawn : nat) :
  let after :=
    Ingest.ingestFiles endsWithPdf getDocument generateDocumentId files
      (state, error, drawn) in
  let loaded := List.filter (IngestSpec.loads endsWithPdf getDocument) files in
  exists added,
    Store.documents (fst (fst after)) = Store.documents state ++ added
    /\ Forall IngestSpec.blank added
    /\ List.map PdfDocumentRecord.fileName added = List.map Ingest.file_name loaded
    /\ List.map PdfDocumentRecord.documentData added = List.map Ingest.file_bytes loaded
    /\ List.map PdfDocumentRecord.id added
       = List.map generateDocumentId (seq drawn (length added))
    /\ Store.activeDocumentId (fst (fst after))
       = match last added with
         | Some doc => Some (PdfDocumentRecord.id doc)
         | None => Store.activeDocumentId state
         end.
Proof.
  intros after loaded. subst after loaded. unfold Ingest.ingestFiles.
  destruct files as [|file rest].
  - exists []. cbn. rewrite app_nil_r. repeat split; constructor.
  - cbn [length Nat.eqb].
    destruct (ingest_fold endsWithPdf getDocument generateDocumentId (file :: rest)
                state None drawn)
      as (added & Hdocs & Hblank & Hnames & Hdata & Hids & _ & Hactive).
    exists added. repeat split; assumption.
Qed.

Section DropFacts.
Import PdfDocumentRecord Store Ingest IngestSpec.
Variable endsWithPdf : string -> bool.
Variable getDocument : bytes -> option (nat * list (Q -> Q * Q)).
Variable generateDocumentId : nat -> string.

Lemma ingestFile_refused state error drawn file :
  endsWithPdf (file_name file) = false ->
  exists error',
    ingestFile endsWithPdf getDocument generateDocumentId (state, error, drawn) file
    = (state, Some error', drawn).
Proof. intros Hn. unfold ingestFile. rewrite Hn. cbn [negb]. eauto. Qed.

Lemma ingestFile_core state e1 e2 drawn file :
  exists state' drawn' e1' e2',
    ingestFile endsWithPdf getDocument generateDocumentId (state, e1, drawn) file
    = (state', e1', drawn')
    /\ ingestFile endsWithPdf getDocument generateDocumentId (state, e2, drawn) file
       = (state', e2', drawn').
Proof.
  unfold ingestFile. destruct (negb (endsWithPdf (file_name file))); [eauto 10|].
  destruct (getDocument (file_bytes file)) as [[doc viewports]|]; eauto 10.
Qed.

(** The store and the ids drawn do not depend on the files whose name is
    refused, nor on the error message. *)
Lemma ingest_fold_by_name files : forall state e1 e2 drawn,
  fst (fst (fold_left (ingestFile endsWithPdf getDocument generateDocumentId)
                      files (state, e1, drawn)))
  = fst (fst (fold_left (ingestFile endsWithPdf getDocument generateDocumentId)
                        (List.filter (fun file => endsWithPdf (file_name file)) files)
                        (state, e2, drawn)))
  /\ snd (fold_left (ingestFile endsWithPdf getDocument generateDocumentId)
                    files (state, e1, drawn))
     = snd (fold_left (ingestFile endsWithPdf getDocument generateDocumentId)
                      (List.filter (fun file => endsWithPdf (file_name file)) files)
                      (state, e2, drawn)).
Proof.
  induction files as [|file rest IH]; intros state e1 e2 drawn; [split; reflexivity|].
  cbn [List.filter fold_left].
  destruct (endsWithPdf (file_name file)) eqn:Hn.
  - cbn [fold_left].
    destruct (ingestFile_core state e1 e2 drawn file) as (s' & d' & e1' & e2' & -> & ->).
    apply IH.
  - destruct (ingestFile_refused state e1 drawn file Hn) as (e' & ->). apply IH.
Qed.

Lemma filter_by_name_of_dropped (files : list File) :
  List.filter (fun file => endsWithPdf (file_name file))
    (List.filter (fun file => String.eqb (file_type file) "application/pdf"
                              || endsWithPdf (file_name file)) files)
  = List.filter (fun file => endsWithPdf (file_name file)) files.
Proof.
  induction files as [|file rest IH]; [reflexivity|]. cbn [List.filter].
  destruct (endsWithPdf (file_name file)) eqn:Hn.
  - rewrite orb_true_r. cbn [List.filter]. rewrite Hn, IH. reflexivity.
  - rewrite orb_false_r. destruct (String.eqb _ _); [cbn [List.filter]; rewrite Hn|];
      exact IH.
Qed.

Lemma ingestFile_error state message drawn file :
  exists state' message' drawn',
    ingestFile endsWithPdf getDocument generateDocumentId (state, Some message, drawn) file
    = (state', Some message', drawn').
Proof.
  unfold ingestFile. destruct (negb (endsWithPdf (file_name file))); [eauto|].
  destruct (getDocument (file_bytes file)) as [[doc viewports]|]; eauto.
Qed.

(** An error message, once set, is not cleared by the loop. *)
Lemma ingest_fold_error files : forall state message drawn,
  is_Some (snd (fst (fold_left (ingestFile endsWithPdf getDocument generateDocumentId)
                               files (state, Some message, drawn)))).
Proof.
  induction files as [|file rest IH]; intros state message drawn; [cbn; eauto|].
  cbn [fold_left].
  destruct (ingestFile_error state message drawn file) as (s' & m' & d' & ->). apply IH.
Qed.

Lemma ingest_fold_refused files : forall state error drawn,
  (exists file, In file files /\ endsWithPdf (file_name file) = false) ->
  is_Some (snd (fst (fold_left (ingestFile endsWithPdf getDocument generateDocumentId)
                               files (state, error, drawn)))).
Proof.
  induction files as [|file rest IH]; intros state error drawn (f & Hin & Hf);
    [destruct Hin|].
  cbn [fold_left].
  destruct (endsWithPdf (file_name file)) eqn:Hn.
  - assert (Hrest : exists file, In file rest /\ endsWithPdf (file_name file) = false).
    { destruct Hin as [->|Hin]; [congruence|]. exists f. split; assumption. }
    destruct (ingestFile_core state error error drawn file) as (s' & d' & e' & _ & -> & _).
    apply IH, Hrest.
  - destruct (ingestFile_refused state error drawn file Hn) as (e' & ->).
    apply ingest_fold_error.
Qed.
End DropFacts.

(** X25.  Of the files dropped on the page, exactly those whose name ends
    in .pdf are loaded: the store and the ids drawn after
    [processDroppedFiles] are those after [ingestFiles] on the files with
    such a name.  The MIME type lets a file through the filter of the drop
    handler but not into the store: a file of type application/pdf with
    another name is refused by [ingestFiles], and an error is shown. *)
Theorem dropped_files_load_by_name (endsWithPdf : string -> bool)
    (getDocument : bytes -> option (nat * list (Q -> Q * Q)))
    (generateDocumentId : nat -> string)
    (files : list Ingest.File) (st : Store.PdfState * option string * nat) :
  let byName := List.filter (fun file => endsWithPdf (Ingest.file_name file)) files in
  let dropped :=
    Ingest.processDroppedFiles endsWithPdf getDocument generateDocumentId (Some files) st in
  let ingested :=
    Ingest.ingestFiles endsWithPdf getDocument generateDocumentId byName st in
  fst (fst dropped) = fst (fst ingested)
  /\ snd dropped = snd ingested
  /\ ((exists file, In file files /\ Ingest.file_type file = "application/pdf"
                     /\ endsWithPdf (Ingest.file_name file) = false) ->
      is_Some (snd (fst dropped))).
Proof.
  intros byName dropped ingested. subst byName dropped ingested.
  destruct st as [[state error] drawn].
  destruct files as [|file0 files0]; [split; [|split]; cbn; eauto|].
  unfold Ingest.processDroppedFiles. cbv zeta.
  pose proof (filter_by_name_of_dropped endsWithPdf (file0 :: files0)) as Hsame.
  rewrite <- Hsame.
  destruct (List.filter
              (fun file => String.eqb (Ingest.file_type file) "application/pdf"
                           || endsWithPdf (Ingest.file_name file)) (file0 :: files0))
    as [|p ps] eqn:Hpdf.
  - cbn. split; [reflexivity|]. split; [reflexivity|].
    intros (f & Hin & Ht & Hf). exfalso.
    assert (Hmember : In f []); [|destruct Hmember].
    rewrite <- Hpdf. apply filter_In. split; [exact Hin|]. rewrite Ht. reflexivity.
  - cbn [length Nat.eqb]. unfold Ingest.ingestFiles. cbn [length Nat.eqb].
    destruct (ingest_fold_by_name endsWithPdf getDocument generateDocumentId
                (p :: ps) state None None drawn) as [H1 H2].
    split; [|split].
    + rewrite H1.
      destruct (List.filter (fun file => endsWithPdf (Ingest.file_name file)) (p :: ps));
        reflexivity.
    + rewrite H2.
      destruct (List.filter (fun file => endsWithPdf (Ingest.file_name file)) (p :: ps));
        reflexivity.
    + intros (f & Hin & Ht & Hf).
      apply ingest_fold_refused. exists f. split; [|exact Hf].
      rewrite <- Hpdf. apply filter_In. split; [exact Hin|].
      rewrite Ht. reflexivity.
Qed.


Section ExportableFacts.
Import PdfDocumentRecord Store Editor IngestSpec AppSpec.

Lemma indexed_find pages pageIndex meta :
  indexed pages ->
  List.find (fun m => Nat.eqb (PageMeta.index m) pageIndex) pages = Some meta ->
  pages !! pageIndex = Some meta.
Proof.
  intros Hidx Hfind. apply List.find_some in Hfind as [Hin Heq].
  apply Nat.eqb_eq in Heq. apply list_elem_of_In, list_elem_of_lookup in Hin as [i Hi].
  rewrite <- Heq, (Hidx i meta Hi). exact Hi.
Qed.

Lemma indexed_member pages meta :
  indexed pages -> In meta pages -> pages !! PageMeta.index meta = Some meta.
Proof.
  intros Hidx Hin. apply list_elem_of_In, list_elem_of_lookup in Hin as [i Hi].
  rewrite (Hidx i meta Hi). exact Hi.
Qed.

Lemma sublist_keeps {A} (P : A -> Prop) (xs ys : list A) :
  sublist xs ys -> Forall P ys -> Forall P xs.
Proof.
  induction 1 as [|x xs ys _ IH|x xs ys _ IH]; intros Hall.
  - constructor.
  - inversion Hall; subst. constructor; auto.
  - inversion Hall; subst. auto.
Qed.

(** The active document after a double click: as it was, or with one
    field more, on the page with the clicked index. *)
Lemma handleAddFieldAt_active fieldId pageIndex rawX rawY state document :
  activeDocument state = Some document ->
  activeDocument (handleAddFieldAt fieldId pageIndex rawX rawY state) = Some document
  \/ exists f pageMeta,
       activeDocument (handleAddFieldAt fieldId pageIndex rawX rawY state)
       = Some (withFields document (fields document ++ [f]) (Some fieldId))
       /\ Field.pageIndex f = pageIndex
       /\ List.find (fun m => Nat.eqb (PageMeta.index m) pageIndex) (pages document)
          = Some pageMeta.
Proof.
  intros Hactive. unfold handleAddFieldAt. rewrite Hactive.
  destruct (List.find _ (pages document)) as [pageMeta|] eqn:Hfind; [right|left; exact Hactive].
  eexists _, pageMeta. split.
  { pose proof (activeDocument_id _ _ Hactive) as Hid.
    unfold activeDocument in *. unfold addField.
    cbn [activeDocumentId documents]. rewrite Hid in *.
    rewrite find_updateDocument by (intros doc; reflexivity).
    rewrite Hactive. cbn [fmap option_fmap option_map].
    rewrite String.eqb_refl. reflexivity. }
  split; reflexivity.
Qed.
End ExportableFacts.

(** X26.  Fields made by the editor or by the detector are never left out
    of an export.  In a document whose page records carry their positions
    as indices (as every loaded document does) and whose fields are all on
    its pages, an export that returns has asked pdf-lib for one widget for
    every field, in the order of the fields, and pdf-lib has accepted every
    request; and the document stays so when the fields detected in it are
    merged in and when a field is added by a double click. *)
Theorem editor_and_detector_fields_are_exported (document : PdfDocumentRecord.t) :
  IngestSpec.exportable document ->
  (forall pdfLib data,
     App.buildFillablePdf pdfLib document = Some data ->
     exists loaded ws filled,
       Forall2 (AppSpec.placedAs (PdfDocumentRecord.pages document))
               (PdfDocumentRecord.fields document) ws
       /\ App.load pdfLib (PdfDocumentRecord.documentData document) = Some loaded
       /\ AppSpec.perform pdfLib ws loaded = Some filled
       /\ App.save pdfLib filled = Some data)
  /\ (forall sqrt makeId pdfDoc detected,
        Detection.detectFields sqrt makeId pdfDoc (PdfDocumentRecord.pages document)
        = Some detected ->
        IngestSpec.exportable (AutoDetectSpec.merged document detected))
  /\ (forall fieldId pageIndex rawX rawY state after,
        Editor.activeDocument state = Some document ->
        Editor.activeDocument (Editor.handleAddFieldAt fieldId pageIndex rawX rawY state)
        = Some after ->
        IngestSpec.exportable after).
Proof.
  intros [Hidx Hall]. split; [|split].
  - intros pdfLib data Hb.
    destruct (buildFillablePdf_returns _ _ _ Hb) as (loaded & filled & Hl & Hp & Hs).
    exists loaded, (App.widgets document), filled.
    split; [|repeat split; assumption].
    pose proof (widgets_placed document) as Hw.
    rewrite filter_keeps_all in Hw; [exact Hw|].
    rewrite List.Forall_forall in Hall. exact Hall.
  - intros sqrt makeId pdfDoc detected Hdet. split; [exact Hidx|].
    unfold AutoDetectSpec.merged. cbn [PdfDocumentRecord.pages PdfDocumentRecord.fields
                                       Store.withFields].
    destruct (mergeCombined_accepts (PdfDocumentRecord.fields document) detected)
      as (acc & -> & Hsub).
    apply Forall_app. split; [exact Hall|].
    apply (sublist_keeps _ _ _ Hsub).
    destruct (detectLoop_identity sqrt makeId pdfDoc (PdfDocumentRecord.pages document)
                [] detected Hdet) as (found & -> & _ & Hst).
    { intros i g Hi. destruct i; discriminate Hi. }
    cbn [app]. eapply Forall_impl; [exact Hst|].
    intros f (pageMeta & Hin & Hpage & _). cbn beta. unfold AppSpec.hasPage.
    rewrite Hpage, (indexed_member _ _ Hidx Hin). reflexivity.
  - intros fieldId pageIndex rawX rawY state after Hactive Hafter.
    destruct (handleAddFieldAt_active fieldId pageIndex rawX rawY state document Hactive)
      as [Hsame|(f & pageMeta & Hnew & Hpage & Hfind)].
    + rewrite Hsame in Hafter. injection Hafter as <-. split; assumption.
    + rewrite Hnew in Hafter. injection Hafter as <-. split; [exact Hidx|].
      cbn [PdfDocumentRecord.pages PdfDocumentRecord.fields Store.withFields].
      apply Forall_app. split; [exact Hall|]. constructor; [|constructor].
      unfold AppSpec.hasPage. rewrite Hpage, (indexed_find _ _ _ Hidx Hfind). reflexivity.
Qed.

Lemma editor_and_detector_fields_are_exported_witness :
  IngestSpec.exportable AppExamples.plain
  /\ exists loaded ws filled,
       Forall2 (AppSpec.placedAs (PdfDocumentRecord.pages AppExamples.plain))
               (PdfDocumentRecord.fields AppExamples.plain) ws
       /\ App.load AppExamples.strict (PdfDocumentRecord.documentData AppExamples.plain)
          = Some loaded
       /\ AppSpec.perform AppExamples.strict ws loaded = Some filled
       /\ App.save AppExamples.strict filled = Some ["T"; "T"; "T"]%byte.
Proof.
  assert (He : IngestSpec.exportable AppExamples.plain).
  { split.
    - intros i meta Hi. destruct i as [|[|i]]; cbn in Hi; try discriminate.
      injection Hi as <-. reflexivity.
    - repeat constructor. }
  split; [exact He|].
  destruct (editor_and_detector_fields_are_exported AppExamples.plain He) as [H _].
  apply (H AppExamples.strict). vm_compute. reflexivity.
Defined.

(* ===================================================================== *)
(** * More properties of the export handlers                              *)
(* ===================================================================== *)

Section ExportFailures.
Import App AppSpec.
Variable pdfLib : PdfLib.

Lemma collectFiles_fails snapshot : forall files,
  (exists document, In document snapshot /\ hasFields document = true
                    /\ buildFillablePdf pdfLib document = None) ->
  collectFiles pdfLib snapshot files = None.
Proof.
  induction snapshot as [|document rest IH]; intros files (d & Hin & Hf & Hb);
    [destruct Hin|].
  cbn [collectFiles].
  destruct (length (PdfDocumentRecord.fields document) =? 0)%nat eqn:E.
  - apply IH. destruct Hin as [->|Hin]; [|exists d; auto].
    unfold hasFields in Hf. rewrite E in Hf. discriminate.
  - destruct (buildFillablePdf pdfLib document) as [data|] eqn:Hd; [|reflexivity].
    apply IH. destruct Hin as [->|Hin]; [congruence|exists d; auto].
Qed.
End ExportFailures.

(** X27.  An export is all or nothing.  When pdf-lib fails on one document
    that has fields, [handleExportAll] downloads no archive, not even of
    the documents it had already built, and reports "Failed to export all
    documents."; [handleExportCurrent] on a document with fields downloads
    the bytes pdf-lib returns under the derived name and reports nothing,
    or downloads nothing and reports "Export failed. Try again or refresh
    the page." when pdf-lib fails. *)
Theorem export_is_all_or_nothing
    (pdfLib : App.PdfLib)
    (encode : string -> bytes) (clock : nat -> Zip.Date) :
  (forall snapshot,
     (exists document, In document snapshot /\ AppSpec.hasFields document = true
                       /\ App.buildFillablePdf pdfLib document = None) ->
     App.handleExportAll pdfLib encode clock snapshot
     = {| App.error := Some "Failed to export all documents."; App.download := None |})
  /\ (forall document,
        AppSpec.hasFields document = true ->
        App.handleExportCurrent pdfLib (Some document)
        = match App.buildFillablePdf pdfLib document with
          | Some data =>
              {| App.error := None;
                 App.download :=
                   Some (App.exportName (PdfDocumentRecord.fileName document), data) |}
          | None =>
              {| App.error := Some "Export failed. Try again or refresh the page.";
                 App.download := None |}
          end).
Proof.
  split.
  - intros snapshot Hfail. unfold App.handleExportAll.
    destruct snapshot as [|document rest]; [destruct Hfail as (d & [] & _)|].
    cbn [length Nat.eqb]. rewrite (collectFiles_fails pdfLib _ [] Hfail). reflexivity.
  - intros document Hf. unfold App.handleExportCurrent, AppSpec.hasFields in *.
    destruct (length (PdfDocumentRecord.fields document) =? 0)%nat; [discriminate|].
    reflexivity.
Qed.

(** X28.  What is downloaded can be read back: in the archive of
    [handleExportAll] the k-th document with fields has its local record
    at the sum of the sizes of the records before it, with the derived
    file name, encoded, at offset 30 and, right after the name, the bytes
    pdf-lib returned for the document, byte for byte. *)
Theorem exported_archive_holds_documents
    (pdfLib : App.PdfLib)
    (encode : string -> bytes) (clock : nat -> Zip.Date)
    (snapshot : list PdfDocumentRecord.t) (name : string) (blob : bytes) :
  App.download (App.handleExportAll pdfLib encode clock snapshot) = Some (name, blob) ->
  exists files,
    length files = length (List.filter AppSpec.hasFields snapshot)
    /\ forall k document,
         List.filter AppSpec.hasFields snapshot !! k = Some document ->
         exists data,
           App.buildFillablePdf pdfLib document = Some data
           /\ let start := ZipLayout.localStart encode files k in
              let entryName :=
                encode (App.exportName (PdfDocumentRecord.fileName document)) in
              ZipLayout.slice start 4 blob = ["P"; "K"; "003"; "004"]%byte
              /\ ZipLayout.slice (start + 30) (length entryName) blob = entryName
              /\ ZipLayout.slice (start + 30 + length entryName) (length data) blob
                 = data.
Proof.
  intros Hdown.
  destruct (handleExportAll_download pdfLib encode clock snapshot name blob Hdown)
    as (_ & _ & files & Hzip & Hfiles).
  exists files. split; [symmetry; apply (Forall2_length _ _ _ Hfiles)|].
  intros k document Hk.
  destruct (Forall2_lookup_l _ _ _ _ _ Hfiles Hk) as (file & Hfile & Hname & Hdata & _).
  exists (Zip.data file). split; [exact Hdata|].
  rewrite createZipFromFiles_archive in Hzip. injection Hzip as <-.
  destruct (archive_local_fields encode clock files k file Hfile)
    as (Hsig & _ & _ & _ & _ & Hn & Hd).
  cbv zeta. rewrite <- Hname. split; [exact Hsig|]. split; [exact Hn|exact Hd].
Qed.

Lemma exported_archive_holds_documents_witness :
  exists name blob (files : list Zip.ZipEntry),
    App.download (App.handleExportAll AppExamples.echo Zip.asciiEncode ZipExamples.atNoon
                    [AppExamples.filledDoc]) = Some (name, blob)
    /\ length files = 1.
Proof.
  destruct (App.download (App.handleExportAll AppExamples.echo Zip.asciiEncode
                            ZipExamples.atNoon [AppExamples.filledDoc]))
    as [[name blob]|] eqn:Hdown; [|vm_compute in Hdown; discriminate].
  destruct (exported_archive_holds_documents AppExamples.echo Zip.asciiEncode
              ZipExamples.atNoon [AppExamples.filledDoc] name blob Hdown)
    as (files & Hlen & _).
  exists name, blob, files. split; [reflexivity|exact Hlen].
Defined.
